(** * Fossilize: [extract_vulkan_extensions.py]

    A shallow embedding of the type-dependency closure and
    extension-classification engine of the registry extraction script,
    together with the properties of its closure engine, extension-chain
    classifier, size-table builder and extension delta reporter.

    Conventions of the embedding.
    - A Python [dict] keyed by names is a [gmap string _]; a Python [set]
      of names is a [gset string].  A [for] loop over a set or over the
      keys of a dict runs over [elements] of it: one fixed enumeration,
      the results below do not depend on which.
    - The two recursive functions are defined by recursion on a recursion
      budget (the interpreter's recursion limit); exhausting it is the
      [RecursionError] the interpreter raises.
    - The registry document is taken as already parsed: elements are
      records of their attributes and children, comma separated attribute
      values are lists. *)

From Stdlib Require Import Ascii String.
From stdpp Require Import gmap strings list fin_maps fin_sets.

Open Scope string_scope.
Open Scope list_scope.
Open Scope stdpp_scope.

(** ** Data model *)

(** [StructType = namedtuple('StructType', ['extends', 'member_types'])] *)
Record StructType := mkStructType {
  extends : gset string;
  member_types : list string
}.

(** [EnumType = namedtuple('EnumType', ['extensions'])] *)
Record EnumType := mkEnumType {
  enum_extensions : gset string
}.

(** Exceptions the script can die of. *)
Inductive exn :=
| KeyError
| AttributeError
| TypeError
| RecursionError.

Inductive result (A : Type) :=
| Ok (a : A)
| Raise (e : exn).
Arguments Ok {A} a.
Arguments Raise {A} e.

#[global] Instance result_ret : MRet result := λ A a, Ok a.
#[global] Instance result_bind : MBind result := λ A B k r,
  match r with
  | Ok a => k a
  | Raise e => Raise e
  end.

(** A [for] loop that threads an accumulator and stops at the first
    exception. *)
Fixpoint for_each {A S} (body : S → A → result S) (s : S) (l : list A)
  : result S :=
  match l with
  | [] => Ok s
  | x :: l' => s' ← body s x; for_each body s' l'
  end.

(** ** Closure engine *)

(** [traverse_active_struct_type(active_types, t, mapping)]; the returned
    set is the content of [active_types] when the call returns. *)
Fixpoint traverse_active_struct_type (limit : nat) (active_types : gset string)
    (t : string) (mapping : gmap string StructType) : result (gset string) :=
  match limit with
  | 0 => Raise RecursionError
  | S limit' =>
    match mapping !! t with
    | None => Ok active_types
    | Some st =>
      if decide (t ∈ active_types) then Ok active_types
      else
        for_each
          (λ active m, traverse_active_struct_type limit' active m mapping)
          (active_types ∪ {[t]}) (member_types st)
    end
  end.

(** [traverse_active_struct_types(base_types, mapping)] *)
Definition traverse_active_struct_types (limit : nat)
    (base_types : list string) (mapping : gmap string StructType)
  : result (gset string) :=
  for_each
    (λ active t, traverse_active_struct_type limit active t mapping)
    ∅ base_types.

(** ** Extension-chain classifier *)

(** The loop of [struct_extends_any] over the chain targets of one
    structure; [recurse e] is the recursive call on target [e]. *)
Fixpoint extends_any_loop (recurse : string → result bool)
    (active_types : gset string) (targets : list string) : result bool :=
  match targets with
  | [] => Ok false
  | e :: targets' =>
    if decide (e ∈ active_types) then Ok true
    else
      b ← recurse e;
      if b : bool then Ok true
      else extends_any_loop recurse active_types targets'
  end.

(** [struct_extends_any(active_types, t, mappings)] *)
Fixpoint struct_extends_any (limit : nat) (active_types : gset string)
    (t : string) (mappings : gmap string StructType) : result bool :=
  match limit with
  | 0 => Raise RecursionError
  | S limit' =>
    match mappings !! t with
    | None => Ok false
    | Some st =>
      extends_any_loop
        (λ e, struct_extends_any limit' active_types e mappings)
        active_types (elements (extends st))
    end
  end.

(** [for x in xs: s.add(x)] *)
Definition add_all (s : gset string) (xs : list string) : gset string :=
  fold_left (λ acc x, acc ∪ {[x]}) xs s.

(** [find_extending_structs(active_types, mappings)] *)
Definition find_extending_structs (limit : nat) (active_types : gset string)
    (mappings : gmap string StructType) : result (gset string) :=
  for_each
    (λ extending_structs m,
       b ← struct_extends_any limit active_types m mappings;
       if b : bool then
         membs ← traverse_active_struct_types limit [m] mappings;
         Ok (add_all extending_structs (elements membs))
       else Ok extending_structs)
    ∅ (elements (dom mappings)).

(** ** Enum activation resolver *)

(** The body shared by the two inner loops of [find_active_enum_types]. *)
Definition activate_member (enum_types : gmap string EnumType)
    (bitmask_reqs : gmap string string)
    (active_enum_types : gset string) (m : string) : gset string :=
  match bitmask_reqs !! m with
  | Some req => active_enum_types ∪ {[req]}
  | None =>
    if decide (m ∈ dom enum_types) then active_enum_types ∪ {[m]}
    else active_enum_types
  end.

Definition activate_struct (mappings : gmap string StructType)
    (enum_types : gmap string EnumType) (bitmask_reqs : gmap string string)
    (active_enum_types : gset string) (t : string) : result (gset string) :=
  match mappings !! t with
  | None => Raise KeyError
  | Some st =>
    Ok (fold_left (activate_member enum_types bitmask_reqs)
          (member_types st) active_enum_types)
  end.

(** [find_active_enum_types(active_types, extending_types, mappings,
    enum_types, bitmask_reqs)] *)
Definition find_active_enum_types (active_types extending_types : gset string)
    (mappings : gmap string StructType) (enum_types : gmap string EnumType)
    (bitmask_reqs : gmap string string) : result (gset string) :=
  active_enum_types ←
    for_each (activate_struct mappings enum_types bitmask_reqs)
      ∅ (elements active_types);
  for_each (activate_struct mappings enum_types bitmask_reqs)
    active_enum_types (elements extending_types).

(** ** The parsed registry and the ledger *)

(** A [<member>] element of a structure declaration. *)
Record MemberElem := mkMemberElem {
  member_values : option string;      (* attrib['values'] *)
  member_type : option string         (* find('type').text *)
}.

(** A [<type>] element under [<types>]. *)
Record TypeElem := mkTypeElem {
  type_name : option string;                  (* attrib['name'] *)
  type_alias : option string;                 (* attrib['alias'] *)
  type_category : option string;              (* attrib['category'] *)
  type_structextends : option (list string);  (* attrib['structextends'].split(',') *)
  type_requires : option string;              (* attrib['requires'] *)
  type_bitvalues : option string;             (* attrib['bitvalues'] *)
  type_child_name : option string;            (* find('name').text *)
  type_members : list MemberElem              (* iter('member') *)
}.

(** An [<enum>] element of a requirement block. *)
Record EnumRef := mkEnumRef {
  enumref_name : string;                (* attrib['name'] *)
  enumref_extends : option string       (* attrib['extends'] *)
}.

(** A [<require>] element of an extension. *)
Record RequireElem := mkRequireElem {
  require_types : list string;          (* attrib['name'] of each <type> *)
  require_enums : list EnumRef
}.

(** An [<extension>] element under [<extensions>]. *)
Record ExtensionElem := mkExtensionElem {
  extension_name : string;              (* attrib['name'] *)
  extension_supported : list string;    (* attrib['supported'].split(',') *)
  extension_requires : list RequireElem
}.

(** An [<enable>] element of a SPIR-V extension or capability. *)
Record EnableElem := mkEnableElem {
  enable_version : option string;
  enable_extension : option string;
  enable_feature : option string;
  enable_struct : option string;
  enable_requires : option (list string);   (* attrib['requires'].split(',') *)
  enable_property : option string;
  enable_member : option string;
  enable_value : option string
}.

(** A [<spirvextension>] or [<spirvcapability>] element. *)
Record SpirvElem := mkSpirvElem {
  spirv_name : string;                  (* attrib['name'] *)
  spirv_enables : list EnableElem
}.

Record Registry := mkRegistry {
  types : list TypeElem;
  extensions : list ExtensionElem;
  spirvextensions : list SpirvElem;
  spirvcapabilities : list SpirvElem
}.

(** The completed-work document, each field already defaulted to the
    empty set when absent. *)
Record Ledger := mkLedger {
  completed_extensions : gset string;
  ignored_extensions : gset string;
  cherry_picked : gset string;
  completed_spirv_capabilities : gset string
}.

(** ** Strings of the report *)

Definition nl : string := String "010"%char EmptyString.
Definition tab : string := String "009"%char EmptyString.
Definition dquote : string := String "034"%char EmptyString.
Definition squote : string := String "039"%char EmptyString.

(** [sep.join(l)] *)
Definition join (sep : string) (l : list string) : string :=
  String.concat sep l.

(** [s[n:]] *)
Fixpoint string_from (n : nat) (s : string) : string :=
  match n, s with
  | 0, _ => s
  | S n', String _ s' => string_from n' s'
  | S _, EmptyString => EmptyString
  end.

(** [str(l)] of a list of strings free of quotes and escapes. *)
Definition repr_list (l : list string) : string :=
  "[" +:+ join ", " (map (λ s, squote +:+ s +:+ squote) l) +:+ "]".

(** ** Model builder *)

Definition top_level_types_pipeline : gset string :=
  list_to_set [
    "VkGraphicsPipelineCreateInfo";
    "VkComputePipelineCreateInfo";
    "VkRayTracingPipelineCreateInfoKHR";
    "VkDeviceCreateInfo"].

Definition top_level_types : gset string :=
  list_to_set [
    "VkGraphicsPipelineCreateInfo";
    "VkComputePipelineCreateInfo";
    "VkRayTracingPipelineCreateInfoKHR";
    "VkRenderPassCreateInfo";
    "VkRenderPassCreateInfo2";
    "VkDescriptorSetLayoutCreateInfo";
    "VkSamplerCreateInfo";
    "VkShaderModuleCreateInfo";
    "VkPipelineLayoutCreateInfo"].

(** [type_aliases.get(x, x)] *)
Definition resolve (type_aliases : gmap string string) (x : string) : string :=
  default x (type_aliases !! x).

(** [d[k]] for an attribute dictionary. *)
Definition attrib {A} (o : option A) : result A :=
  match o with
  | Some a => Ok a
  | None => Raise KeyError
  end.

(** [e.find(tag).text]: the element may be missing. *)
Definition child_text {A} (o : option A) : result A :=
  match o with
  | Some a => Ok a
  | None => Raise AttributeError
  end.

(** Lines 100-102: the alias table. *)
Definition collect_aliases (ts : list TypeElem) : result (gmap string string) :=
  for_each
    (λ type_aliases t,
       match type_alias t with
       | None => Ok type_aliases
       | Some a => name ← attrib (type_name t); Ok (<[name := a]> type_aliases)
       end)
    ∅ ts.

(** Lines 119-123: the loop over the chain targets of one structure.  It
    returns what is appended to the size table: one row at the first
    pipeline root met, then [break]; nothing when there is none. *)
Fixpoint pnext_size_rows (targets : list string) (t : TypeElem) (name : string)
  : result string :=
  match targets with
  | [] => Ok ""
  | ext :: targets' =>
    if decide (ext ∈ top_level_types_pipeline) then
      first ← child_text (head (type_members t));
      stype ← attrib (member_values first);
      Ok ("{ " +:+ stype +:+ ", sizeof(" +:+ name +:+ ") }," +:+ nl)
    else pnext_size_rows targets' t name
  end.

(** Lines 113-123: the chain targets of a structure declaration and its
    contribution to the size table. *)
Definition struct_extends (type_aliases : gmap string string) (t : TypeElem)
    (name : string) : result (gset string * string) :=
  match type_structextends t with
  | None => Ok (∅, "")
  | Some raw =>
    let extends : gset string := list_to_set (resolve type_aliases <$> raw) in
    rows ← pnext_size_rows (elements extends) t name;
    Ok (extends, rows)
  end.

(** Lines 125-128 *)
Definition struct_members (type_aliases : gmap string string) (t : TypeElem)
  : result (list string) :=
  for_each
    (λ member_types elem,
       member_type ← child_text (member_type elem);
       Ok (member_types ++ [resolve type_aliases member_type]))
    [] (type_members t).

Record Model := mkModel {
  shallow_copy_pnext_size_lut : string;
  struct_types : gmap string StructType;
  enum_types : gmap string EnumType;
  bitmask_requirements : gmap string string
}.

(** Lines 107-140: one [<type>] element. *)
Definition build_type (type_aliases : gmap string string) (md : Model)
    (t : TypeElem) : result Model :=
  match type_category t with
  | None => Ok md
  | Some category =>
    if decide (category = "struct") then
      name ← attrib (type_name t);
      '(extends, rows) ← struct_extends type_aliases t name;
      member_types ← struct_members type_aliases t;
      Ok (mkModel (shallow_copy_pnext_size_lut md +:+ rows)
            (<[name := mkStructType extends member_types]> (struct_types md))
            (enum_types md) (bitmask_requirements md))
    else if decide (category = "enum") then
      name ← attrib (type_name t);
      let name := resolve type_aliases name in
      if decide (name ≠ "VkStructureType" ∧ name ≠ "VkFormat"
                 ∧ name ≠ "VkObjectType") then
        Ok (mkModel (shallow_copy_pnext_size_lut md) (struct_types md)
              (<[name := mkEnumType ∅]> (enum_types md))
              (bitmask_requirements md))
      else Ok md
    else if decide (category = "bitmask") then
      match type_requires t, type_bitvalues t with
      | Some req, _ | None, Some req =>
        bname ← child_text (type_child_name t);
        Ok (mkModel (shallow_copy_pnext_size_lut md) (struct_types md)
              (enum_types md) (<[bname := req]> (bitmask_requirements md)))
      | None, None => Ok md
      end
    else Ok md
  end.

(** Lines 95-140 *)
Definition build_model (type_aliases : gmap string string)
    (ts : list TypeElem) : result Model :=
  for_each (build_type type_aliases) (mkModel "" ∅ ∅ ∅) ts.

(** ** Printing *)

(** A computation that prints: the lines written to the standard output,
    one per [print] call, and how the computation ended. *)
Inductive Run (A : Type) :=
| run (out : list string) (res : result A).
Arguments run {A} out res.

Definition output {A} (r : Run A) : list string :=
  match r with run out _ => out end.

Definition outcome {A} (r : Run A) : result A :=
  match r with run _ res => res end.

#[global] Instance Run_ret : MRet Run := λ A a, run [] (Ok a).
#[global] Instance Run_bind : MBind Run := λ A B k r,
  match r with
  | run out (Ok a) =>
    match k a with
    | run out' res => run (out ++ out') res
    end
  | run out (Raise e) => run out (Raise e)
  end.

Definition print (s : string) : Run unit := run [s] (Ok tt).

(** A step that does not print. *)
Definition quiet {A} (r : result A) : Run A := run [] r.

(** A [for] loop whose body prints. *)
Fixpoint for_print {A} (body : A → Run unit) (l : list A) : Run unit :=
  match l with
  | [] => mret tt
  | x :: l' => _ ← body x; for_print body l'
  end.

(** ** Extension delta reporter *)

(** What the report sections read. *)
Record Env := mkEnv {
  env_type_aliases : gmap string string;
  env_struct_types : gmap string StructType;
  env_active_types : gset string;
  env_extending_types : gset string;
  env_active_enums : gset string;
  env_cherry_picked : gset string
}.

(** The five lists filled for one extension. *)
Record Additions := mkAdditions {
  new_structs : list string;
  new_enums : list string;
  extended_enums : list (string * string);
  feature_structs : list string;
  property_structs : list string
}.

Definition no_additions : Additions := mkAdditions [] [] [] [] [].

(** Lines 191-198 *)
Definition classify_type (env : Env) (acc : Additions) (type_name : string)
  : Additions :=
  if decide (type_name ∈ env_active_types env
             ∨ type_name ∈ env_extending_types env) then
    if decide (type_name ∉ env_cherry_picked env) then
      mkAdditions (new_structs acc ++ [type_name]) (new_enums acc)
        (extended_enums acc) (feature_structs acc) (property_structs acc)
    else acc
  else if decide (type_name ∈ env_active_enums env) then
    if decide (type_name ∉ env_cherry_picked env) then
      mkAdditions (new_structs acc) (new_enums acc ++ [type_name])
        (extended_enums acc) (feature_structs acc) (property_structs acc)
    else acc
  else acc.

(** Lines 200-205 *)
Definition flag_type (env : Env) (acc : Additions) (type_name : string)
  : Additions :=
  match env_struct_types env !! type_name with
  | None => acc
  | Some st =>
    let acc :=
      if decide ("VkPhysicalDeviceFeatures2" ∈ extends st) then
        mkAdditions (new_structs acc) (new_enums acc) (extended_enums acc)
          (feature_structs acc ++ [type_name]) (property_structs acc)
      else acc in
    if decide ("VkPhysicalDeviceProperties2" ∈ extends st) then
      mkAdditions (new_structs acc) (new_enums acc) (extended_enums acc)
        (feature_structs acc) (property_structs acc ++ [type_name])
    else acc
  end.

(** Lines 190-205: one [<type>] reference. *)
Definition scan_type (env : Env) (acc : Additions) (raw_name : string)
  : Additions :=
  let type_name := resolve (env_type_aliases env) raw_name in
  flag_type env (classify_type env acc type_name) type_name.

(** Lines 207-212: one [<enum>] reference. *)
Definition scan_enum (env : Env) (acc : Additions) (e : EnumRef) : Additions :=
  let enum_name := enumref_name e in
  if decide (enum_name ∉ env_cherry_picked env) then
    let enum_name := resolve (env_type_aliases env) enum_name in
    match enumref_extends e with
    | Some target =>
      if decide (target ∈ env_active_enums env) then
        mkAdditions (new_structs acc) (new_enums acc)
          (extended_enums acc ++ [(target, enum_name)])
          (feature_structs acc) (property_structs acc)
      else acc
    | None => acc
    end
  else acc.

(** Lines 189-212: one requirement block. *)
Definition scan_require (env : Env) (acc : Additions) (reqs : RequireElem)
  : Additions :=
  fold_left (scan_enum env) (require_enums reqs)
    (fold_left (scan_type env) (require_types reqs) acc).

(** Lines 183-212: the requirement blocks of one extension. *)
Definition scan_extension (env : Env) (ext : ExtensionElem) : Additions :=
  fold_left (scan_require env) (extension_requires ext) no_additions.

(** Line 217 *)
Definition print_new_struct (env : Env) (new_struct : string) : Run unit :=
  st ← quiet (attrib (env_struct_types env !! new_struct));
  print (tab +:+ new_struct +:+ " extends " +:+ join ", " (elements (extends st))).

(** Lines 214-224 *)
Definition print_additions (env : Env) (ext_name : string) (a : Additions)
  : Run unit :=
  if decide (0 < length (new_structs a) + length (new_enums a)
                 + length (extended_enums a)) then
    _ ← print ("=== " +:+ ext_name +:+ " ===");
    _ ← for_print (print_new_struct env) (new_structs a);
    _ ← for_print (λ new_enum, print (tab +:+ new_enum)) (new_enums a);
    _ ← for_print
          (λ extended_enum : string * string,
             print (tab +:+ extended_enum.1 +:+ " adds " +:+ extended_enum.2))
          (extended_enums a);
    _ ← print ("   Feature: " +:+ join ", " (feature_structs a));
    _ ← print ("  Property: " +:+ join ", " (property_structs a));
    print ""
  else mret tt.

(** Lines 179-224: the section of one extension in the Additions report. *)
Definition additions_section (env : Env) (lg : Ledger) (ext : ExtensionElem)
  : Run unit :=
  if decide ("vulkan" ∈ extension_supported ext) then
    let ext_name := extension_name ext in
    if decide (ext_name ∈ completed_extensions lg
               ∨ ext_name ∈ ignored_extensions lg) then mret tt
    else print_additions env ext_name (scan_extension env ext)
  else mret tt.

(** Lines 170-175: the status line of one extension. *)
Definition completed_line (lg : Ledger) (ext : ExtensionElem) : Run unit :=
  if decide ("vulkan" ∈ extension_supported ext) then
    let ext_name := extension_name ext in
    if decide (ext_name ∈ completed_extensions lg) then
      print (ext_name +:+ " || Completed")
    else if decide (ext_name ∈ ignored_extensions lg) then
      print (ext_name +:+ " || Ignored")
    else mret tt
  else mret tt.

(** ** SPIR-V reporter *)

(** Lines 230-236: one [<enable>] element of a SPIR-V extension; the state
    is [(core_version, vkext)].  [raise('...')] of a string is itself a
    [TypeError]. *)
Definition spirv_enable (st : option string * option string) (en : EnableElem)
  : result (option string * option string) :=
  let core_version :=
    match enable_version en with
    | Some v => Some v
    | None => st.1
    end in
  match enable_extension en with
  | Some x =>
    match st.2 with
    | Some _ => Raise TypeError
    | None => Ok (core_version, Some x)
    end
  | None => Ok (core_version, st.2)
  end.

(** ['VK_API' + core_version[2:] if core_version else 0], formatted. *)
Definition version_token (core_version : option string) : string :=
  match core_version with
  | None | Some EmptyString => "0"
  | Some v => "VK_API" +:+ string_from 2 v
  end.

(** Lines 228-237: the row of one SPIR-V extension. *)
Definition spirv_extension_row (ext : SpirvElem) : Run unit :=
  st ← quiet (for_each spirv_enable (None, None) (spirv_enables ext));
  print ("{ " +:+ dquote +:+ spirv_name ext +:+ dquote +:+ ", "
         +:+ dquote +:+ default "None" st.2 +:+ dquote +:+ ", "
         +:+ version_token st.1 +:+ " },").

(** Lines 241-242 *)
Definition completed_capability_line (lg : Ledger) (ext : SpirvElem)
  : Run unit :=
  if decide (spirv_name ext ∈ completed_spirv_capabilities lg) then
    print (spirv_name ext +:+ " || Complete")
  else mret tt.

Definition print_requires (en : EnableElem) : Run unit :=
  match enable_requires en with
  | Some l => print (tab +:+ "          from: " +:+ repr_list l)
  | None => mret tt
  end.

(** Lines 251-263: one [<enable>] element of a missing capability. *)
Definition missing_capability_enable (en : EnableElem) : Run unit :=
  _ ← match enable_version en with
      | Some v => print (tab +:+ "Core version: " +:+ v)
      | None => mret tt
      end;
  _ ← match enable_feature en with
      | Some f =>
        s ← quiet (attrib (enable_struct en));
        _ ← print (tab +:+ "Vulkan feature: " +:+ s +:+ "::" +:+ f);
        print_requires en
      | None => mret tt
      end;
  _ ← match enable_property en with
      | Some p =>
        m ← quiet (attrib (enable_member en));
        v ← quiet (attrib (enable_value en));
        _ ← print (tab +:+ "Vulkan property: " +:+ p +:+ "::" +:+ m
                   +:+ " sets " +:+ v);
        print_requires en
      | None => mret tt
      end;
  match enable_extension en with
  | Some x => print (tab +:+ "Vulkan extension: " +:+ x)
  | None => mret tt
  end.

(** Lines 245-263 *)
Definition missing_capability (lg : Ledger) (ext : SpirvElem) : Run unit :=
  if decide (spirv_name ext ∈ completed_spirv_capabilities lg) then mret tt
  else
    _ ← print (spirv_name ext);
    for_print missing_capability_enable (spirv_enables ext).

(** ** The report *)

Definition header (title : string) : string :=
  nl +:+ nl +:+ "=== " +:+ title +:+ " ===".

(** Lines 95-159 of [main]: everything up to and including the Active
    Enums section; it returns what the later sections read. *)
Definition report_closure (limit : nat) (root : Registry) (lg : Ledger)
  : Run Env :=
  type_aliases ← quiet (collect_aliases (types root));
  md ← quiet (build_model type_aliases (types root));
  active_types ← quiet (traverse_active_struct_types limit
                          (elements top_level_types) (struct_types md));
  extending_types ← quiet (find_extending_structs limit active_types
                             (struct_types md));
  _ ← print (header "pNext LUT");
  _ ← print (shallow_copy_pnext_size_lut md);
  _ ← print (header "Base Types");
  _ ← for_print print (elements active_types);
  _ ← print (header "Extending Types");
  _ ← for_print print (elements extending_types);
  _ ← print (header "Active Enums");
  active_enums ← quiet (find_active_enum_types active_types extending_types
                          (struct_types md) (enum_types md)
                          (bitmask_requirements md));
  _ ← for_print print (elements active_enums);
  mret (mkEnv type_aliases (struct_types md) active_types extending_types
          active_enums (cherry_picked lg)).

(** Lines 168-224: the two extension sections. *)
Definition report_extensions (env : Env) (root : Registry) (lg : Ledger)
  : Run unit :=
  _ ← print (header "Completed extensions");
  _ ← for_print (completed_line lg) (extensions root);
  _ ← print (header "Additions");
  for_print (additions_section env lg) (extensions root).

(** Lines 226-237 *)
Definition report_spirv_extensions (root : Registry) : Run unit :=
  _ ← print (header "SPIR-V extensions table");
  for_print spirv_extension_row (spirvextensions root).

(** Lines 239-263 *)
Definition report_spirv_capabilities (root : Registry) (lg : Ledger)
  : Run unit :=
  _ ← print (header "Completed SPIR-V capabilities");
  _ ← for_print (completed_capability_line lg) (spirvcapabilities root);
  _ ← print (header "Missing SPIR-V capabilities");
  for_print (missing_capability lg) (spirvcapabilities root).

(** [main()], from the loaded registry [root] and the loaded completed-work
    document on. *)
Definition main (limit : nat) (root : Registry) (completed : Ledger)
  : Run unit :=
  env ← report_closure limit root completed;
  _ ← report_extensions env root completed;
  _ ← report_spirv_extensions root;
  report_spirv_capabilities root completed.

(** ** Specification vocabulary *)

(** [m] is a member type of the known structure [s]. *)
Definition member_of (mapping : gmap string StructType) (s m : string) : Prop :=
  ∃ st, mapping !! s = Some st ∧ m ∈ member_types st.

(** [X] is closed under: if [s ∈ X] and a member type [m] of [s] is itself
    a known structure, then [m ∈ X]. *)
Definition member_closed (mapping : gmap string StructType) (X : gset string)
  : Prop :=
  ∀ s m, s ∈ X → member_of mapping s m → m ∈ dom mapping → m ∈ X.

(** [A] is the smallest member-closed set that contains [R]. *)
Definition least_member_closed (mapping : gmap string StructType)
    (R A : gset string) : Prop :=
  R ⊆ A ∧ member_closed mapping A
  ∧ ∀ X, R ⊆ X → member_closed mapping X → A ⊆ X.

(** What a run of visits from the visited set [active] over the names [ts]
    leaves in the visited set. *)
Definition visits (mapping : gmap string StructType) (active : gset string)
    (ts : list string) (active' : gset string) : Prop :=
  active ⊆ active'
  ∧ (∀ t, t ∈ ts → t ∈ dom mapping → t ∈ active')
  ∧ active' ⊆ active ∪ dom mapping
  ∧ (∀ s m, s ∈ active' → s ∉ active → member_of mapping s m →
            m ∈ dom mapping → m ∈ active')
  ∧ (∀ X, active ⊆ X → (∀ t, t ∈ ts → t ∈ dom mapping → t ∈ X) →
          member_closed mapping X → active' ⊆ X).

(** [x] may be chained onto [y]: [y] is a chain target of the known
    structure [x]. *)
Definition extends_edge (mappings : gmap string StructType) (x y : string)
  : Prop :=
  ∃ st, mappings !! x = Some st ∧ y ∈ extends st.

(** No structure reaches itself along chain targets. *)
Definition extends_acyclic (mappings : gmap string StructType) : Prop :=
  ∀ x, ¬ tc (extends_edge mappings) x x.

(** [x] qualifies as an extending structure: one of its chain targets is
    active, or one of them qualifies in turn. *)
Inductive qualifies (mappings : gmap string StructType)
    (active_types : gset string) : string → Prop :=
| qualifies_direct x e :
    extends_edge mappings x e → e ∈ active_types →
    qualifies mappings active_types x
| qualifies_chain x e :
    extends_edge mappings x e → qualifies mappings active_types e →
    qualifies mappings active_types x.

(** The type references of an extension, alias-resolved, in encounter
    order; and its enum-value references. *)
Definition type_refs (env : Env) (ext : ExtensionElem) : list string :=
  resolve (env_type_aliases env)
    <$> concat (require_types <$> extension_requires ext).

Definition enum_refs (ext : ExtensionElem) : list EnumRef :=
  concat (require_enums <$> extension_requires ext).

(** [n] is a known structure whose chain targets include [aggregator]. *)
Definition chains_onto (env : Env) (aggregator n : string) : Prop :=
  ∃ st, env_struct_types env !! n = Some st ∧ aggregator ∈ extends st.

#[global] Instance chains_onto_dec env aggregator n :
  Decision (chains_onto env aggregator n).
Proof.
  unfold chains_onto. destruct (env_struct_types env !! n) as [st|].
  - destruct (decide (aggregator ∈ extends st)) as [Hin|Hnin].
    + left. by exists st.
    + right. intros (st' & [= <-] & Hin). done.
  - right. intros (st' & [=] & _).
Defined.

(** The two classes of a type reference and the pair recorded for an
    enum-value reference, read off the report's tests. *)
Definition is_new_struct (env : Env) (n : string) : Prop :=
  (n ∈ env_active_types env ∨ n ∈ env_extending_types env)
  ∧ n ∉ env_cherry_picked env.

Definition is_new_enum (env : Env) (n : string) : Prop :=
  ¬ (n ∈ env_active_types env ∨ n ∈ env_extending_types env)
  ∧ n ∈ env_active_enums env ∧ n ∉ env_cherry_picked env.

Definition enum_extension (env : Env) (e : EnumRef) : option (string * string) :=
  if decide (enumref_name e ∈ env_cherry_picked env) then None
  else
    target ← enumref_extends e;
    if decide (target ∈ env_active_enums env)
    then Some (target, resolve (env_type_aliases env) (enumref_name e))
    else None.

Definition additions_app (a b : Additions) : Additions :=
  mkAdditions (new_structs a ++ new_structs b) (new_enums a ++ new_enums b)
    (extended_enums a ++ extended_enums b)
    (feature_structs a ++ feature_structs b)
    (property_structs a ++ property_structs b).

(** A scanning step only appends to the lists. *)
Definition appends {A} (step : Additions → A → Additions) : Prop :=
  ∀ acc x, step acc x = additions_app acc (step no_additions x).

(** The number of Vulkan-extension conditions of a SPIR-V extension. *)
Definition extension_conditions (ext : SpirvElem) : nat :=
  length (filter (λ en, is_Some (enable_extension en)) (spirv_enables ext)).

(** ** Sample registries *)

Definition member (ty : string) : MemberElem := mkMemberElem None (Some ty).

Definition stype_member (v : string) : MemberElem :=
  mkMemberElem (Some v) (Some "VkStructureType").

Definition struct_elem (name : string) (structextends : option (list string))
    (ms : list MemberElem) : TypeElem :=
  mkTypeElem (Some name) None (Some "struct") structextends None None None ms.

Definition enum_elem (name : string) : TypeElem :=
  mkTypeElem (Some name) None (Some "enum") None None None None [].

Definition alias_elem (name al : string) : TypeElem :=
  mkTypeElem (Some name) (Some al) None None None None None [].

Definition enable_extension_elem (x : string) : EnableElem :=
  mkEnableElem None (Some x) None None None None None None.

Definition enable_version_elem (v : string) : EnableElem :=
  mkEnableElem (Some v) None None None None None None None.

(** A structure table whose member relation has the cycles
    [VkNode → VkNode] and [VkSamplerCreateInfo → VkNode → VkSamplerCreateInfo],
    and whose chain relation is acyclic. *)
Definition sample_table : gmap string StructType :=
  list_to_map [
    ("VkSamplerCreateInfo", mkStructType ∅ ["VkStructureType"; "VkNode"]);
    ("VkNode", mkStructType ∅ ["VkNode"; "VkLeaf"; "VkSamplerCreateInfo"]);
    ("VkLeaf", mkStructType ∅ ["uint32_t"]);
    ("VkChained", mkStructType {["VkSamplerCreateInfo"]} ["VkInner"]);
    ("VkInner", mkStructType ∅ ["VkFlags"]);
    ("VkChained2", mkStructType {["VkChained"]} ["VkLeaf"]);
    ("VkOther", mkStructType {["VkDeviceCreateInfo"]} [])].

Definition sample_rank (x : string) : nat :=
  if decide (x = "VkChained2") then 2
  else if decide (x = "VkChained") then 1
  else if decide (x = "VkOther") then 1
  else 0.

(** Lines 114-117: the chain targets recorded for a structure
    declaration. *)
Definition declared_extends (type_aliases : gmap string string) (t : TypeElem)
  : gset string :=
  match type_structextends t with
  | Some raw => list_to_set (resolve type_aliases <$> raw)
  | None => ∅
  end.

(** A row of the size table. *)
Definition size_row (stype name : string) : string :=
  "{ " +:+ stype +:+ ", sizeof(" +:+ name +:+ ") }," +:+ nl.

(** An extension structure chained onto two pipeline roots at once. *)
Definition two_roots_elem : TypeElem :=
  struct_elem "VkPipelineExtEXT"
    (Some ["VkGraphicsPipelineCreateInfo"; "VkOldComputeInfo"; "VkSamplerCreateInfo"])
    [stype_member "VK_STRUCTURE_TYPE_PIPELINE_EXT"; member "uint32_t"].

Definition sample_aliases : gmap string string :=
  {["VkOldComputeInfo" := "VkComputePipelineCreateInfo"]}.

(** An environment in which [VkFeatureEXT] chains onto the device-feature
    aggregator and is neither active, extending nor an active enum, and an
    extension that references nothing else. *)
Definition feature_env : Env :=
  mkEnv ∅
    (list_to_map [
       ("VkSamplerCreateInfo", mkStructType ∅ ["VkFilter"]);
       ("VkFeatureEXT",
        mkStructType {["VkPhysicalDeviceFeatures2"; "VkDeviceCreateInfo"]} [])])
    {["VkSamplerCreateInfo"]} ∅ {["VkFilter"]} ∅.

Definition feature_extension : ExtensionElem :=
  mkExtensionElem "VK_EXT_feature" ["vulkan"]
    [mkRequireElem ["VkFeatureEXT"; "VkUnknownEXT"]
       [mkEnumRef "VK_FEATURE_VALUE_EXT" (Some "VkStructureType");
        mkEnumRef "VK_FEATURE_SPEC_VERSION" None]].

Definition empty_ledger : Ledger := mkLedger ∅ ∅ ∅ ∅.

(** A registry in which the name of an enum-value reference has an alias,
    and a ledger that cherry-picks the alias-resolved name. *)
Definition cherry_registry : Registry :=
  mkRegistry
    [alias_elem "VK_FILTER_CUBIC_IMG" "VK_FILTER_CUBIC_EXT";
     struct_elem "VkSamplerCreateInfo" None
       [stype_member "VK_STRUCTURE_TYPE_SAMPLER_CREATE_INFO"; member "VkFilter"];
     enum_elem "VkFilter"]
    [mkExtensionElem "VK_IMG_filter_cubic" ["vulkan"]
       [mkRequireElem [] [mkEnumRef "VK_FILTER_CUBIC_IMG" (Some "VkFilter")]]]
    [] [].

Definition cherry_ledger : Ledger :=
  mkLedger ∅ ∅ {["VK_FILTER_CUBIC_EXT"]} ∅.

(** A registry whose second SPIR-V extension declares two enabling
    Vulkan-extension conditions. *)
Definition spirv_registry : Registry :=
  mkRegistry
    [struct_elem "VkSamplerCreateInfo" None
       [stype_member "VK_STRUCTURE_TYPE_SAMPLER_CREATE_INFO"]]
    []
    [mkSpirvElem "SPV_KHR_multiview"
       [enable_version_elem "VK_VERSION_1_1";
        enable_extension_elem "VK_KHR_multiview"];
     mkSpirvElem "SPV_EXT_twice"
       [enable_extension_elem "VK_EXT_first";
        enable_extension_elem "VK_EXT_second"];
     mkSpirvElem "SPV_KHR_after" []]
    [].

(** ** Vocabulary of the further properties *)

(** [m] is a member type of the known structure [s] and a known structure
    itself: an edge the traversal follows. *)
Definition member_edge (mapping : gmap string StructType) (s m : string) : Prop :=
  member_of mapping s m ∧ m ∈ dom mapping.

(** Structure [t] activates enumeration [e]: a member type of [t] is a
    bitmask whose recorded requirement is [e], or has no recorded
    requirement and is the known enumeration [e] itself. *)
Definition activates (mappings : gmap string StructType)
    (enum_types : gmap string EnumType) (bitmask_reqs : gmap string string)
    (t e : string) : Prop :=
  ∃ st m, mappings !! t = Some st ∧ m ∈ member_types st
          ∧ (bitmask_reqs !! m = Some e
             ∨ (bitmask_reqs !! m = None ∧ m ∈ dom enum_types ∧ e = m)).

(** The alias declared for [n] by the element [t], if any. *)
Definition alias_for (n : string) (t : TypeElem) : option string :=
  if decide (type_name t = Some n) then type_alias t else None.

(** The three enumerations that are never entered in the enum table. *)
Definition excluded_enum (e : string) : Prop :=
  e = "VkStructureType" ∨ e = "VkFormat" ∨ e = "VkObjectType".

(** Declarations, as [build_type] reads them. *)
Definition struct_decl (t : TypeElem) (n : string) : Prop :=
  type_category t = Some "struct" ∧ type_name t = Some n.

Definition enum_decl (type_aliases : gmap string string) (t : TypeElem)
    (e : string) : Prop :=
  type_category t = Some "enum"
  ∧ ∃ n, type_name t = Some n ∧ e = resolve type_aliases n.

Definition bitmask_decl (t : TypeElem) (b req : string) : Prop :=
  type_category t = Some "bitmask" ∧ type_child_name t = Some b
  ∧ (type_requires t = Some req
     ∨ (type_requires t = None ∧ type_bitvalues t = Some req)).

(** What a declaration adds to the size table: one row for a structure
    that names a pipeline root. *)
Definition size_table_rows (type_aliases : gmap string string) (t : TypeElem)
  : string :=
  if decide (type_category t = Some "struct") then
    match type_name t, head (type_members t) with
    | Some name, Some first =>
      if decide (declared_extends type_aliases t ∩ top_level_types_pipeline ≠ ∅)
      then match member_values first with
           | Some stype => size_row stype name
           | None => ""
           end
      else ""
    | _, _ => ""
    end
  else "".

(** An enable-condition carries the attributes that the capability report
    reads for it: [struct] with [feature]; [member] and [value] with
    [property]. *)
Definition enable_well_formed (en : EnableElem) : Prop :=
  (is_Some (enable_feature en) → is_Some (enable_struct en))
  ∧ (is_Some (enable_property en) →
     is_Some (enable_member en) ∧ is_Some (enable_value en)).

(** The row printed for a SPIR-V extension. *)
Definition spirv_row (name : string) (vkext core_version : option string)
  : string :=
  "{ " +:+ dquote +:+ name +:+ dquote +:+ ", "
  +:+ dquote +:+ default "None" vkext +:+ dquote +:+ ", "
  +:+ version_token core_version +:+ " },".

(** An environment and an extension whose section is printed: the
    reference [VkFeatureKHR] resolves to a cherry-picked extending
    structure that chains onto the device-feature aggregator,
    [VkPropsEXT] is in none of the sets and chains onto the
    device-property aggregator, and [VkFilter] is an active enum. *)
Definition flagged_env : Env :=
  mkEnv {["VkFeatureKHR" := "VkFeatureEXT"]}
    (list_to_map [
       ("VkSamplerCreateInfo", mkStructType ∅ ["VkFilter"]);
       ("VkFeatureEXT",
        mkStructType {["VkPhysicalDeviceFeatures2"; "VkDeviceCreateInfo"]} []);
       ("VkPropsEXT", mkStructType {["VkPhysicalDeviceProperties2"]} [])])
    {["VkSamplerCreateInfo"]} {["VkFeatureEXT"]} {["VkFilter"]}
    {["VkFeatureEXT"]}.

Definition flagged_extension : ExtensionElem :=
  mkExtensionElem "VK_EXT_flagged" ["vulkan"]
    [mkRequireElem ["VkFeatureKHR"; "VkPropsEXT"; "VkFilter"] []].

(** ** Elements with optional [name] and [supported] attributes

    The report reads [attrib['name']] and [attrib['supported']] where it
    needs them and dies of [KeyError] when one is missing.  The records
    above take these attributes as given; the records below make them
    optional, and the functions below read them where the source does. *)

Record RawEnumRef := mkRawEnumRef {
  raw_enumref_name : option string;         (* attrib['name'] *)
  raw_enumref_extends : option string       (* attrib['extends'] *)
}.

Record RawRequireElem := mkRawRequireElem {
  raw_require_types : list (option string); (* attrib['name'] of each <type> *)
  raw_require_enums : list RawEnumRef
}.

Record RawExtensionElem := mkRawExtensionElem {
  raw_extension_name : option string;               (* attrib['name'] *)
  raw_extension_supported : option (list string);   (* attrib['supported'].split(',') *)
  raw_extension_requires : list RawRequireElem
}.

Record RawSpirvElem := mkRawSpirvElem {
  raw_spirv_name : option string;           (* attrib['name'] *)
  raw_spirv_enables : list EnableElem
}.

Record RawRegistry := mkRawRegistry {
  raw_types : list TypeElem;
  raw_extensions : list RawExtensionElem;
  raw_spirvextensions : list RawSpirvElem;
  raw_spirvcapabilities : list RawSpirvElem
}.

(** Lines 190-205, from [t.attrib['name']] on. *)
Definition scan_type_raw (env : Env) (acc : Additions) (t : option string)
  : result Additions :=
  raw_name ← attrib t;
  Ok (scan_type env acc raw_name).

(** Lines 207-212, from [e.attrib['name']] on. *)
Definition scan_enum_raw (env : Env) (acc : Additions) (e : RawEnumRef)
  : result Additions :=
  enum_name ← attrib (raw_enumref_name e);
  Ok (scan_enum env acc (mkEnumRef enum_name (raw_enumref_extends e))).

(** Lines 189-212 *)
Definition scan_require_raw (env : Env) (acc : Additions)
    (reqs : RawRequireElem) : result Additions :=
  acc ← for_each (scan_type_raw env) acc (raw_require_types reqs);
  for_each (scan_enum_raw env) acc (raw_require_enums reqs).

(** Lines 183-212 *)
Definition scan_extension_raw (env : Env) (ext : RawExtensionElem)
  : result Additions :=
  for_each (scan_require_raw env) no_additions (raw_extension_requires ext).

(** Lines 170-175 *)
Definition completed_line_raw (lg : Ledger) (ext : RawExtensionElem)
  : Run unit :=
  supported ← quiet (attrib (raw_extension_supported ext));
  if decide ("vulkan" ∈ supported) then
    ext_name ← quiet (attrib (raw_extension_name ext));
    if decide (ext_name ∈ completed_extensions lg) then
      print (ext_name +:+ " || Completed")
    else if decide (ext_name ∈ ignored_extensions lg) then
      print (ext_name +:+ " || Ignored")
    else mret tt
  else mret tt.

(** Lines 179-224 *)
Definition additions_section_raw (env : Env) (lg : Ledger)
    (ext : RawExtensionElem) : Run unit :=
  supported ← quiet (attrib (raw_extension_supported ext));
  if decide ("vulkan" ∈ supported) then
    ext_name ← quiet (attrib (raw_extension_name ext));
    if decide (ext_name ∈ completed_extensions lg
               ∨ ext_name ∈ ignored_extensions lg) then mret tt
    else
      a ← quiet (scan_extension_raw env ext);
      print_additions env ext_name a
  else mret tt.

(** Lines 228-237: the name is read when the row is formatted, after the
    loop over the enable-conditions. *)
Definition spirv_extension_row_raw (ext : RawSpirvElem) : Run unit :=
  st ← quiet (for_each spirv_enable (None, None) (raw_spirv_enables ext));
  name ← quiet (attrib (raw_spirv_name ext));
  print ("{ " +:+ dquote +:+ name +:+ dquote +:+ ", "
         +:+ dquote +:+ default "None" st.2 +:+ dquote +:+ ", "
         +:+ version_token st.1 +:+ " },").

(** Lines 241-242 *)
Definition completed_capability_line_raw (lg : Ledger) (ext : RawSpirvElem)
  : Run unit :=
  name ← quiet (attrib (raw_spirv_name ext));
  if decide (name ∈ completed_spirv_capabilities lg) then
    print (name +:+ " || Complete")
  else mret tt.

(** Lines 245-263 *)
Definition missing_capability_raw (lg : Ledger) (ext : RawSpirvElem)
  : Run unit :=
  name ← quiet (attrib (raw_spirv_name ext));
  if decide (name ∈ completed_spirv_capabilities lg) then mret tt
  else
    _ ← print name;
    for_print missing_capability_enable (raw_spirv_enables ext).

(** Lines 168-224 *)
Definition report_extensions_raw (env : Env) (root : RawRegistry) (lg : Ledger)
  : Run unit :=
  _ ← print (header "Completed extensions");
  _ ← for_print (completed_line_raw lg) (raw_extensions root);
  _ ← print (header "Additions");
  for_print (additions_section_raw env lg) (raw_extensions root).

(** Lines 226-237 *)
Definition report_spirv_extensions_raw (root : RawRegistry) : Run unit :=
  _ ← print (header "SPIR-V extensions table");
  for_print spirv_extension_row_raw (raw_spirvextensions root).

(** Lines 239-263 *)
Definition report_spirv_capabilities_raw (root : RawRegistry) (lg : Ledger)
  : Run unit :=
  _ ← print (header "Completed SPIR-V capabilities");
  _ ← for_print (completed_capability_line_raw lg) (raw_spirvcapabilities root);
  _ ← print (header "Missing SPIR-V capabilities");
  for_print (missing_capability_raw lg) (raw_spirvcapabilities root).

(** [main()] over these elements; lines 95-159 read the type declarations
    only. *)
Definition main_raw (limit : nat) (root : RawRegistry) (completed : Ledger)
  : Run unit :=
  env ← report_closure limit (mkRegistry (raw_types root) [] [] []) completed;
  _ ← report_extensions_raw env root completed;
  _ ← report_spirv_extensions_raw root;
  report_spirv_capabilities_raw root completed.

(** A registry all of whose [name] and [supported] attributes are
    present. *)
Definition with_names_enum (e : EnumRef) : RawEnumRef :=
  mkRawEnumRef (Some (enumref_name e)) (enumref_extends e).

Definition with_names_require (reqs : RequireElem) : RawRequireElem :=
  mkRawRequireElem (Some <$> require_types reqs)
    (with_names_enum <$> require_enums reqs).

Definition with_names_extension (ext : ExtensionElem) : RawExtensionElem :=
  mkRawExtensionElem (Some (extension_name ext))
    (Some (extension_supported ext))
    (with_names_require <$> extension_requires ext).

Definition with_names_spirv (ext : SpirvElem) : RawSpirvElem :=
  mkRawSpirvElem (Some (spirv_name ext)) (spirv_enables ext).

Definition with_names (root : Registry) : RawRegistry :=
  mkRawRegistry (types root)
    (with_names_extension <$> extensions root)
    (with_names_spirv <$> spirvextensions root)
    (with_names_spirv <$> spirvcapabilities root).

(** A registry that exercises every section of the report. *)
Definition full_registry : Registry :=
  mkRegistry
    [alias_elem "VkSamplerYcbcrConversionInfoKHR" "VkSamplerYcbcrConversionInfo";
     struct_elem "VkSamplerCreateInfo" None
       [stype_member "VK_STRUCTURE_TYPE_SAMPLER_CREATE_INFO"; member "VkFilter"];
     struct_elem "VkSamplerYcbcrConversionInfo" (Some ["VkSamplerCreateInfo"])
       [stype_member "VK_STRUCTURE_TYPE_SAMPLER_YCBCR_CONVERSION_INFO"];
     struct_elem "VkSamplerBorderColorEXT"
       (Some ["VkSamplerYcbcrConversionInfoKHR"; "VkDeviceCreateInfo"])
       [stype_member "VK_STRUCTURE_TYPE_SAMPLER_BORDER_COLOR_EXT"];
     enum_elem "VkFilter"]
    [mkExtensionElem "VK_KHR_sampler_ycbcr_conversion" ["vulkan"; "vulkansc"]
       [mkRequireElem ["VkSamplerYcbcrConversionInfoKHR"]
          [mkEnumRef "VK_FILTER_CUBIC_EXT" (Some "VkFilter")]];
     mkExtensionElem "VK_EXT_done" ["vulkan"] [mkRequireElem ["VkFilter"] []]]
    [mkSpirvElem "SPV_KHR_multiview"
       [enable_version_elem "VK_VERSION_1_1";
        enable_extension_elem "VK_KHR_multiview"];
     mkSpirvElem "SPV_KHR_plain" []]
    [mkSpirvElem "Int8"
       [mkEnableElem None None (Some "shaderInt8") None None None None None];
     mkSpirvElem "Int16"
       [enable_version_elem "VK_VERSION_1_2";
        mkEnableElem None None (Some "shaderInt16")
          (Some "VkPhysicalDeviceFeatures") (Some ["VK_VERSION_1_1"])
          None None None]].

Definition full_ledger : Ledger :=
  mkLedger {["VK_EXT_done"]} ∅ ∅ {["Int8"]}.

(** * Properties *)

(** Closes [x = v] for a value [v] by evaluating [x]. *)
Ltac evaluates :=
  lazymatch goal with
  | |- ?x = ?v => vm_cast_no_check (@eq_refl _ v)
  end.

(** ** Loops *)

Lemma for_each_app {A S} (body : S → A → result S) s l1 l2 :
  for_each body s (l1 ++ l2) = (s' ← for_each body s l1; for_each body s' l2).
Proof.
  revert s. induction l1 as [|x l1 IH]; intros s; simpl; [done|].
  destruct (body s x) as [s'|e]; simpl; [apply IH | done].
Qed.

Lemma add_all_union s xs : add_all s xs = s ∪ list_to_set xs.
Proof.
  unfold add_all. revert s.
  induction xs as [|x xs IH]; intros s; simpl; [set_solver|].
  rewrite IH. set_solver.
Qed.

(** ** Closure engine *)

Section closure.
Variable mapping : gmap string StructType.

Lemma visits_nil active : visits mapping active [] active.
Proof. unfold visits. set_solver. Qed.

Lemma visits_cons active t ts a1 a2 :
  visits mapping active [t] a1 → visits mapping a1 ts a2 →
  visits mapping active (t :: ts) a2.
Proof.
  intros (Hs1 & Ht1 & Hd1 & Hn1 & Hm1) (Hs2 & Ht2 & Hd2 & Hn2 & Hm2).
  split_and!.
  - set_solver.
  - intros x [->|Hx]%elem_of_cons Hdom; [|by auto].
    apply Hs2, Ht1; [set_solver|done].
  - set_solver.
  - intros s m Hs Hna Hmem Hdom.
    destruct (decide (s ∈ a1)) as [Hin|Hnin].
    + apply Hs2. by eapply Hn1.
    + by eapply Hn2.
  - intros X HaX HtX Hcl. apply Hm2; [|set_solver|done].
    apply Hm1; [done| |done]. intros x ->%list_elem_of_singleton. set_solver.
Qed.

Lemma visits_unknown active t :
  mapping !! t = None → visits mapping active [t] active.
Proof.
  intros Hnone%not_elem_of_dom. unfold visits. set_solver.
Qed.

Lemma visits_seen active t :
  t ∈ active → visits mapping active [t] active.
Proof. unfold visits. set_solver. Qed.

Lemma visits_node active t st active' :
  mapping !! t = Some st → t ∉ active →
  visits mapping (active ∪ {[t]}) (member_types st) active' →
  visits mapping active [t] active'.
Proof.
  intros Hst Hnew (Hs & Ht & Hd & Hn & Hm).
  assert (t ∈ dom mapping) as Hdom by (apply elem_of_dom; eauto).
  split_and!.
  - set_solver.
  - set_solver.
  - set_solver.
  - intros s m Hin Hna Hmem Hmdom.
    destruct (decide (s = t)) as [->|Hne].
    + destruct Hmem as (st' & Hst' & Hm'). simplify_eq. by apply Ht.
    + eapply Hn; eauto. set_solver.
  - intros X HaX HtX Hcl.
    assert (t ∈ X) as HtinX by (apply HtX; [set_solver|done]).
    apply Hm; [set_solver| |done].
    intros m Hm' Hmdom. apply (Hcl t m); [done| |done].
    exists st. done.
Qed.

(** Every returning call of [traverse_active_struct_type] is a visit. *)
Lemma traverse_active_struct_type_visits limit :
  ∀ active t active',
    traverse_active_struct_type limit active t mapping = Ok active' →
    visits mapping active [t] active'.
Proof.
  induction limit as [|limit IH]; intros active t active'; simpl; [done|].
  destruct (mapping !! t) as [st|] eqn:Hst.
  - destruct (decide (t ∈ active)) as [Hin|Hnin].
    + intros [= <-]. by apply visits_seen.
    + intros Hloop. eapply visits_node; [done..|].
      revert Hloop. generalize (active ∪ {[t]}) as a.
      induction (member_types st) as [|m ms IHms]; intros a; simpl.
      * intros [= <-]. apply visits_nil.
      * destruct (traverse_active_struct_type limit a m mapping)
          as [a1|e] eqn:Hcall; simpl; [|done].
        intros Hrest. eapply visits_cons; [by apply IH | by apply IHms].
  - intros [= <-]. by apply visits_unknown.
Qed.

Lemma traverse_active_struct_types_visits limit base_types :
  ∀ active active',
    for_each (λ a t, traverse_active_struct_type limit a t mapping)
      active base_types = Ok active' →
    visits mapping active base_types active'.
Proof.
  induction base_types as [|t ts IH]; intros active active'; simpl.
  - intros [= <-]. apply visits_nil.
  - destruct (traverse_active_struct_type limit active t mapping)
      as [a1|e] eqn:Hcall; simpl; [|done].
    intros Hrest. eapply visits_cons; [|by apply IH].
    by eapply traverse_active_struct_type_visits.
Qed.

(** The number of structures not yet visited bounds the depth of the
    recursion. *)
Lemma unvisited_shrinks (active active' : gset string) t :
  t ∈ dom mapping → t ∉ active → active ∪ {[t]} ⊆ active' →
  size (dom mapping ∖ active') < size (dom mapping ∖ active).
Proof.
  intros Hdom Hnew Hsub. apply subset_size.
  apply strict_spec_alt. split; [set_solver|].
  intros Heq. assert (t ∈ dom mapping ∖ active) as Hin by set_solver.
  rewrite <-Heq in Hin. set_solver.
Qed.

Lemma traverse_active_struct_type_returns limit :
  ∀ active t,
    size (dom mapping ∖ active) < limit →
    ∃ active', traverse_active_struct_type limit active t mapping = Ok active'.
Proof.
  induction limit as [|limit IH]; intros active t Hlt; [lia|]. simpl.
  destruct (mapping !! t) as [st|] eqn:Hst; [|by eauto].
  destruct (decide (t ∈ active)) as [Hin|Hnin]; [by eauto|].
  assert (t ∈ dom mapping) as Hdom by (apply elem_of_dom; eauto).
  assert (∀ a, active ∪ {[t]} ⊆ a → size (dom mapping ∖ a) < limit) as Hfuel.
  { intros a Ha. pose proof (unvisited_shrinks active a t Hdom Hnin Ha). lia. }
  assert (active ∪ {[t]} ⊆ active ∪ {[t]}) as Hsub by done.
  revert Hsub. generalize (active ∪ {[t]}) at 2 3 as a.
  induction (member_types st) as [|m ms IHms]; intros a Ha; simpl; [by eauto|].
  destruct (IH a m (Hfuel a Ha)) as [a1 Hcall]. rewrite Hcall. simpl.
  apply IHms. apply traverse_active_struct_type_visits in Hcall as [Hsub _].
  set_solver.
Qed.

Lemma traverse_active_struct_types_returns_from limit base_types :
  size mapping < limit →
  ∀ active, ∃ active',
    for_each (λ a t, traverse_active_struct_type limit a t mapping)
      active base_types = Ok active'.
Proof.
  intros Hlt. induction base_types as [|t ts IH]; intros active; simpl.
  - by eauto.
  - destruct (traverse_active_struct_type_returns limit active t) as [a1 ->].
    + rewrite <-size_dom in Hlt.
      assert (size (dom mapping ∖ active) ≤ size (dom mapping))%nat; [|lia].
      apply subseteq_size. set_solver.
    + simpl. apply IH.
Qed.

Lemma traverse_active_struct_types_returns limit base_types :
  size mapping < limit →
  ∃ A, traverse_active_struct_types limit base_types mapping = Ok A.
Proof. intros. by apply traverse_active_struct_types_returns_from. Qed.

(** The result is the least member-closed set over the known roots. *)
Lemma traverse_active_struct_types_least limit base_types A :
  traverse_active_struct_types limit base_types mapping = Ok A →
  least_member_closed mapping (list_to_set base_types ∩ dom mapping) A.
Proof.
  intros (Hs & Ht & Hd & Hn & Hm)%traverse_active_struct_types_visits.
  split_and!.
  - intros x [Hx Hdom]%elem_of_intersection.
    apply Ht; [|done]. by apply elem_of_list_to_set in Hx.
  - intros s m Hin Hmem Hdom. eapply Hn; eauto. set_solver.
  - intros X HR Hcl. apply Hm; [set_solver| |done].
    intros t Hin Hdom. apply HR. set_solver.
Qed.

Lemma traverse_active_struct_types_known limit base_types A :
  traverse_active_struct_types limit base_types mapping = Ok A →
  A ⊆ dom mapping.
Proof.
  intros (Hs & Ht & Hd & Hn & Hm)%traverse_active_struct_types_visits.
  set_solver.
Qed.
End closure.

(** ** Extension-chain classifier *)

Section classifier.
Variable mappings : gmap string StructType.
Variable active_types : gset string.

Lemma extends_any_loop_true recurse targets :
  extends_any_loop recurse active_types targets = Ok true →
  ∃ e, e ∈ targets ∧ (e ∈ active_types ∨ recurse e = Ok true).
Proof.
  induction targets as [|e es IH]; simpl; [done|].
  destruct (decide (e ∈ active_types)) as [Hin|Hnin].
  - intros _. exists e. split; [left|by left].
  - destruct (recurse e) as [[]|x] eqn:Hrec; simpl; [| |done].
    + intros _. exists e. split; [left|by right].
    + intros (e' & Hin & He')%IH. exists e'. split; [by right|done].
Qed.

Lemma extends_any_loop_false recurse targets :
  extends_any_loop recurse active_types targets = Ok false →
  ∀ e, e ∈ targets → (e ∉ active_types) ∧ recurse e = Ok false.
Proof.
  induction targets as [|e es IH]; simpl.
  - intros _ e' Hin. by apply elem_of_nil in Hin.
  - destruct (decide (e ∈ active_types)) as [Hin|Hnin]; [done|].
    destruct (recurse e) as [[]|x] eqn:Hrec; simpl; [done| |done].
    intros Hrest e' [->|Hin]%elem_of_cons; [done|by apply IH].
Qed.

Lemma extends_any_loop_returns recurse targets :
  (∀ e, e ∈ targets → ∃ b, recurse e = Ok b) →
  ∃ b, extends_any_loop recurse active_types targets = Ok b.
Proof.
  induction targets as [|e es IH]; simpl; intros Hrec; [by eauto|].
  destruct (decide (e ∈ active_types)); [by eauto|].
  destruct (Hrec e) as [[] ->]; [left|simpl; by eauto|simpl].
  apply IH. intros e' Hin. apply Hrec. by right.
Qed.

Lemma struct_extends_any_true limit :
  ∀ t, struct_extends_any limit active_types t mappings = Ok true →
       qualifies mappings active_types t.
Proof.
  induction limit as [|limit IH]; intros t; simpl; [done|].
  destruct (mappings !! t) as [st|] eqn:Hst; [|done].
  intros (e & Hin%elem_of_elements & [Hact|Hrec])%extends_any_loop_true.
  - eapply qualifies_direct; [|done]. by exists st.
  - eapply qualifies_chain; [|by apply IH]. by exists st.
Qed.

Lemma struct_extends_any_false limit :
  ∀ t, struct_extends_any limit active_types t mappings = Ok false →
       ¬ qualifies mappings active_types t.
Proof.
  induction limit as [|limit IH]; intros t; simpl; [done|].
  destruct (mappings !! t) as [st|] eqn:Hst.
  - intros Hloop Hq.
    pose proof (extends_any_loop_false _ _ Hloop) as Hall.
    inversion Hq as [x e (st' & Hst' & Hin) Hact|x e (st' & Hst' & Hin) Hq'];
      simplify_eq; apply elem_of_elements in Hin;
      destruct (Hall e Hin) as [Hnact Hrec]; [done|].
    by eapply IH.
  - intros _ Hq.
    inversion Hq as [x e (st' & Hst' & Hin) Hact|x e (st' & Hst' & Hin) Hq'];
      simplify_eq.
Qed.

(** Along an acyclic chain relation the structures on the call stack are
    pairwise distinct, so the recursion is no deeper than the table is
    large. *)
Lemma struct_extends_any_returns_from limit :
  extends_acyclic mappings →
  ∀ (stack : gset string) t,
    (∀ p, p ∈ stack → p ∈ dom mappings ∧ tc (extends_edge mappings) p t) →
    size (dom mappings ∖ stack) < limit →
    ∃ b, struct_extends_any limit active_types t mappings = Ok b.
Proof.
  intros Hacyc. induction limit as [|limit IH]; intros stack t Hstack Hlt;
    [lia|]. simpl.
  destruct (mappings !! t) as [st|] eqn:Hst; [|by eauto].
  assert (t ∈ dom mappings) as Hdom by (apply elem_of_dom; eauto).
  assert (t ∉ stack) as Hnew.
  { intros [_ Hcyc]%Hstack. by apply (Hacyc t). }
  apply extends_any_loop_returns. intros e Hin%elem_of_elements.
  assert (extends_edge mappings t e) as Hedge by (by exists st).
  apply (IH (stack ∪ {[t]})).
  - intros p [Hp| ->%elem_of_singleton]%elem_of_union.
    + destruct (Hstack p Hp) as [Hpdom Hpt]. split; [done|].
      eapply tc_r; eauto.
    + split; [done|]. by apply tc_once.
  - pose proof (unvisited_shrinks mappings stack (stack ∪ {[t]}) t
                  Hdom Hnew) as Hshrink.
    specialize (Hshrink ltac:(done)). lia.
Qed.

Lemma struct_extends_any_returns limit t :
  extends_acyclic mappings → size mappings < limit →
  ∃ b, struct_extends_any limit active_types t mappings = Ok b.
Proof.
  intros Hacyc Hlt. apply (struct_extends_any_returns_from limit Hacyc ∅).
  - set_solver.
  - rewrite difference_empty_L, size_dom. done.
Qed.

Lemma struct_extends_any_decides limit t :
  extends_acyclic mappings → size mappings < limit →
  ∃ b, struct_extends_any limit active_types t mappings = Ok b
       ∧ (b = true ↔ qualifies mappings active_types t).
Proof.
  intros Hacyc Hlt.
  destruct (struct_extends_any_returns limit t Hacyc Hlt) as [b Hb].
  exists b. split; [done|]. destruct b.
  - split; [|done]. intros _. by eapply struct_extends_any_true.
  - split; [done|]. intros Hq. by eapply struct_extends_any_false in Hq.
Qed.

Lemma qualifies_known t :
  qualifies mappings active_types t → t ∈ dom mappings.
Proof.
  intros Hq. apply elem_of_dom.
  destruct Hq as [x e (st & Hst & _) _|x e (st & Hst & _) _]; eauto.
Qed.

(** The loop of [find_extending_structs], from any accumulator. *)
Lemma find_extending_structs_loop limit keys :
  extends_acyclic mappings → size mappings < limit →
  ∀ acc, ∃ E,
    for_each
      (λ extending_structs m,
         b ← struct_extends_any limit active_types m mappings;
         if b : bool then
           membs ← traverse_active_struct_types limit [m] mappings;
           Ok (add_all extending_structs (elements membs))
         else Ok extending_structs)
      acc keys = Ok E
    ∧ ∀ x, x ∈ E ↔
        x ∈ acc ∨ ∃ m C, m ∈ keys ∧ qualifies mappings active_types m
                 ∧ traverse_active_struct_types limit [m] mappings = Ok C
                 ∧ x ∈ C.
Proof.
  intros Hacyc Hlt. induction keys as [|k ks IH]; intros acc; simpl.
  - exists acc. split; [done|]. intros x. split; [by left|].
    intros [Hx|(m & C & Hin & _)]; [done|]. by apply elem_of_nil in Hin.
  - destruct (struct_extends_any_decides limit k Hacyc Hlt) as (b & -> & Hb).
    simpl. destruct b.
    + destruct (traverse_active_struct_types_returns mappings limit [k] Hlt)
        as [C HC]. rewrite HC. simpl.
      destruct (IH (add_all acc (elements C))) as (E & -> & HE).
      exists E. split; [done|]. intros x. rewrite HE, add_all_union.
      rewrite elem_of_union, elem_of_list_to_set, elem_of_elements.
      split.
      * intros [[Hx|Hx]|(m & C' & Hin & Hq & HC' & Hx)]; [by left| |].
        -- right. exists k, C. split_and!; [left|by apply Hb|done|done].
        -- right. exists m, C'. split_and!; [by right|done..].
      * intros [Hx|(m & C' & [->|Hin]%elem_of_cons & Hq & HC' & Hx)].
        -- by left; left.
        -- left; right. congruence.
        -- right. exists m, C'. done.
    + simpl. destruct (IH acc) as (E & -> & HE).
      exists E. split; [done|]. intros x. rewrite HE. split.
      * intros [Hx|(m & C' & Hin & Hq & HC' & Hx)]; [by left|].
        right. exists m, C'. split_and!; [by right|done..].
      * intros [Hx|(m & C' & [->|Hin]%elem_of_cons & Hq & HC' & Hx)].
        -- by left.
        -- apply Hb in Hq. done.
        -- right. exists m, C'. done.
Qed.

(** Whatever [find_extending_structs] returns lies in the table. *)
Lemma find_extending_structs_known limit E :
  find_extending_structs limit active_types mappings = Ok E →
  E ⊆ dom mappings.
Proof.
  unfold find_extending_structs.
  assert (∅ ⊆ dom mappings) as Hacc by set_solver.
  revert Hacc. generalize (∅ : gset string) as acc.
  induction (elements (dom mappings)) as [|k ks IH]; intros acc Hacc; simpl.
  - by intros [= <-].
  - destruct (struct_extends_any limit active_types k mappings)
      as [[]|e]; simpl; [| |done].
    + destruct (traverse_active_struct_types limit [k] mappings)
        as [C|e] eqn:HC; simpl; [|done].
      apply IH. rewrite add_all_union.
      apply traverse_active_struct_types_known in HC. set_solver.
    + by apply IH.
Qed.
End classifier.

(** ** Extension delta reporter *)

Section reporter.
Variable env : Env.

Lemma additions_app_nil_r a : additions_app a no_additions = a.
Proof.
  destruct a. unfold additions_app. simpl. by rewrite !app_nil_r.
Qed.

Lemma additions_app_nil_l a : additions_app no_additions a = a.
Proof. by destruct a. Qed.

Lemma additions_app_assoc a b c :
  additions_app a (additions_app b c) = additions_app (additions_app a b) c.
Proof. unfold additions_app. simpl. by rewrite !app_assoc. Qed.

Lemma fold_left_appends {A} (step : Additions → A → Additions) l :
  appends step →
  ∀ acc, fold_left step l acc
         = additions_app acc (fold_left step l no_additions).
Proof.
  intros Hstep. induction l as [|x l IH]; intros acc; simpl.
  - by rewrite additions_app_nil_r.
  - rewrite IH, (IH (step no_additions x)), (Hstep acc x).
    by rewrite additions_app_assoc.
Qed.

Lemma fold_left_appends_cons {A} (step : Additions → A → Additions) x l :
  appends step →
  fold_left step (x :: l) no_additions
  = additions_app (step no_additions x) (fold_left step l no_additions).
Proof. intros Hstep. simpl. by apply fold_left_appends. Qed.

Lemma scan_type_appends : appends (scan_type env).
Proof.
  intros acc raw. unfold scan_type, classify_type, flag_type, additions_app.
  destruct acc. simpl.
  repeat (case_decide || case_match); simpl; by rewrite ?app_nil_r.
Qed.

Lemma scan_enum_appends : appends (scan_enum env).
Proof.
  intros acc e. unfold scan_enum, additions_app. destruct acc. simpl.
  repeat (case_decide || case_match); simpl; by rewrite ?app_nil_r.
Qed.

Lemma scan_require_appends : appends (scan_require env).
Proof.
  intros acc reqs. unfold scan_require.
  rewrite (fold_left_appends _ _ scan_enum_appends).
  rewrite (fold_left_appends _ _ scan_type_appends acc).
  rewrite (fold_left_appends _ _ scan_enum_appends
             (fold_left _ _ no_additions)).
  by rewrite additions_app_assoc.
Qed.

(** What one type reference contributes. *)
Lemma scan_type_alone raw :
  let n := resolve (env_type_aliases env) raw in
  scan_type env no_additions raw
  = mkAdditions (filter (is_new_struct env) [n]) (filter (is_new_enum env) [n])
      [] (filter (chains_onto env "VkPhysicalDeviceFeatures2") [n])
      (filter (chains_onto env "VkPhysicalDeviceProperties2") [n]).
Proof.
  intros n. unfold scan_type, classify_type, flag_type. fold n.
  assert (∀ (P : string → Prop) `{!∀ x, Decision (P x)},
            filter P [n] = if decide (P n) then [n] else []) as Hf.
  { intros P ?. rewrite filter_cons, filter_nil. done. }
  rewrite !Hf. unfold is_new_struct, is_new_enum.
  destruct (env_struct_types env !! n) as [st|] eqn:Hst.
  - assert (∀ agg, agg ∈ extends st ↔ chains_onto env agg n) as Hch.
    { intros agg. split; [intros ?; by exists st|].
      intros (st' & Hst' & Hin). by simplify_eq. }
    repeat case_decide; simpl; try done; exfalso; naive_solver.
  - assert (∀ agg, ¬ chains_onto env agg n) as Hch.
    { intros agg (st' & Hst' & _). by simplify_eq. }
    repeat case_decide; simpl; try done; exfalso; naive_solver.
Qed.

(** What one enum-value reference contributes. *)
Lemma scan_enum_alone e :
  scan_enum env no_additions e
  = mkAdditions [] [] (omap (enum_extension env) [e]) [] [].
Proof.
  unfold scan_enum, enum_extension. simpl.
  destruct (enumref_extends e) as [target|]; simpl;
    repeat case_decide; simpl; try done; exfalso; naive_solver.
Qed.

Lemma scan_types_spec names :
  let ns := resolve (env_type_aliases env) <$> names in
  fold_left (scan_type env) names no_additions
  = mkAdditions (filter (is_new_struct env) ns) (filter (is_new_enum env) ns)
      [] (filter (chains_onto env "VkPhysicalDeviceFeatures2") ns)
      (filter (chains_onto env "VkPhysicalDeviceProperties2") ns).
Proof.
  induction names as [|raw names IH]; [done|].
  rewrite (fold_left_appends_cons _ _ _ scan_type_appends).
  simpl in IH. rewrite IH, scan_type_alone. simpl.
  unfold additions_app. simpl.
  by rewrite <-!filter_app.
Qed.

Lemma scan_enums_spec es :
  fold_left (scan_enum env) es no_additions
  = mkAdditions [] [] (omap (enum_extension env) es) [] [].
Proof.
  induction es as [|e es IH]; [done|].
  rewrite (fold_left_appends_cons _ _ _ scan_enum_appends).
  rewrite IH, scan_enum_alone. unfold additions_app. simpl.
  by destruct (enum_extension env e).
Qed.

Lemma scan_require_spec reqs :
  let ns := resolve (env_type_aliases env) <$> require_types reqs in
  scan_require env no_additions reqs
  = mkAdditions (filter (is_new_struct env) ns) (filter (is_new_enum env) ns)
      (omap (enum_extension env) (require_enums reqs))
      (filter (chains_onto env "VkPhysicalDeviceFeatures2") ns)
      (filter (chains_onto env "VkPhysicalDeviceProperties2") ns).
Proof.
  unfold scan_require.
  rewrite (fold_left_appends _ _ scan_enum_appends).
  rewrite scan_types_spec, scan_enums_spec. unfold additions_app. simpl.
  by rewrite !app_nil_r.
Qed.

(** The five lists of an extension, in closed form. *)
Lemma scan_extension_spec ext :
  scan_extension env ext
  = mkAdditions
      (filter (is_new_struct env) (type_refs env ext))
      (filter (is_new_enum env) (type_refs env ext))
      (omap (enum_extension env) (enum_refs ext))
      (filter (chains_onto env "VkPhysicalDeviceFeatures2") (type_refs env ext))
      (filter (chains_onto env "VkPhysicalDeviceProperties2")
         (type_refs env ext)).
Proof.
  unfold scan_extension, type_refs, enum_refs.
  induction (extension_requires ext) as [|reqs rs IH]; [done|].
  rewrite (fold_left_appends_cons _ _ _ scan_require_appends).
  rewrite IH, scan_require_spec. unfold additions_app. simpl.
  by rewrite fmap_app, !filter_app, omap_app.
Qed.
End reporter.

(** ** Printing *)

Lemma run_eta {A} (r : Run A) : r = run (output r) (outcome r).
Proof. by destruct r. Qed.

Lemma bind_ok {A B} (m : Run A) (k : A → Run B) out a :
  m = run out (Ok a) →
  m ≫= k = run (out ++ output (k a)) (outcome (k a)).
Proof. intros ->. simpl. by destruct (k a). Qed.

Lemma bind_raise {A B} (m : Run A) (k : A → Run B) out e :
  m = run out (Raise e) → m ≫= k = run out (Raise e).
Proof. by intros ->. Qed.

Lemma bind_print {B} s (k : unit → Run B) :
  print s ≫= k = run (s :: output (k tt)) (outcome (k tt)).
Proof. by rewrite (bind_ok _ _ [s] tt). Qed.

Lemma bind_quiet_ok {A B} (a : A) (k : A → Run B) : quiet (Ok a) ≫= k = k a.
Proof. unfold quiet. simpl. by destruct (k a). Qed.

Lemma for_print_ok {A} (body : A → Run unit) l :
  (∀ x, x ∈ l → outcome (body x) = Ok tt) →
  outcome (for_print body l) = Ok tt.
Proof.
  induction l as [|x l IH]; intros Hbody; simpl; [done|].
  rewrite (bind_ok _ _ (output (body x)) tt).
  - simpl. apply IH. intros y Hy. apply Hbody. by right.
  - rewrite (run_eta (body x)) at 1. rewrite Hbody; [done|left].
Qed.

Lemma for_print_app {A} (body : A → Run unit) l1 l2 :
  for_print body (l1 ++ l2) = (_ ← for_print body l1; for_print body l2).
Proof.
  induction l1 as [|x l1 IH]; simpl.
  - by destruct (for_print body l2).
  - rewrite IH. destruct (body x) as [out [[]|e]]; simpl; [|done].
    destruct (for_print body l1) as [out1 [[]|e1]]; simpl.
    + destruct (for_print body l2) as [out2 r2]. simpl. by rewrite app_assoc.
    + done.
Qed.

(** ** The Additions section of one extension *)

Lemma print_additions_silent env ext_name a :
  new_structs a = [] → new_enums a = [] → extended_enums a = [] →
  print_additions env ext_name a = run [] (Ok tt).
Proof.
  intros H1 H2 H3. unfold print_additions. rewrite H1, H2, H3.
  case_decide as Hlen; [simpl in Hlen; lia|done].
Qed.

Lemma print_additions_header env ext_name a :
  ¬ (new_structs a = [] ∧ new_enums a = [] ∧ extended_enums a = []) →
  ∃ rest, output (print_additions env ext_name a)
          = ("=== " +:+ ext_name +:+ " ===") :: rest.
Proof.
  intros Hne. unfold print_additions. case_decide as Hlen.
  - rewrite bind_print. simpl. by eauto.
  - exfalso. apply Hne.
    destruct (new_structs a), (new_enums a), (extended_enums a);
      simpl in Hlen; try lia. done.
Qed.

Lemma print_additions_ok env ext_name a :
  (∀ n, n ∈ new_structs a → is_Some (env_struct_types env !! n)) →
  outcome (print_additions env ext_name a) = Ok tt.
Proof.
  intros Hknown. unfold print_additions. case_decide; [|done].
  rewrite bind_print. simpl.
  rewrite (bind_ok _ _ (output (for_print (print_new_struct env)
                                  (new_structs a))) tt).
  2:{ rewrite (run_eta (for_print _ _)) at 1. f_equal.
      apply for_print_ok. intros n [st Hst]%Hknown.
      unfold print_new_struct. rewrite Hst. simpl. done. }
  simpl.
  rewrite (bind_ok _ _ (output (for_print (λ new_enum, print (tab +:+ new_enum))
                                  (new_enums a))) tt).
  2:{ rewrite (run_eta (for_print _ _)) at 1. f_equal.
      by apply for_print_ok. }
  simpl.
  rewrite (bind_ok _ _
             (output (for_print
                        (λ extended_enum : string * string,
                           print (tab +:+ extended_enum.1 +:+ " adds "
                                  +:+ extended_enum.2))
                        (extended_enums a))) tt).
  2:{ rewrite (run_eta (for_print _ _)) at 1. f_equal.
      by apply for_print_ok. }
  done.
Qed.

Lemma new_structs_classified env ext n :
  n ∈ new_structs (scan_extension env ext) →
  n ∈ env_active_types env ∪ env_extending_types env.
Proof.
  rewrite scan_extension_spec. simpl.
  intros [[Hn _] _]%list_elem_of_filter. set_solver.
Qed.

Lemma additions_section_ok env lg ext :
  env_active_types env ∪ env_extending_types env ⊆ dom (env_struct_types env) →
  outcome (additions_section env lg ext) = Ok tt.
Proof.
  intros Hknown. unfold additions_section.
  repeat case_decide; try done.
  apply print_additions_ok. intros n Hn%new_structs_classified.
  apply elem_of_dom. set_solver.
Qed.

(** ** Lines of a section *)

Lemma for_print_lines {A} (body : A → Run unit) (line : A → string) l :
  (∀ x, x ∈ l → body x = run [line x] (Ok tt)) →
  for_print body l = run (line <$> l) (Ok tt).
Proof.
  induction l as [|x l IH]; intros Hbody; [done|].
  change (for_print body (x :: l)) with (_ ← body x; for_print body l).
  rewrite (Hbody x) by left. rewrite IH; [done|].
  intros y Hy. apply Hbody. by right.
Qed.

Lemma for_print_new_structs env l :
  (∀ n, n ∈ l → is_Some (env_struct_types env !! n)) →
  ∃ lines,
    Forall2
      (λ n line, ∃ st, env_struct_types env !! n = Some st
                       ∧ line = tab +:+ n +:+ " extends "
                                +:+ join ", " (elements (extends st)))
      l lines
    ∧ for_print (print_new_struct env) l = run lines (Ok tt).
Proof.
  induction l as [|n l IH]; intros Hknown.
  - exists []. by split; [constructor|].
  - destruct IH as (lines & Hlines & Hrun).
    { intros n' Hn'. apply Hknown. by right. }
    destruct (Hknown n) as [st Hst]; [left|].
    exists ((tab +:+ n +:+ " extends " +:+ join ", " (elements (extends st)))
            :: lines).
    split; [constructor; [by exists st|done]|].
    change (for_print (print_new_struct env) (n :: l))
      with (_ ← print_new_struct env n; for_print (print_new_struct env) l).
    assert (print_new_struct env n
            = run [tab +:+ n +:+ " extends "
                   +:+ join ", " (elements (extends st))] (Ok tt)) as ->.
    { unfold print_new_struct. by rewrite Hst. }
    by rewrite Hrun.
Qed.

(** ** Acyclic chain relations *)

Lemma extends_acyclic_ranked mappings (rank : string → nat) :
  map_Forall (λ x st, set_Forall (λ y, rank y < rank x) (extends st)) mappings →
  extends_acyclic mappings.
Proof.
  intros Hrank.
  assert (∀ x y, tc (extends_edge mappings) x y → rank y < rank x) as Hlt.
  { intros x y Htc. induction Htc as [x y (st & Hst & Hin)|x y z (st & Hst & Hin) _ IH].
    - by apply (Hrank x st Hst y).
    - assert (rank y < rank x) by apply (Hrank x st Hst y Hin). lia. }
  intros x Hcyc%Hlt. lia.
Qed.

Lemma sample_table_acyclic : extends_acyclic sample_table.
Proof.
  apply (extends_acyclic_ranked _ sample_rank).
  apply (bool_decide_unpack _). by vm_compute.
Qed.

(** ** Reachability along member types *)

Lemma member_closed_union mapping (X Y : gset string) :
  member_closed mapping X → member_closed mapping Y →
  member_closed mapping (X ∪ Y).
Proof.
  intros HX HY s m [Hs|Hs]%elem_of_union Hmem Hdom; apply elem_of_union.
  - left. by eapply HX.
  - right. by eapply HY.
Qed.

Lemma least_member_closed_unique mapping R A B :
  least_member_closed mapping R A → least_member_closed mapping R B → A = B.
Proof.
  intros (HRA & HcA & HlA) (HRB & HcB & HlB).
  apply (anti_symm (⊆)); [by apply HlA | by apply HlB].
Qed.

(** Whatever a visit adds is reachable from the visited name through
    member edges. *)
Lemma traverse_active_struct_type_reaches mapping limit :
  ∀ active t active',
    traverse_active_struct_type limit active t mapping = Ok active' →
    ∀ x, x ∈ active' →
         x ∈ active ∨ (t ∈ dom mapping ∧ rtc (member_edge mapping) t x).
Proof.
  induction limit as [|limit IH]; intros active t active'; simpl; [done|].
  destruct (mapping !! t) as [st|] eqn:Hst; [|intros [= <-]; by left].
  destruct (decide (t ∈ active)) as [Hin|Hnin]; [intros [= <-]; by left|].
  assert (t ∈ dom mapping) as Hdom by (apply elem_of_dom; eauto).
  intros Hloop x Hx.
  assert (x ∈ active ∪ {[t]}
          ∨ ∃ m, m ∈ member_types st ∧ m ∈ dom mapping
                 ∧ rtc (member_edge mapping) m x) as [Hold|Hnew].
  { revert Hloop x Hx. generalize (active ∪ {[t]}) as a.
    induction (member_types st) as [|m ms IHms]; intros a; simpl.
    - intros [= <-] x Hx. by left.
    - destruct (traverse_active_struct_type limit a m mapping)
        as [a1|e] eqn:Hcall; simpl; [|done].
      intros Hrest x Hx.
      destruct (IHms a1 Hrest x Hx) as [Hx1|(m' & Hm' & Hreach)].
      + destruct (IH a m a1 Hcall x Hx1) as [Hxa|[Hmdom Hreach]]; [by left|].
        right. exists m. split_and!; [left|done..].
      + right. exists m'. split; [by right|done]. }
  - apply elem_of_union in Hold as [Hold| ->%elem_of_singleton]; [by left|].
    right. split; [done|apply rtc_refl].
  - destruct Hnew as (m & Hm & Hmdom & Hreach). right. split; [done|].
    eapply rtc_l; [|exact Hreach]. split; [by exists st|done].
Qed.

Lemma traverse_active_struct_types_reaches mapping limit base_types :
  ∀ active active',
    for_each (λ a t, traverse_active_struct_type limit a t mapping)
      active base_types = Ok active' →
    ∀ x, x ∈ active' →
         x ∈ active ∨ ∃ r, r ∈ base_types ∧ r ∈ dom mapping
                           ∧ rtc (member_edge mapping) r x.
Proof.
  induction base_types as [|t ts IH]; intros active active'; simpl.
  - intros [= <-] x Hx. by left.
  - destruct (traverse_active_struct_type limit active t mapping)
      as [a1|e] eqn:Hcall; simpl; [|done].
    intros Hrest x Hx.
    destruct (IH a1 active' Hrest x Hx) as [Hx1|(r & Hr & Hreach)].
    + destruct (traverse_active_struct_type_reaches mapping limit active t a1
                  Hcall x Hx1) as [Hxa|[Hdom Hreach]]; [by left|].
      right. exists t. split_and!; [left|done..].
    + right. exists r. split; [by right|done].
Qed.

Lemma member_closed_reach mapping (X : gset string) r x :
  member_closed mapping X → r ∈ X → rtc (member_edge mapping) r x → x ∈ X.
Proof.
  intros Hcl Hr Hreach. induction Hreach as [|r m x [Hmem Hdom] _ IH]; [done|].
  apply IH. by eapply Hcl.
Qed.

(** ** The closure engine: claims *)

(** C1, as stated, fails: a root that is not a known structure is left out
    of the computed set, so the computed set does not contain the root set.
    With roots [VkSamplerCreateInfo] and [VkNoSuchStruct] over the sample
    table, the result lacks [VkNoSuchStruct]. *)
Lemma C1_unknown_root_left_out :
  traverse_active_struct_types 8 ["VkLeaf"; "VkNoSuchStruct"] sample_table
  = Ok {["VkLeaf"]}
  ∧ ¬ least_member_closed sample_table
        (list_to_set ["VkLeaf"; "VkNoSuchStruct"]) {["VkLeaf"]}.
Proof.
  split; [evaluates|].
  intros (Hroot & _). specialize (Hroot "VkNoSuchStruct"). set_solver.
Qed.

(** C1, amended: for every root list and every structure table, the
    active-type closure computed by [traverse_active_struct_types] is the
    smallest set that contains the roots that are known structures and is
    closed under: if [s] is in the set and a member type [m] of [s] is
    itself a known structure, then [m] is in the set. *)
Theorem C1_active_types_least_closed limit base_types mapping :
  size mapping < limit →
  ∃ A, traverse_active_struct_types limit base_types mapping = Ok A
       ∧ least_member_closed mapping (list_to_set base_types ∩ dom mapping) A.
Proof.
  intros Hlt.
  destruct (traverse_active_struct_types_returns mapping limit base_types Hlt)
    as [A HA].
  exists A. split; [done|]. by eapply traverse_active_struct_types_least.
Qed.

Lemma C1_active_types_least_closed_witness :
  size sample_table < 8
  ∧ ∃ A, traverse_active_struct_types 8 ["VkSamplerCreateInfo"; "VkNoSuchStruct"]
           sample_table = Ok A
         ∧ least_member_closed sample_table
             (list_to_set ["VkSamplerCreateInfo"; "VkNoSuchStruct"]
              ∩ dom sample_table) A.
Proof.
  assert (size sample_table < 8) as Hlt by (vm_compute; lia).
  split; [exact Hlt|].
  exact (C1_active_types_least_closed 8
           ["VkSamplerCreateInfo"; "VkNoSuchStruct"] sample_table Hlt).
Defined.

(** C7: the active-type closure is monotone in its roots: over the same
    structure table, if every root of [root] is a root of [root'] then
    ActiveTypes(root) ⊆ ActiveTypes(root'). *)
Theorem C7_active_types_monotone limit mapping (root root' : list string) :
  size mapping < limit →
  root ⊆ root' →
  ∃ A A', traverse_active_struct_types limit root mapping = Ok A
          ∧ traverse_active_struct_types limit root' mapping = Ok A'
          ∧ A ⊆ A'.
Proof.
  intros Hlt Hsub.
  destruct (traverse_active_struct_types_returns mapping limit root Hlt)
    as [A HA].
  destruct (traverse_active_struct_types_returns mapping limit root' Hlt)
    as [A' HA'].
  exists A, A'. split_and!; [done..|].
  destruct (traverse_active_struct_types_least mapping limit root A HA)
    as (_ & _ & Hleast).
  destruct (traverse_active_struct_types_least mapping limit root' A' HA')
    as (Hroot' & Hclosed' & _).
  apply Hleast; [|done]. set_solver.
Qed.

Lemma C7_active_types_monotone_witness :
  size sample_table < 8
  ∧ ["VkLeaf"] ⊆ ["VkNode"; "VkLeaf"]
  ∧ ∃ A A', traverse_active_struct_types 8 ["VkLeaf"] sample_table = Ok A
            ∧ traverse_active_struct_types 8 ["VkNode"; "VkLeaf"] sample_table
              = Ok A'
            ∧ A ⊆ A'.
Proof.
  assert (size sample_table < 8) as Hlt by (vm_compute; lia).
  assert (["VkLeaf"] ⊆ ["VkNode"; "VkLeaf"]) as Hsub by set_solver.
  split; [exact Hlt|]. split; [exact Hsub|].
  exact (C7_active_types_monotone 8 sample_table _ _ Hlt Hsub).
Defined.

(** C8: the traversal terminates on every finite structure table, cycles
    in the member relation included: with a recursion budget above the
    number of structures both traversal functions return, and a visit that
    passes the two guards strictly enlarges the visited set. *)
Theorem C8_traversal_terminates mapping limit :
  size mapping < limit →
  (∀ base_types,
     ∃ A, traverse_active_struct_types limit base_types mapping = Ok A)
  ∧ (∀ active t,
       ∃ active',
         traverse_active_struct_type limit active t mapping = Ok active'
         ∧ active ⊆ active'
         ∧ (t ∈ dom mapping → t ∉ active →
            active ⊂ active'
            ∧ size (dom mapping ∖ active') < size (dom mapping ∖ active))).
Proof.
  intros Hlt. split.
  - intros base_types. by apply traverse_active_struct_types_returns.
  - intros active t.
    destruct (traverse_active_struct_type_returns mapping limit active t)
      as [active' Hcall].
    { rewrite <-size_dom in Hlt.
      assert (size (dom mapping ∖ active) ≤ size (dom mapping))%nat; [|lia].
      apply subseteq_size. set_solver. }
    exists active'. split; [done|].
    apply traverse_active_struct_type_visits in Hcall as (Hs & Ht & _).
    split; [done|]. intros Hdom Hnew.
    assert (t ∈ active') as Hin by (apply Ht; [left|done]).
    split.
    + apply strict_spec_alt. split; [done|]. intros ->. done.
    + apply (unvisited_shrinks mapping active active' t); [done..|set_solver].
Qed.

Lemma C8_traversal_terminates_witness :
  size sample_table < 8
  ∧ (∀ base_types,
       ∃ A, traverse_active_struct_types 8 base_types sample_table = Ok A)
  ∧ (∀ active t,
       ∃ active',
         traverse_active_struct_type 8 active t sample_table = Ok active'
         ∧ active ⊆ active'
         ∧ (t ∈ dom sample_table → t ∉ active →
            active ⊂ active'
            ∧ size (dom sample_table ∖ active')
              < size (dom sample_table ∖ active))).
Proof.
  assert (size sample_table < 8) as Hlt by (vm_compute; lia).
  split; [exact Hlt|].
  exact (C8_traversal_terminates sample_table 8 Hlt).
Defined.

(** The cyclic sample table, traversed from the structure on its cycle. *)
Example sample_table_cycle_visited_once :
  traverse_active_struct_types 8 ["VkNode"] sample_table
  = Ok {["VkNode"; "VkLeaf"; "VkSamplerCreateInfo"]}.
Proof. evaluates. Qed.

(** Below the depth of the structure graph the budget runs out. *)
Example sample_table_budget_exhausted :
  traverse_active_struct_types 2 ["VkSamplerCreateInfo"] sample_table
  = Raise RecursionError.
Proof. evaluates. Qed.

(** ** The enum activation resolver never misses a structure *)

Lemma activate_structs_ok mappings enum_types bitmask_reqs ts :
  (∀ t, t ∈ ts → t ∈ dom mappings) →
  ∀ acc, ∃ acc',
    for_each (activate_struct mappings enum_types bitmask_reqs) acc ts
    = Ok acc'.
Proof.
  induction ts as [|t ts IH]; intros Hknown acc; simpl; [by eauto|].
  assert (t ∈ dom mappings) as [st Hst]%elem_of_dom by (apply Hknown; left).
  assert (activate_struct mappings enum_types bitmask_reqs acc t
          = Ok (fold_left (activate_member enum_types bitmask_reqs)
                  (member_types st) acc)) as ->.
  { unfold activate_struct. by rewrite Hst. }
  simpl. apply IH. intros t' Ht'. apply Hknown. by right.
Qed.

Lemma find_active_enum_types_ok active_types extending_types mappings
    enum_types bitmask_reqs :
  active_types ⊆ dom mappings → extending_types ⊆ dom mappings →
  ∃ active_enums,
    find_active_enum_types active_types extending_types mappings enum_types
      bitmask_reqs = Ok active_enums.
Proof.
  intros HA HE. unfold find_active_enum_types.
  destruct (activate_structs_ok mappings enum_types bitmask_reqs
              (elements active_types)) with (acc := (∅ : gset string))
    as [acc1 ->].
  { intros t Ht%elem_of_elements. by apply HA. }
  simpl. apply activate_structs_ok.
  intros t Ht%elem_of_elements. by apply HE.
Qed.

(** C9: every element of the computed ActiveTypes and of the computed
    ExtendingTypes is a key of the structure table, whatever the roots; so
    the member and chain-target lookups made for these names afterwards are
    defined: the enum activation resolver returns, and printing the
    section of an extension raises nothing. *)
Theorem C9_computed_types_are_known limit base_types mapping A E :
  traverse_active_struct_types limit base_types mapping = Ok A →
  find_extending_structs limit A mapping = Ok E →
  A ⊆ dom mapping ∧ E ⊆ dom mapping
  ∧ (∀ t, t ∈ A ∪ E → is_Some (mapping !! t))
  ∧ (∀ enum_types bitmask_reqs,
       ∃ active_enums,
         find_active_enum_types A E mapping enum_types bitmask_reqs
         = Ok active_enums)
  ∧ (∀ type_aliases active_enums lg ext,
       outcome (additions_section
                  (mkEnv type_aliases mapping A E active_enums
                     (cherry_picked lg)) lg ext) = Ok tt).
Proof.
  intros HA%traverse_active_struct_types_known
         HE%find_extending_structs_known.
  split_and!; [done..| | |].
  - intros t Ht. apply elem_of_dom. set_solver.
  - intros. by apply find_active_enum_types_ok.
  - intros. apply additions_section_ok. simpl. set_solver.
Qed.

Lemma C9_computed_types_are_known_witness :
  let roots := ["VkSamplerCreateInfo"; "VkNoSuchStruct"] in
  let A : gset string := {["VkSamplerCreateInfo"; "VkNode"; "VkLeaf"]} in
  let E : gset string := {["VkChained"; "VkInner"; "VkChained2"; "VkLeaf"]} in
  traverse_active_struct_types 8 roots sample_table = Ok A
  ∧ find_extending_structs 8 A sample_table = Ok E
  ∧ A ⊆ dom sample_table ∧ E ⊆ dom sample_table
  ∧ (∀ t, t ∈ A ∪ E → is_Some (sample_table !! t))
  ∧ (∀ enum_types bitmask_reqs,
       ∃ active_enums,
         find_active_enum_types A E sample_table enum_types bitmask_reqs
         = Ok active_enums)
  ∧ (∀ type_aliases active_enums lg ext,
       outcome (additions_section
                  (mkEnv type_aliases sample_table A E active_enums
                     (cherry_picked lg)) lg ext) = Ok tt).
Proof.
  intros roots A E.
  assert (traverse_active_struct_types 8 roots sample_table = Ok A) as HA
    by evaluates.
  assert (find_extending_structs 8 A sample_table = Ok E) as HE
    by evaluates.
  split; [exact HA|]. split; [exact HE|].
  exact (C9_computed_types_are_known 8 roots sample_table A E HA HE).
Defined.

(** ** The extension-chain classifier: claim *)

(** C2: over a structure table with an acyclic chain relation and for every
    active set, [struct_extends_any] classifies [X] as an extending
    structure exactly when a chain target of [X] is active or qualifies in
    turn; a structure without chain targets (or an unknown name) never
    qualifies; and ExtendingTypes holds, for every qualifying [X], [X]
    itself and the whole member closure of [X] (the smallest member-closed
    set that contains [X]), and nothing else: its elements are exactly the
    names that a qualifying structure reaches along member types that are
    known structures. *)
Theorem C2_extending_structs limit mappings active_types :
  extends_acyclic mappings → size mappings < limit →
  (∀ X, ∃ b, struct_extends_any limit active_types X mappings = Ok b
             ∧ (b = true ↔ qualifies mappings active_types X))
  ∧ (∀ X, (∀ st, mappings !! X = Some st → extends st = ∅) →
          struct_extends_any limit active_types X mappings = Ok false)
  ∧ ∃ E, find_extending_structs limit active_types mappings = Ok E
         ∧ (∀ X, qualifies mappings active_types X →
                 X ∈ E
                 ∧ ∃ C, least_member_closed mappings {[X]} C ∧ C ⊆ E)
         ∧ (∀ m, m ∈ E ↔
                 ∃ X, qualifies mappings active_types X
                      ∧ rtc (member_edge mappings) X m).
Proof.
  intros Hacyc Hlt. split_and!.
  - intros X. by apply struct_extends_any_decides.
  - intros X Hnone.
    destruct (struct_extends_any_decides mappings active_types limit X
                Hacyc Hlt) as ([] & Hb & Hq); [|done].
    exfalso. destruct Hq as [Hq _]. specialize (Hq eq_refl).
    destruct Hq as [x e (st & Hst & Hin) _|x e (st & Hst & Hin) _];
      rewrite (Hnone st Hst) in Hin; set_solver.
  - destruct (find_extending_structs_loop mappings active_types limit
                (elements (dom mappings)) Hacyc Hlt ∅) as (E & HE & Hchar).
    exists E. split; [done|].
    assert (∀ X C, qualifies mappings active_types X →
                   traverse_active_struct_types limit [X] mappings = Ok C →
                   least_member_closed mappings {[X]} C ∧ C ⊆ E) as Hclosure.
    { intros X C Hq HC. split.
      - pose proof (qualifies_known mappings active_types X Hq) as Hdom.
        apply traverse_active_struct_types_least in HC.
        replace ({[X]} : gset string)
          with (list_to_set [X] ∩ dom mappings : gset string); [done|].
        set_solver.
      - intros m Hm. apply Hchar. right. exists X, C. split_and!; [|done..].
        apply elem_of_elements. by eapply qualifies_known. }
    split.
    + intros X Hq.
      destruct (traverse_active_struct_types_returns mappings limit [X] Hlt)
        as [C HC].
      destruct (Hclosure X C Hq HC) as [Hleast Hsub].
      split; [|by exists C].
      apply Hsub. destruct Hleast as (Hroot & _). set_solver.
    + intros m. split.
      * intros [Hm|(X & C & _ & Hq & HC & Hm)]%Hchar; [set_solver|].
        exists X. split; [done|].
        destruct (traverse_active_struct_types_reaches mappings limit [X]
                    ∅ C HC m Hm) as [Hempty|(r & Hr & _ & Hreach)];
          [set_solver|].
        by apply list_elem_of_singleton in Hr as ->.
      * intros (X & Hq & Hreach).
        destruct (traverse_active_struct_types_returns mappings limit [X] Hlt)
          as [C HC].
        destruct (Hclosure X C Hq HC) as [(Hroot & Hcl & _) Hsub].
        apply Hsub. eapply member_closed_reach; [done| |done].
        set_solver.
Qed.

Lemma C2_extending_structs_witness :
  let active : gset string := {["VkSamplerCreateInfo"; "VkNode"; "VkLeaf"]} in
  extends_acyclic sample_table ∧ size sample_table < 8
  ∧ (∀ X, ∃ b, struct_extends_any 8 active X sample_table = Ok b
               ∧ (b = true ↔ qualifies sample_table active X))
  ∧ (∀ X, (∀ st, sample_table !! X = Some st → extends st = ∅) →
          struct_extends_any 8 active X sample_table = Ok false)
  ∧ ∃ E, find_extending_structs 8 active sample_table = Ok E
         ∧ (∀ X, qualifies sample_table active X →
                 X ∈ E
                 ∧ ∃ C, least_member_closed sample_table {[X]} C ∧ C ⊆ E)
         ∧ (∀ m, m ∈ E ↔
                 ∃ X, qualifies sample_table active X
                      ∧ rtc (member_edge sample_table) X m).
Proof.
  intros active.
  assert (size sample_table < 8) as Hlt by (vm_compute; lia).
  split; [exact sample_table_acyclic|]. split; [exact Hlt|].
  exact (C2_extending_structs 8 sample_table active sample_table_acyclic Hlt).
Defined.

(** The chain [VkChained2 → VkChained → VkSamplerCreateInfo] of the sample
    table: both structures qualify, [VkOther] does not, and the leaf that
    is only a member of a qualifying structure is in ExtendingTypes. *)
Example sample_table_extending :
  let active : gset string := {["VkSamplerCreateInfo"; "VkNode"; "VkLeaf"]} in
  struct_extends_any 8 active "VkChained2" sample_table = Ok true
  ∧ struct_extends_any 8 active "VkOther" sample_table = Ok false
  ∧ find_extending_structs 8 active sample_table
    = Ok {["VkChained"; "VkInner"; "VkChained2"; "VkLeaf"]}.
Proof. intros active. split_and!; evaluates. Qed.

(** A chain relation with a cycle away from the active set exhausts any
    budget: the recursion has no visited set. *)
Example cyclic_chain_exhausts_budget limit :
  struct_extends_any limit ∅ "VkLoop"
    {["VkLoop" := mkStructType {["VkLoop"]} []]} = Raise RecursionError.
Proof.
  induction limit as [|limit IH]; [done|]. simpl.
  rewrite lookup_singleton_eq. cbn [extends].
  rewrite elements_singleton. simpl.
  case_decide; [set_solver|]. by rewrite IH.
Qed.

(** ** The size-table builder: claim *)

Lemma append_empty_r (s : string) : s +:+ "" = s.
Proof.
  induction s as [|c s IH]; [done|].
  change (String c (s +:+ "") = String c s). by rewrite IH.
Qed.

Lemma pnext_size_rows_one targets t name first stype :
  head (type_members t) = Some first → member_values first = Some stype →
  (∃ e, e ∈ targets ∧ e ∈ top_level_types_pipeline) →
  pnext_size_rows targets t name = Ok (size_row stype name).
Proof.
  intros Hfirst Hstype. induction targets as [|e es IH]; simpl.
  - intros (e & Hin & _). by apply elem_of_nil in Hin.
  - intros (e' & Hin & Hroot). case_decide as Hdec.
    + rewrite Hfirst. simpl. rewrite Hstype. done.
    + apply IH. exists e'. split; [|done].
      apply elem_of_cons in Hin as [->|Hin]; done.
Qed.

Lemma pnext_size_rows_none targets t name :
  (∀ e, e ∈ targets → e ∉ top_level_types_pipeline) →
  pnext_size_rows targets t name = Ok "".
Proof.
  induction targets as [|e es IH]; simpl; intros Hnone; [done|].
  case_decide as Hdec.
  - exfalso. by apply (Hnone e); [left|].
  - apply IH. intros e' Hin. apply Hnone. by right.
Qed.

Lemma struct_extends_targets type_aliases t name exts rows :
  struct_extends type_aliases t name = Ok (exts, rows) →
  exts = declared_extends type_aliases t.
Proof.
  unfold struct_extends, declared_extends.
  destruct (type_structextends t) as [raw|]; [|by intros [= <- _]].
  destruct (pnext_size_rows _ t name); simpl; [|done]. by intros [= <- _].
Qed.

(** C5: a structure whose EXTENDS set names one or more pipeline roots
    adds exactly one row to the size table, the discriminant tag of its
    first declared member paired with the size of the structure, however
    many pipeline roots it names; a structure whose EXTENDS set names no
    pipeline root adds nothing. *)
Theorem C5_one_size_row_per_structure type_aliases md t name ms :
  type_category t = Some "struct" →
  type_name t = Some name →
  struct_members type_aliases t = Ok ms →
  let EXTENDS := declared_extends type_aliases t in
  let entry := mkStructType EXTENDS ms in
  (∀ first stype,
     head (type_members t) = Some first → member_values first = Some stype →
     (∃ e, e ∈ EXTENDS ∧ e ∈ top_level_types_pipeline) →
     build_type type_aliases md t
     = Ok (mkModel (shallow_copy_pnext_size_lut md +:+ size_row stype name)
             (<[name := entry]> (struct_types md))
             (enum_types md) (bitmask_requirements md)))
  ∧ ((∀ e, e ∈ EXTENDS → e ∉ top_level_types_pipeline) →
     build_type type_aliases md t
     = Ok (mkModel (shallow_copy_pnext_size_lut md)
             (<[name := entry]> (struct_types md))
             (enum_types md) (bitmask_requirements md))).
Proof.
  intros Hcat Hname Hms EXTENDS entry. subst EXTENDS entry.
  unfold build_type, declared_extends. rewrite Hcat, Hname. simpl.
  unfold struct_extends. split.
  - intros first stype Hfirst Hstype (e & Hin & Hroot).
    destruct (type_structextends t) as [raw|]; [|set_solver].
    rewrite (pnext_size_rows_one _ t name first stype Hfirst Hstype).
    + simpl. rewrite Hms. done.
    + exists e. split; [by apply elem_of_elements|done].
  - intros Hnone.
    destruct (type_structextends t) as [raw|].
    + rewrite pnext_size_rows_none.
      * simpl. rewrite Hms. simpl. by rewrite append_empty_r.
      * intros e Hin%elem_of_elements. by apply Hnone.
    + simpl. rewrite Hms. simpl. by rewrite append_empty_r.
Qed.

Lemma C5_one_size_row_per_structure_witness :
  let md := mkModel "" ∅ ∅ ∅ in
  let ms := ["VkStructureType"; "uint32_t"] in
  let EXTENDS : gset string :=
    {["VkGraphicsPipelineCreateInfo"; "VkComputePipelineCreateInfo";
      "VkSamplerCreateInfo"]} in
  declared_extends sample_aliases two_roots_elem = EXTENDS
  ∧ build_type sample_aliases md two_roots_elem
    = Ok (mkModel
            ("" +:+ size_row "VK_STRUCTURE_TYPE_PIPELINE_EXT" "VkPipelineExtEXT")
            (<["VkPipelineExtEXT" :=
                 mkStructType (declared_extends sample_aliases two_roots_elem) ms]>
               ∅) ∅ ∅).
Proof.
  intros md ms EXTENDS. split; [evaluates|].
  refine (proj1 (C5_one_size_row_per_structure sample_aliases md two_roots_elem
                   "VkPipelineExtEXT" ms eq_refl eq_refl eq_refl)
            (stype_member "VK_STRUCTURE_TYPE_PIPELINE_EXT")
            "VK_STRUCTURE_TYPE_PIPELINE_EXT" eq_refl eq_refl _).
  exists "VkGraphicsPipelineCreateInfo".
  split; apply (bool_decide_unpack _); vm_compute; exact I.
Defined.

(** ** The extension delta reporter: claims *)

Lemma filter_none {A} (P : A → Prop) `{!∀ x, Decision (P x)} (l : list A) :
  (∀ x, x ∈ l → ¬ P x) → filter P l = [].
Proof.
  induction l as [|x l IH]; intros Hnone; [done|].
  rewrite filter_cons_False; [|apply Hnone; left].
  apply IH. intros y Hy. apply Hnone. by right.
Qed.

Lemma omap_none {A B} (f : A → option B) (l : list A) :
  (∀ x, x ∈ l → f x = None) → omap f l = [].
Proof.
  induction l as [|x l IH]; intros Hnone; [done|]. simpl.
  rewrite (Hnone x); [|left]. apply IH. intros y Hy. apply Hnone. by right.
Qed.

Lemma additions_section_scanned env lg ext :
  "vulkan" ∈ extension_supported ext →
  extension_name ext ∉ completed_extensions lg →
  extension_name ext ∉ ignored_extensions lg →
  additions_section env lg ext
  = print_additions env (extension_name ext) (scan_extension env ext).
Proof.
  intros Hsup Hnc Hni. unfold additions_section.
  case_decide; [|done]. case_decide as Hor; [|done]. by destruct Hor.
Qed.

(** C6: for an extension that supports the target API and is neither
    completed nor ignored, a section appears in the Additions report only
    if the extension contributed at least one new struct, new enum or
    enum-value pair (and then it does appear); an extension whose
    requirement blocks reference only names absent from ActiveTypes,
    ExtendingTypes and ActiveEnums produces no section. *)
Theorem C6_section_only_for_contributions env lg ext :
  "vulkan" ∈ extension_supported ext →
  extension_name ext ∉ completed_extensions lg →
  extension_name ext ∉ ignored_extensions lg →
  let a := scan_extension env ext in
  (output (additions_section env lg ext) ≠ []
   ↔ ¬ (new_structs a = [] ∧ new_enums a = [] ∧ extended_enums a = []))
  ∧ ((∀ n, n ∈ type_refs env ext →
           (n ∉ env_active_types env) ∧ (n ∉ env_extending_types env)
           ∧ (n ∉ env_active_enums env)) →
     (∀ e target, e ∈ enum_refs ext → enumref_extends e = Some target →
                  target ∉ env_active_enums env) →
     additions_section env lg ext = run [] (Ok tt)).
Proof.
  intros Hsup Hnc Hni a.
  rewrite (additions_section_scanned env lg ext Hsup Hnc Hni). fold a. split.
  - split.
    + intros Hout Hempty. apply Hout.
      destruct Hempty as (H1 & H2 & H3).
      by rewrite (print_additions_silent env _ a H1 H2 H3).
    + intros Hne.
      destruct (print_additions_header env (extension_name ext) a Hne)
        as [rest ->]. done.
  - intros Htypes Henums. apply print_additions_silent; subst a;
      rewrite scan_extension_spec; simpl.
    + apply filter_none. intros n Hn [Hin _].
      destruct (Htypes n Hn) as (? & ? & ?). by destruct Hin.
    + apply filter_none. intros n Hn (_ & Hin & _).
      destruct (Htypes n Hn) as (? & ? & ?). done.
    + apply omap_none. intros e He. unfold enum_extension.
      case_decide; [done|].
      destruct (enumref_extends e) as [target|] eqn:Htarget; simpl; [|done].
      case_decide; [|done]. by destruct (Henums e target He Htarget).
Qed.

Lemma C6_section_only_for_contributions_witness :
  let a := scan_extension feature_env feature_extension in
  (output (additions_section feature_env empty_ledger feature_extension) ≠ []
   ↔ ¬ (new_structs a = [] ∧ new_enums a = [] ∧ extended_enums a = []))
  ∧ ((∀ n, n ∈ type_refs feature_env feature_extension →
           (n ∉ env_active_types feature_env)
           ∧ (n ∉ env_extending_types feature_env)
           ∧ (n ∉ env_active_enums feature_env)) →
     (∀ e target, e ∈ enum_refs feature_extension →
                  enumref_extends e = Some target →
                  target ∉ env_active_enums feature_env) →
     additions_section feature_env empty_ledger feature_extension
     = run [] (Ok tt)).
Proof.
  refine (C6_section_only_for_contributions feature_env empty_ledger
            feature_extension _ _ _).
  - apply (bool_decide_unpack _). vm_compute. exact I.
  - apply (bool_decide_unpack _). vm_compute. exact I.
  - apply (bool_decide_unpack _). vm_compute. exact I.
Defined.

Lemma print_additions_emitted env ext_name a :
  (∀ n, n ∈ new_structs a → is_Some (env_struct_types env !! n)) →
  ¬ (new_structs a = [] ∧ new_enums a = [] ∧ extended_enums a = []) →
  ∃ lines,
    print_additions env ext_name a
    = run (("=== " +:+ ext_name +:+ " ===")
           :: lines
           ++ ["   Feature: " +:+ join ", " (feature_structs a);
               "  Property: " +:+ join ", " (property_structs a); ""])
        (Ok tt)
    ∧ length lines
      = length (new_structs a) + length (new_enums a)
        + length (extended_enums a).
Proof.
  intros Hknown Hne.
  destruct (for_print_new_structs env (new_structs a) Hknown)
    as (struct_lines & Hlines & Hrun).
  exists (struct_lines
          ++ ((λ n, tab +:+ n) <$> new_enums a)
          ++ ((λ p : string * string, tab +:+ p.1 +:+ " adds " +:+ p.2)
                <$> extended_enums a)).
  split.
  - unfold print_additions. rewrite decide_True.
    2:{ destruct (new_structs a), (new_enums a), (extended_enums a);
          simpl; try lia. by destruct Hne. }
    rewrite Hrun.
    rewrite (for_print_lines _ (λ n, tab +:+ n) (new_enums a)) by done.
    rewrite (for_print_lines _
               (λ p : string * string, tab +:+ p.1 +:+ " adds " +:+ p.2)
               (extended_enums a)) by done.
    simpl. by rewrite <-?app_assoc.
  - rewrite !length_app, !length_fmap.
    apply Forall2_length in Hlines. lia.
Qed.

(** C10: every type reference of an extension (supporting the target API,
    neither completed nor ignored) whose alias-resolved name is a known
    structure is recorded in the feature list when its EXTENDS set
    contains [VkPhysicalDeviceFeatures2] and in the property list when it
    contains [VkPhysicalDeviceProperties2], whatever cherryPicked,
    ActiveTypes, ExtendingTypes and ActiveEnums are.  These flags alone
    never cause a section: without a new struct, new enum or enum-value
    pair nothing is printed.  When the extension does contribute (and its
    new structs are known structures, as the computed sets are), the
    section is printed and closes with the Feature line and the Property
    line that list exactly these references, then an empty line. *)
Theorem C10_feature_property_flags env lg ext :
  "vulkan" ∈ extension_supported ext →
  extension_name ext ∉ completed_extensions lg →
  extension_name ext ∉ ignored_extensions lg →
  let a := scan_extension env ext in
  let features :=
    filter (chains_onto env "VkPhysicalDeviceFeatures2") (type_refs env ext) in
  let properties :=
    filter (chains_onto env "VkPhysicalDeviceProperties2") (type_refs env ext) in
  feature_structs a = features
  ∧ property_structs a = properties
  ∧ (new_structs a = [] ∧ new_enums a = [] ∧ extended_enums a = [] →
     additions_section env lg ext = run [] (Ok tt))
  ∧ (¬ (new_structs a = [] ∧ new_enums a = [] ∧ extended_enums a = []) →
     env_active_types env ∪ env_extending_types env
       ⊆ dom (env_struct_types env) →
     ∃ lines,
       additions_section env lg ext
       = run (("=== " +:+ extension_name ext +:+ " ===")
              :: lines
              ++ ["   Feature: " +:+ join ", " features;
                  "  Property: " +:+ join ", " properties; ""])
           (Ok tt)
       ∧ length lines
         = length (new_structs a) + length (new_enums a)
           + length (extended_enums a)).
Proof.
  intros Hsup Hnc Hni a features properties.
  rewrite (additions_section_scanned env lg ext Hsup Hnc Hni). fold a.
  assert (feature_structs a = features) as Hf.
  { subst a features. by rewrite scan_extension_spec. }
  assert (property_structs a = properties) as Hp.
  { subst a properties. by rewrite scan_extension_spec. }
  split_and!; [done..| |].
  - intros (H1 & H2 & H3). by apply print_additions_silent.
  - intros Hne Hknown. rewrite <-Hf, <-Hp.
    apply print_additions_emitted; [|done].
    intros n Hn%new_structs_classified. apply elem_of_dom. set_solver.
Qed.

Lemma C10_feature_property_flags_witness :
  let a := scan_extension flagged_env flagged_extension in
  let features :=
    filter (chains_onto flagged_env "VkPhysicalDeviceFeatures2")
      (type_refs flagged_env flagged_extension) in
  let properties :=
    filter (chains_onto flagged_env "VkPhysicalDeviceProperties2")
      (type_refs flagged_env flagged_extension) in
  (features = ["VkFeatureEXT"] ∧ properties = ["VkPropsEXT"]
   ∧ "VkFeatureEXT" ∈ env_cherry_picked flagged_env
   ∧ new_structs a = [] ∧ new_enums a = ["VkFilter"])
  ∧ ∃ lines,
      additions_section flagged_env empty_ledger flagged_extension
      = run (("=== " +:+ extension_name flagged_extension +:+ " ===")
             :: lines
             ++ ["   Feature: " +:+ join ", " features;
                 "  Property: " +:+ join ", " properties; ""])
          (Ok tt)
      ∧ length lines
        = length (new_structs a) + length (new_enums a)
          + length (extended_enums a).
Proof.
  intros a features properties.
  assert ("vulkan" ∈ extension_supported flagged_extension) as Hsup.
  { apply (bool_decide_unpack _). vm_compute. exact I. }
  assert (extension_name flagged_extension
            ∉ completed_extensions empty_ledger) as Hnc.
  { apply (bool_decide_unpack _). vm_compute. exact I. }
  assert (extension_name flagged_extension
            ∉ ignored_extensions empty_ledger) as Hni.
  { apply (bool_decide_unpack _). vm_compute. exact I. }
  assert (new_enums a = ["VkFilter"]) as Henums by evaluates.
  assert (¬ (new_structs a = [] ∧ new_enums a = [] ∧ extended_enums a = []))
    as Hne.
  { intros (_ & Hnil & _). rewrite Hnil in Henums. discriminate Henums. }
  assert (env_active_types flagged_env ∪ env_extending_types flagged_env
            ⊆ dom (env_struct_types flagged_env)) as Hknown.
  { apply (bool_decide_unpack _). vm_compute. exact I. }
  split.
  - split_and!; [evaluates|evaluates| |evaluates|exact Henums].
    apply (bool_decide_unpack _). vm_compute. exact I.
  - exact (proj2 (proj2 (proj2 (C10_feature_property_flags flagged_env
                                  empty_ledger flagged_extension
                                  Hsup Hnc Hni)))
             Hne Hknown).
Defined.

(** The section printed for the flagged extension: the cherry-picked
    feature structure and the property structure that is in none of the
    sets are both listed. *)
Example flagged_section :
  additions_section flagged_env empty_ledger flagged_extension
  = run ["=== VK_EXT_flagged ==="; tab +:+ "VkFilter";
         "   Feature: VkFeatureEXT"; "  Property: VkPropsEXT"; ""]
      (Ok tt).
Proof. evaluates. Qed.

(** The feature structure of the sample extension is flagged, and no
    section is printed for it. *)
Example feature_flag_without_section :
  scan_extension feature_env feature_extension
  = mkAdditions [] [] [] ["VkFeatureEXT"] []
  ∧ additions_section feature_env empty_ledger feature_extension
    = run [] (Ok tt).
Proof. split; evaluates. Qed.

(** Type references are tested against cherryPicked after alias
    resolution: a cherry-picked name is neither a new struct nor a new
    enum. *)
Lemma cherry_picked_types_excluded env ext n :
  n ∈ env_cherry_picked env →
  (n ∉ new_structs (scan_extension env ext))
  ∧ (n ∉ new_enums (scan_extension env ext)).
Proof.
  intros Hcherry. rewrite scan_extension_spec. simpl. split.
  - intros [[_ Hn] _]%list_elem_of_filter. done.
  - intros [(_ & _ & Hn) _]%list_elem_of_filter. done.
Qed.

(** Enum-value references are tested against cherryPicked before alias
    resolution: the recorded pairs are those of the references whose raw
    name is not cherry-picked. *)
Lemma extended_enums_recorded env ext target n :
  (target, n) ∈ extended_enums (scan_extension env ext)
  ↔ ∃ e, e ∈ enum_refs ext
         ∧ (enumref_name e ∉ env_cherry_picked env)
         ∧ enumref_extends e = Some target
         ∧ target ∈ env_active_enums env
         ∧ n = resolve (env_type_aliases env) (enumref_name e).
Proof.
  rewrite scan_extension_spec. simpl. rewrite list_elem_of_omap.
  unfold enum_extension. split.
  - intros (e & He & Hrec). exists e.
    case_decide; [done|].
    destruct (enumref_extends e) as [target'|]; simpl in Hrec; [|done].
    case_decide; [|done]. by simplify_eq.
  - intros (e & He & Hraw & Htarget & Hact & ->). exists e. split; [done|].
    case_decide; [done|]. rewrite Htarget. simpl. by case_decide.
Qed.

(** C3, at the failing input: the enum-value reference
    [VK_FILTER_CUBIC_IMG] resolves to [VK_FILTER_CUBIC_EXT], which is in
    cherryPicked, and the Additions report still lists it as an enum-value
    extension of [VkFilter], because the membership test of line 209 is
    made on the name before alias resolution. *)
Theorem C3_cherry_picked_enum_value_reported :
  "VK_FILTER_CUBIC_EXT" ∈ cherry_picked cherry_ledger
  ∧ collect_aliases (types cherry_registry)
    = Ok {["VK_FILTER_CUBIC_IMG" := "VK_FILTER_CUBIC_EXT"]}
  ∧ main 8 cherry_registry cherry_ledger
    = run [header "pNext LUT"; "";
           header "Base Types"; "VkSamplerCreateInfo";
           header "Extending Types";
           header "Active Enums"; "VkFilter";
           header "Completed extensions";
           header "Additions";
           "=== VK_IMG_filter_cubic ===";
           tab +:+ "VkFilter adds VK_FILTER_CUBIC_EXT";
           "   Feature: "; "  Property: "; "";
           header "SPIR-V extensions table";
           header "Completed SPIR-V capabilities";
           header "Missing SPIR-V capabilities"]
        (Ok tt).
Proof.
  split_and!.
  - apply (bool_decide_unpack _). vm_compute. exact I.
  - evaluates.
  - evaluates.
Qed.

(** ** The SPIR-V reporter: claim *)






(** One enable-condition, by cases. *)
Lemma spirv_enable_second cv v en x :
  enable_extension en = Some x →
  spirv_enable (cv, Some v) en = Raise TypeError.
Proof. intros Hx. unfold spirv_enable. simpl. by rewrite Hx. Qed.

Lemma spirv_enable_first cv en x :
  enable_extension en = Some x →
  ∃ cv', spirv_enable (cv, None) en = Ok (cv', Some x).
Proof. intros Hx. unfold spirv_enable. simpl. rewrite Hx. by eauto. Qed.

Lemma spirv_enable_other cv vk en :
  enable_extension en = None →
  ∃ cv', spirv_enable (cv, vk) en = Ok (cv', vk).
Proof. intros Hx. unfold spirv_enable. simpl. rewrite Hx. by eauto. Qed.

Lemma for_each_cons {A S} (body : S → A → result S) s x l :
  for_each body s (x :: l) = (s' ← body s x; for_each body s' l).
Proof. done. Qed.

(** The state of the loop over the enable-conditions counts the
    extension conditions met so far. *)
Lemma spirv_enables_raise ens :
  ∀ st, 1 < (if st.2 is Some _ then 1 else 0)
            + length (filter (λ en, is_Some (enable_extension en)) ens) →
        for_each spirv_enable st ens = Raise TypeError.
Proof.
  induction ens as [|en ens IH]; intros [cv vk] Hlen.
  - destruct vk; simpl in Hlen; lia.
  - rewrite for_each_cons. rewrite filter_cons in Hlen.
    destruct (enable_extension en) as [x|] eqn:Hx.
    + rewrite decide_True in Hlen by eauto. destruct vk as [v|].
      * by rewrite (spirv_enable_second cv v en x Hx).
      * destruct (spirv_enable_first cv en x Hx) as [cv' ->].
        apply IH. simpl in *. lia.
    + rewrite decide_False in Hlen by (by intros [? ?]).
      destruct (spirv_enable_other cv vk en Hx) as [cv' ->].
      apply IH. simpl in *. lia.
Qed.

Lemma spirv_enables_ok ens :
  ∀ st, ((if st.2 is Some _ then 1 else 0)
         + length (filter (λ en, is_Some (enable_extension en)) ens) ≤ 1)%nat →
        ∃ st', for_each spirv_enable st ens = Ok st'.
Proof.
  induction ens as [|en ens IH]; intros [cv vk] Hlen; [by eexists|].
  rewrite for_each_cons. rewrite filter_cons in Hlen.
  destruct (enable_extension en) as [x|] eqn:Hx.
  - rewrite decide_True in Hlen by eauto. destruct vk as [v|].
    + simpl in Hlen. lia.
    + destruct (spirv_enable_first cv en x Hx) as [cv' ->].
      apply IH. simpl in *. lia.
  - rewrite decide_False in Hlen by (by intros [? ?]).
    destruct (spirv_enable_other cv vk en Hx) as [cv' ->].
    apply IH. simpl in *. lia.
Qed.







(** * Further properties *)

(** ** Closure engine *)

(** X1: ActiveTypes is exactly what is reachable: a name is in the result
    of [traverse_active_struct_types] if and only if some root that is a
    known structure reaches it along member types that are known
    structures. *)
Theorem X1_active_types_reachable limit base_types mapping A :
  traverse_active_struct_types limit base_types mapping = Ok A →
  ∀ x, x ∈ A ↔ ∃ r, r ∈ base_types ∧ r ∈ dom mapping
                    ∧ rtc (member_edge mapping) r x.
Proof.
  intros HA x. split.
  - intros Hx.
    destruct (traverse_active_struct_types_reaches mapping limit base_types
                ∅ A HA x Hx) as [Hempty|Hreach]; [set_solver|done].
  - intros (r & Hr & Hdom & Hreach).
    destruct (traverse_active_struct_types_least mapping limit base_types A HA)
      as (Hroot & Hcl & _).
    eapply member_closed_reach; [done| |done].
    apply Hroot. apply elem_of_intersection. split; [|done].
    by apply elem_of_list_to_set.
Qed.

Lemma X1_active_types_reachable_witness :
  let A : gset string := {["VkNode"; "VkLeaf"; "VkSamplerCreateInfo"]} in
  traverse_active_struct_types 8 ["VkNode"] sample_table = Ok A
  ∧ ∀ x, x ∈ A ↔ ∃ r, r ∈ ["VkNode"] ∧ r ∈ dom sample_table
                      ∧ rtc (member_edge sample_table) r x.
Proof.
  intros A.
  assert (traverse_active_struct_types 8 ["VkNode"] sample_table = Ok A)
    as HA by evaluates.
  split; [exact HA|].
  exact (X1_active_types_reachable 8 ["VkNode"] sample_table A HA).
Defined.

(** X2: closing again is a no-op: the traversal started from the elements
    of a computed ActiveTypes set returns that set. *)
Theorem X2_reclosing_is_identity limit base_types mapping A :
  size mapping < limit →
  traverse_active_struct_types limit base_types mapping = Ok A →
  traverse_active_struct_types limit (elements A) mapping = Ok A.
Proof.
  intros Hlt HA.
  destruct (traverse_active_struct_types_returns mapping limit (elements A) Hlt)
    as [B HB].
  rewrite HB. f_equal.
  apply traverse_active_struct_types_least in HB as (HrB & HcB & HlB).
  pose proof (traverse_active_struct_types_known mapping limit base_types A HA)
    as Hknown.
  apply traverse_active_struct_types_least in HA as (HrA & HcA & HlA).
  apply (anti_symm (⊆)).
  - apply HlB; [|done]. intros x [Hx _]%elem_of_intersection.
    by apply elem_of_list_to_set, elem_of_elements in Hx.
  - intros x Hx. apply HrB. apply elem_of_intersection. split; [|by apply Hknown].
    by apply elem_of_list_to_set, elem_of_elements.
Qed.

Lemma X2_reclosing_is_identity_witness :
  let A : gset string := {["VkNode"; "VkLeaf"; "VkSamplerCreateInfo"]} in
  size sample_table < 8
  ∧ traverse_active_struct_types 8 ["VkNode"] sample_table = Ok A
  ∧ traverse_active_struct_types 8 (elements A) sample_table = Ok A.
Proof.
  intros A.
  assert (size sample_table < 8) as Hlt by (vm_compute; lia).
  assert (traverse_active_struct_types 8 ["VkNode"] sample_table = Ok A)
    as HA by evaluates.
  split; [exact Hlt|]. split; [exact HA|].
  exact (X2_reclosing_is_identity 8 ["VkNode"] sample_table A Hlt HA).
Defined.

(** X3: the result depends only on the set of roots, not on their order
    or repetition, and the closure of a union of root sets is the union of
    their closures. *)
Theorem X3_closure_of_union limit mapping (roots l1 l2 : list string) A1 A2 :
  size mapping < limit →
  (∀ x, x ∈ roots ↔ x ∈ l1 ∨ x ∈ l2) →
  traverse_active_struct_types limit l1 mapping = Ok A1 →
  traverse_active_struct_types limit l2 mapping = Ok A2 →
  traverse_active_struct_types limit roots mapping = Ok (A1 ∪ A2).
Proof.
  intros Hlt Hroots H1 H2.
  destruct (traverse_active_struct_types_returns mapping limit roots Hlt)
    as [A HA].
  rewrite HA. f_equal.
  apply traverse_active_struct_types_least in HA as (Hr & Hc & Hl).
  apply traverse_active_struct_types_least in H1 as (Hr1 & Hc1 & Hl1).
  apply traverse_active_struct_types_least in H2 as (Hr2 & Hc2 & Hl2).
  apply (anti_symm (⊆)).
  - apply Hl; [|by apply member_closed_union].
    intros x [Hx Hdom]%elem_of_intersection.
    apply elem_of_list_to_set, Hroots in Hx as [Hx|Hx].
    + apply elem_of_union_l, Hr1. apply elem_of_intersection.
      split; [by apply elem_of_list_to_set|done].
    + apply elem_of_union_r, Hr2. apply elem_of_intersection.
      split; [by apply elem_of_list_to_set|done].
  - apply union_subseteq. split.
    + apply Hl1; [|done]. intros x [Hx Hdom]%elem_of_intersection.
      apply Hr, elem_of_intersection. split; [|done].
      apply elem_of_list_to_set, Hroots. left. by apply elem_of_list_to_set in Hx.
    + apply Hl2; [|done]. intros x [Hx Hdom]%elem_of_intersection.
      apply Hr, elem_of_intersection. split; [|done].
      apply elem_of_list_to_set, Hroots. right.
      by apply elem_of_list_to_set in Hx.
Qed.

Lemma X3_closure_of_union_witness :
  let A1 : gset string := {["VkLeaf"]} in
  let A2 : gset string := {["VkChained"; "VkInner"]} in
  size sample_table < 8
  ∧ (∀ x, x ∈ ["VkChained"; "VkLeaf"; "VkChained"] ↔
          x ∈ ["VkLeaf"] ∨ x ∈ ["VkChained"])
  ∧ traverse_active_struct_types 8 ["VkLeaf"] sample_table = Ok A1
  ∧ traverse_active_struct_types 8 ["VkChained"] sample_table = Ok A2
  ∧ traverse_active_struct_types 8 ["VkChained"; "VkLeaf"; "VkChained"]
      sample_table = Ok (A1 ∪ A2).
Proof.
  intros A1 A2.
  assert (size sample_table < 8) as Hlt by (vm_compute; lia).
  assert (∀ x, x ∈ ["VkChained"; "VkLeaf"; "VkChained"] ↔
               x ∈ ["VkLeaf"] ∨ x ∈ ["VkChained"]) as Hroots by set_solver.
  assert (traverse_active_struct_types 8 ["VkLeaf"] sample_table = Ok A1)
    as H1 by evaluates.
  assert (traverse_active_struct_types 8 ["VkChained"] sample_table = Ok A2)
    as H2 by evaluates.
  split; [exact Hlt|]. split; [exact Hroots|].
  split; [exact H1|]. split; [exact H2|].
  exact (X3_closure_of_union 8 sample_table _ _ _ A1 A2 Hlt Hroots H1 H2).
Defined.

(** ** Recursion budget *)

Lemma for_each_raises {A S} (body : S → A → result S) (e0 : exn) l :
  (∀ s x e, x ∈ l → body s x = Raise e → e = e0) →
  ∀ s e, for_each body s l = Raise e → e = e0.
Proof.
  induction l as [|x l IH]; intros Hbody s e; simpl; [done|].
  destruct (body s x) as [s'|e'] eqn:Hx; simpl.
  - apply IH. intros s'' y e'' Hy. apply Hbody. by right.
  - intros [= <-]. eapply Hbody; [left|done].
Qed.

Lemma for_each_ext_ok {A S} (body body' : S → A → result S) l :
  (∀ s x s', x ∈ l → body s x = Ok s' → body' s x = Ok s') →
  ∀ s s', for_each body s l = Ok s' → for_each body' s l = Ok s'.
Proof.
  induction l as [|x l IH]; intros Hbody s s'; simpl; [done|].
  destruct (body s x) as [s1|e] eqn:Hx; simpl; [|done].
  rewrite (Hbody s x s1); [|left|done]. simpl.
  apply IH. intros s2 y s3 Hy. apply Hbody. by right.
Qed.

Lemma traverse_active_struct_type_raises mapping limit :
  ∀ active t e,
    traverse_active_struct_type limit active t mapping = Raise e →
    e = RecursionError.
Proof.
  induction limit as [|limit IH]; intros active t e; simpl; [by intros [= <-]|].
  destruct (mapping !! t) as [st|]; [|done].
  destruct (decide (t ∈ active)); [done|].
  apply for_each_raises. intros s x e' _. apply IH.
Qed.

Lemma traverse_active_struct_type_budget mapping limit :
  ∀ limit' active t active',
    (limit ≤ limit')%nat →
    traverse_active_struct_type limit active t mapping = Ok active' →
    traverse_active_struct_type limit' active t mapping = Ok active'.
Proof.
  induction limit as [|limit IH]; intros limit' active t active' Hle; simpl;
    [done|].
  destruct limit' as [|limit']; [lia|]. simpl.
  destruct (mapping !! t) as [st|]; [|done].
  destruct (decide (t ∈ active)); [done|].
  apply for_each_ext_ok. intros s x s' _. apply IH. lia.
Qed.

(** X4: the traversal never raises for a missing key: the only way it can
    fail is by exhausting the recursion budget; and a result obtained
    within some budget is the result within every larger budget. *)
Theorem X4_traversal_budget limit base_types mapping :
  (∀ e, traverse_active_struct_types limit base_types mapping = Raise e →
        e = RecursionError)
  ∧ (∀ A limit',
       (limit ≤ limit')%nat →
       traverse_active_struct_types limit base_types mapping = Ok A →
       traverse_active_struct_types limit' base_types mapping = Ok A).
Proof.
  split.
  - intros e. unfold traverse_active_struct_types.
    apply for_each_raises. intros s x e' _.
    apply traverse_active_struct_type_raises.
  - intros A limit' Hle. unfold traverse_active_struct_types.
    apply for_each_ext_ok. intros s x s' _.
    by apply traverse_active_struct_type_budget.
Qed.

Lemma X4_traversal_budget_witness :
  let A : gset string := {["VkNode"; "VkLeaf"; "VkSamplerCreateInfo"]} in
  traverse_active_struct_types 3 ["VkNode"] sample_table = Ok A
  ∧ traverse_active_struct_types 8 ["VkNode"] sample_table = Ok A.
Proof.
  intros A.
  assert (traverse_active_struct_types 3 ["VkNode"] sample_table = Ok A)
    as HA by evaluates.
  split; [exact HA|].
  refine (proj2 (X4_traversal_budget 3 ["VkNode"] sample_table) A 8 _ HA). lia.
Defined.

(** ** Extension-chain classifier *)

Lemma extends_any_loop_raises recurse active_types targets e :
  extends_any_loop recurse active_types targets = Raise e →
  ∃ x, x ∈ targets ∧ recurse x = Raise e.
Proof.
  induction targets as [|x xs IH]; simpl; [done|].
  destruct (decide (x ∈ active_types)); [done|].
  destruct (recurse x) as [[]|e'] eqn:Hx; simpl; [done| |].
  - intros (y & Hy & Hrec)%IH. exists y. split; [by right|done].
  - intros [= <-]. exists x. split; [left|done].
Qed.

Lemma extends_any_loop_ext recurse recurse' active_types targets b :
  (∀ x b', x ∈ targets → recurse x = Ok b' → recurse' x = Ok b') →
  extends_any_loop recurse active_types targets = Ok b →
  extends_any_loop recurse' active_types targets = Ok b.
Proof.
  induction targets as [|x xs IH]; intros Hrec; simpl; [done|].
  destruct (decide (x ∈ active_types)); [done|].
  destruct (recurse x) as [b'|e] eqn:Hx; simpl; [|done].
  rewrite (Hrec x b'); [|left|done]. simpl. destruct b'; [done|].
  apply IH. intros y b' Hy. apply Hrec. by right.
Qed.

Lemma struct_extends_any_raises mappings active_types limit :
  ∀ t e, struct_extends_any limit active_types t mappings = Raise e →
         e = RecursionError.
Proof.
  induction limit as [|limit IH]; intros t e; simpl; [by intros [= <-]|].
  destruct (mappings !! t) as [st|]; [|done].
  intros (x & _ & Hx)%extends_any_loop_raises. by eapply IH.
Qed.

Lemma struct_extends_any_budget mappings active_types limit :
  ∀ limit' t b,
    (limit ≤ limit')%nat →
    struct_extends_any limit active_types t mappings = Ok b →
    struct_extends_any limit' active_types t mappings = Ok b.
Proof.
  induction limit as [|limit IH]; intros limit' t b Hle; simpl; [done|].
  destruct limit' as [|limit']; [lia|]. simpl.
  destruct (mappings !! t) as [st|]; [|done].
  apply extends_any_loop_ext. intros x b' _. apply IH. lia.
Qed.

(** X5: [struct_extends_any] never raises for a missing key: its only
    failure is an exhausted recursion budget; and an answer obtained
    within some budget is the answer within every larger budget. *)
Theorem X5_classifier_budget mappings active_types limit t :
  (∀ e, struct_extends_any limit active_types t mappings = Raise e →
        e = RecursionError)
  ∧ (∀ b limit',
       (limit ≤ limit')%nat →
       struct_extends_any limit active_types t mappings = Ok b →
       struct_extends_any limit' active_types t mappings = Ok b).
Proof.
  split.
  - intros e. apply struct_extends_any_raises.
  - intros b limit' Hle. by apply struct_extends_any_budget.
Qed.

Lemma X5_classifier_budget_witness :
  let active : gset string := {["VkSamplerCreateInfo"]} in
  struct_extends_any 2 active "VkChained2" sample_table = Ok true
  ∧ struct_extends_any 8 active "VkChained2" sample_table = Ok true.
Proof.
  intros active.
  assert (struct_extends_any 2 active "VkChained2" sample_table = Ok true)
    as H2 by evaluates.
  split; [exact H2|].
  refine (proj2 (X5_classifier_budget sample_table active 2 "VkChained2")
            true 8 _ H2). lia.
Defined.

Lemma extends_any_loop_exhausts recurse active_types targets e :
  e ∈ targets → recurse e = Raise RecursionError →
  (∀ x, x ∈ targets → x ∉ active_types) →
  (∀ x, x ∈ targets → recurse x ≠ Ok true) →
  (∀ x e', recurse x = Raise e' → e' = RecursionError) →
  extends_any_loop recurse active_types targets = Raise RecursionError.
Proof.
  intros He Hraise Hact Hrec Honly.
  induction targets as [|x xs IH]; simpl; [by apply elem_of_nil in He|].
  rewrite decide_False by (apply Hact; left).
  destruct (recurse x) as [[]|e'] eqn:Hx; simpl.
  - exfalso. by apply (Hrec x); [left|].
  - apply elem_of_cons in He as [->|He]; [congruence|].
    apply IH; [done| |].
    + intros y Hy. apply Hact. by right.
    + intros y Hy. apply Hrec. by right.
  - by rewrite (Honly x e' Hx).
Qed.

(** X6: the recursion over chain targets has no cycle guard: on a
    structure that lies on a cycle of the chain relation and does not
    qualify, [struct_extends_any] exhausts every recursion budget. *)
Theorem X6_chain_cycle_exhausts_budget mappings active_types limit t :
  tc (extends_edge mappings) t t →
  ¬ qualifies mappings active_types t →
  struct_extends_any limit active_types t mappings = Raise RecursionError.
Proof.
  revert t. induction limit as [|limit IH]; intros t Hcyc Hnq; [done|].
  assert (∃ e, extends_edge mappings t e ∧ rtc (extends_edge mappings) e t)
    as (e & Hedge & Hback).
  { inversion Hcyc as [x y Hxy|x y z Hxy Hyz]; subst.
    - exists t. split; [done|apply rtc_refl].
    - exists y. split; [done|by apply tc_rtc]. }
  destruct Hedge as (st & Hst & Hin). simpl. rewrite Hst.
  assert (∀ x, x ∈ extends st → extends_edge mappings t x) as Hedges.
  { intros x Hx. by exists st. }
  apply (extends_any_loop_exhausts _ _ _ e).
  - by apply elem_of_elements.
  - apply IH.
    + eapply tc_rtc_l; [exact Hback|]. apply tc_once. by apply Hedges.
    + intros Hq. apply Hnq. eapply qualifies_chain; [by apply Hedges|done].
  - intros x Hx%elem_of_elements Hact. apply Hnq.
    eapply qualifies_direct; [by apply Hedges|done].
  - intros x Hx%elem_of_elements Htrue. apply Hnq.
    eapply qualifies_chain; [by apply Hedges|].
    by eapply struct_extends_any_true.
  - intros x e'. apply struct_extends_any_raises.
Qed.

Lemma X6_chain_cycle_exhausts_budget_witness :
  let looped : gmap string StructType :=
    {["VkLoop" := mkStructType {["VkLoop"]} []]} in
  tc (extends_edge looped) "VkLoop" "VkLoop"
  ∧ ¬ qualifies looped ∅ "VkLoop"
  ∧ struct_extends_any 1000 ∅ "VkLoop" looped = Raise RecursionError.
Proof.
  intros looped.
  assert (tc (extends_edge looped) "VkLoop" "VkLoop") as Hcyc.
  { apply tc_once. exists (mkStructType {["VkLoop"]} []).
    split; [apply lookup_singleton_eq|]. simpl. set_solver. }
  assert (¬ qualifies looped ∅ "VkLoop") as Hnq.
  { assert (∀ (m : gmap string StructType) t, ¬ qualifies m ∅ t) as Hnone.
    { intros m t Hq.
      induction Hq as [x e _ Hact|x e _ _ IH]; [set_solver|exact IH]. }
    apply Hnone. }
  split; [exact Hcyc|]. split; [exact Hnq|].
  exact (X6_chain_cycle_exhausts_budget looped ∅ 1000 "VkLoop" Hcyc Hnq).
Defined.

Lemma qualifies_mono mappings (active active' : gset string) t :
  active ⊆ active' → qualifies mappings active t → qualifies mappings active' t.
Proof.
  intros Hsub Hq. induction Hq as [x e Hedge Hact|x e Hedge _ IH].
  - eapply qualifies_direct; [done|]. by apply Hsub.
  - by eapply qualifies_chain.
Qed.

Lemma qualifies_active_target mappings active t :
  qualifies mappings active t →
  ∃ x e, extends_edge mappings x e ∧ e ∈ active.
Proof.
  intros Hq. induction Hq as [x e Hedge Hact|x e _ _ IH]; [|done].
  by exists x, e.
Qed.

(** The loop of [find_extending_structs], whenever it returns. *)
Lemma find_extending_structs_inv mappings active_types limit keys :
  ∀ acc E,
    for_each
      (λ extending_structs m,
         b ← struct_extends_any limit active_types m mappings;
         if b : bool then
           membs ← traverse_active_struct_types limit [m] mappings;
           Ok (add_all extending_structs (elements membs))
         else Ok extending_structs)
      acc keys = Ok E →
    (∀ x, x ∈ E ↔
          x ∈ acc ∨ ∃ k C, k ∈ keys
                   ∧ struct_extends_any limit active_types k mappings = Ok true
                   ∧ traverse_active_struct_types limit [k] mappings = Ok C
                   ∧ x ∈ C)
    ∧ (∀ k, k ∈ keys →
            ∃ b, struct_extends_any limit active_types k mappings = Ok b).
Proof.
  induction keys as [|k ks IH]; intros acc E; simpl.
  - intros [= <-]. split.
    + intros x. split; [by left|].
      intros [Hx|(k & C & Hk & _)]; [done|]. by apply elem_of_nil in Hk.
    + intros k Hk. by apply elem_of_nil in Hk.
  - destruct (struct_extends_any limit active_types k mappings)
      as [[]|e] eqn:Hk; simpl; [| |done].
    + destruct (traverse_active_struct_types limit [k] mappings)
        as [C|e] eqn:HC; simpl; [|done].
      intros [Hchar Hall]%IH. split.
      * intros x. rewrite Hchar, add_all_union.
        rewrite elem_of_union, elem_of_list_to_set, elem_of_elements. split.
        -- intros [[Hx|Hx]|(k' & C' & Hk' & Hq & HC' & Hx)]; [by left| |].
           ++ right. exists k, C. split_and!; [left|done..].
           ++ right. exists k', C'. split_and!; [by right|done..].
        -- intros [Hx|(k' & C' & [->|Hk']%elem_of_cons & Hq & HC' & Hx)].
           ++ by left; left.
           ++ left; right. congruence.
           ++ right. by exists k', C'.
      * intros k' [->|Hk']%elem_of_cons; [by eauto|by apply Hall].
    + intros [Hchar Hall]%IH. split.
      * intros x. rewrite Hchar. split.
        -- intros [Hx|(k' & C' & Hk' & Hq & HC' & Hx)]; [by left|].
           right. exists k', C'. split_and!; [by right|done..].
        -- intros [Hx|(k' & C' & [->|Hk']%elem_of_cons & Hq & HC' & Hx)].
           ++ by left.
           ++ congruence.
           ++ right. by exists k', C'.
      * intros k' [->|Hk']%elem_of_cons; [by eauto|by apply Hall].
Qed.

(** X7: ExtendingTypes is monotone in the active set: when
    [find_extending_structs] returns for two active sets, one included in
    the other, so are its results. *)
Theorem X7_extending_types_monotone limit mappings (active active' : gset string)
    E E' :
  active ⊆ active' →
  find_extending_structs limit active mappings = Ok E →
  find_extending_structs limit active' mappings = Ok E' →
  E ⊆ E'.
Proof.
  intros Hsub [HE _]%find_extending_structs_inv
         [HE' Hall']%find_extending_structs_inv.
  intros x [Hx|(k & C & Hk & Htrue & HC & Hx)]%HE; [set_solver|].
  apply HE'. right. exists k, C. split_and!; [done| |done..].
  destruct (Hall' k Hk) as [[] Hb]; [done|].
  exfalso. eapply struct_extends_any_false; [exact Hb|].
  eapply qualifies_mono; [exact Hsub|]. by eapply struct_extends_any_true.
Qed.

Lemma X7_extending_types_monotone_witness :
  let E : gset string := {["VkChained"; "VkInner"; "VkChained2"; "VkLeaf"]} in
  let E' : gset string :=
    {["VkChained"; "VkInner"; "VkChained2"; "VkLeaf"; "VkOther"]} in
  ({["VkSamplerCreateInfo"]} : gset string)
    ⊆ {["VkSamplerCreateInfo"; "VkDeviceCreateInfo"]}
  ∧ find_extending_structs 8 {["VkSamplerCreateInfo"]} sample_table = Ok E
  ∧ find_extending_structs 8 {["VkSamplerCreateInfo"; "VkDeviceCreateInfo"]}
      sample_table = Ok E'
  ∧ E ⊆ E'.
Proof.
  intros E E'.
  assert (({["VkSamplerCreateInfo"]} : gset string)
            ⊆ {["VkSamplerCreateInfo"; "VkDeviceCreateInfo"]}) as Hsub
    by set_solver.
  assert (find_extending_structs 8 {["VkSamplerCreateInfo"]} sample_table
          = Ok E) as HE by evaluates.
  assert (find_extending_structs 8
            {["VkSamplerCreateInfo"; "VkDeviceCreateInfo"]} sample_table
          = Ok E') as HE' by evaluates.
  split; [exact Hsub|]. split; [exact HE|]. split; [exact HE'|].
  exact (X7_extending_types_monotone 8 sample_table _ _ E E' Hsub HE HE').
Defined.

(** X8: ExtendingTypes is closed under known member types, and it is empty
    when no structure names an active chain target. *)
Theorem X8_extending_types_closed limit mappings active_types E :
  find_extending_structs limit active_types mappings = Ok E →
  member_closed mappings E
  ∧ ((∀ x e, extends_edge mappings x e → e ∉ active_types) → E = ∅).
Proof.
  intros [HE _]%find_extending_structs_inv. split.
  - intros s m [Hs|(k & C & Hk & Htrue & HC & Hs)]%HE Hmem Hdom; [set_solver|].
    apply HE. right. exists k, C. split_and!; [done..|].
    apply traverse_active_struct_types_least in HC as (_ & Hcl & _).
    by eapply Hcl.
  - intros Hnone. apply set_eq. intros x. split; [|set_solver].
    intros [Hx|(k & C & Hk & Htrue & _)]%HE; [done|].
    apply struct_extends_any_true, qualifies_active_target in Htrue
      as (y & e & Hedge & Hact).
    by destruct (Hnone y e Hedge).
Qed.

Lemma X8_extending_types_closed_witness :
  let E : gset string := {["VkChained"; "VkInner"; "VkChained2"; "VkLeaf"]} in
  find_extending_structs 8 {["VkSamplerCreateInfo"]} sample_table = Ok E
  ∧ member_closed sample_table E
  ∧ ((∀ x e, extends_edge sample_table x e →
             e ∉ ({["VkSamplerCreateInfo"]} : gset string)) → E = ∅).
Proof.
  intros E.
  assert (find_extending_structs 8 {["VkSamplerCreateInfo"]} sample_table
          = Ok E) as HE by evaluates.
  split; [exact HE|].
  exact (X8_extending_types_closed 8 sample_table _ E HE).
Defined.

(** ** Enum activation resolver: what it computes *)

Lemma activate_member_spec enum_types bitmask_reqs acc m e :
  e ∈ activate_member enum_types bitmask_reqs acc m
  ↔ e ∈ acc
    ∨ (bitmask_reqs !! m = Some e
       ∨ (bitmask_reqs !! m = None ∧ m ∈ dom enum_types ∧ e = m)).
Proof.
  unfold activate_member. destruct (bitmask_reqs !! m) as [req|].
  - rewrite elem_of_union, elem_of_singleton. naive_solver.
  - case_decide; [rewrite elem_of_union, elem_of_singleton|]; naive_solver.
Qed.

Lemma activate_members_spec enum_types bitmask_reqs ms :
  ∀ acc e,
    e ∈ fold_left (activate_member enum_types bitmask_reqs) ms acc
    ↔ e ∈ acc
      ∨ ∃ m, m ∈ ms
             ∧ (bitmask_reqs !! m = Some e
                ∨ (bitmask_reqs !! m = None ∧ m ∈ dom enum_types ∧ e = m)).
Proof.
  induction ms as [|m ms IH]; intros acc e; simpl.
  - split; [by left|]. intros [He|(m & Hm & _)]; [done|].
    by apply elem_of_nil in Hm.
  - rewrite IH, activate_member_spec. split.
    + intros [[He|Hcase]|(m' & Hm' & Hcase)]; [by left| |].
      * right. exists m. split; [left|done].
      * right. exists m'. split; [by right|done].
    + intros [He|(m' & [->|Hm']%elem_of_cons & Hcase)].
      * by left; left.
      * by left; right.
      * right. by exists m'.
Qed.

Lemma activate_structs_spec mappings enum_types bitmask_reqs ts :
  ∀ acc R,
    for_each (activate_struct mappings enum_types bitmask_reqs) acc ts = Ok R →
    ∀ e, e ∈ R ↔ e ∈ acc ∨ ∃ t, t ∈ ts
                              ∧ activates mappings enum_types bitmask_reqs t e.
Proof.
  induction ts as [|t ts IH]; intros acc R.
  - intros [= <-] e. split; [by left|]. intros [He|(t & Ht & _)]; [done|].
    by apply elem_of_nil in Ht.
  - rewrite for_each_cons.
    destruct (mappings !! t) as [st|] eqn:Hst.
    2:{ assert (activate_struct mappings enum_types bitmask_reqs acc t
                = Raise KeyError) as ->; [|done].
        unfold activate_struct. by rewrite Hst. }
    assert (activate_struct mappings enum_types bitmask_reqs acc t
            = Ok (fold_left (activate_member enum_types bitmask_reqs)
                    (member_types st) acc)) as ->.
    { unfold activate_struct. by rewrite Hst. }
    simpl.
    intros HR e. rewrite (IH _ _ HR e), activate_members_spec. split.
    + intros [[He|(m & Hm & Hcase)]|(t' & Ht' & Hact)]; [by left| |].
      * right. exists t. split; [left|]. by exists st, m.
      * right. exists t'. split; [by right|done].
    + intros [He|(t' & [->|Ht']%elem_of_cons & Hact)]; [by left; left| |].
      * left; right. destruct Hact as (st' & m & Hst' & Hm & Hcase).
        simplify_eq. by exists m.
      * right. by exists t'.
Qed.

(** X9: ActiveEnums holds exactly the enumerations activated by a member
    of a structure of ActiveTypes or ExtendingTypes: the requirement of a
    member bitmask, whether or not that requirement is a known
    enumeration, or else the member itself when it is a known
    enumeration. *)
Theorem X9_active_enums_characterised active_types extending_types mappings
    enum_types bitmask_reqs R :
  find_active_enum_types active_types extending_types mappings enum_types
    bitmask_reqs = Ok R →
  ∀ e, e ∈ R ↔ ∃ t, t ∈ active_types ∪ extending_types
                    ∧ activates mappings enum_types bitmask_reqs t e.
Proof.
  unfold find_active_enum_types.
  destruct (for_each _ ∅ (elements active_types)) as [R1|] eqn:H1; [|done].
  simpl. intros H2 e.
  rewrite (activate_structs_spec _ _ _ _ _ _ H2 e).
  rewrite (activate_structs_spec _ _ _ _ _ _ H1 e). split.
  - intros [[He|(t & Ht%elem_of_elements & Hact)]
           |(t & Ht%elem_of_elements & Hact)]; [set_solver| |].
    + exists t. split; [set_solver|done].
    + exists t. split; [set_solver|done].
  - intros (t & [Ht|Ht]%elem_of_union & Hact).
    + left; right. exists t. split; [by apply elem_of_elements|done].
    + right. exists t. split; [by apply elem_of_elements|done].
Qed.

Lemma X9_active_enums_characterised_witness :
  let mappings : gmap string StructType :=
    {["VkSamplerCreateInfo" := mkStructType ∅ ["VkSamplerCreateFlags"; "VkFilter"]]} in
  let enum_types : gmap string EnumType := {["VkFilter" := mkEnumType ∅]} in
  let bitmask_reqs : gmap string string :=
    {["VkSamplerCreateFlags" := "VkSamplerCreateFlagBits"]} in
  let R : gset string := {["VkSamplerCreateFlagBits"; "VkFilter"]} in
  find_active_enum_types {["VkSamplerCreateInfo"]} ∅ mappings enum_types
    bitmask_reqs = Ok R
  ∧ ∀ e, e ∈ R ↔ ∃ t, t ∈ ({["VkSamplerCreateInfo"]} : gset string) ∪ ∅
                      ∧ activates mappings enum_types bitmask_reqs t e.
Proof.
  intros mappings enum_types bitmask_reqs R.
  assert (find_active_enum_types {["VkSamplerCreateInfo"]} ∅ mappings
            enum_types bitmask_reqs = Ok R) as HR by evaluates.
  split; [exact HR|].
  exact (X9_active_enums_characterised _ _ _ _ _ R HR).
Defined.

Lemma activate_structs_missing mappings enum_types bitmask_reqs ts t :
  t ∈ ts → t ∉ dom mappings →
  ∀ acc, for_each (activate_struct mappings enum_types bitmask_reqs) acc ts
         = Raise KeyError.
Proof.
  intros Hin Hmissing%not_elem_of_dom.
  induction ts as [|t' ts IH]; intros acc; [by apply elem_of_nil in Hin|].
  rewrite for_each_cons.
  destruct (mappings !! t') as [st|] eqn:Hst.
  2:{ assert (activate_struct mappings enum_types bitmask_reqs acc t'
              = Raise KeyError) as ->; [|done].
      unfold activate_struct. by rewrite Hst. }
  assert (activate_struct mappings enum_types bitmask_reqs acc t'
          = Ok (fold_left (activate_member enum_types bitmask_reqs)
                  (member_types st) acc)) as ->.
  { unfold activate_struct. by rewrite Hst. }
  simpl.
  apply elem_of_cons in Hin as [->|Hin]; [congruence|]. by apply IH.
Qed.

(** X10: [find_active_enum_types] indexes the structure table without a
    membership test: it returns when ActiveTypes and ExtendingTypes hold
    only known structures, and raises [KeyError] as soon as either holds a
    name that is not a key of the table. *)
Theorem X10_active_enums_key_error active_types extending_types mappings
    enum_types bitmask_reqs :
  (active_types ∪ extending_types ⊆ dom mappings →
   ∃ R, find_active_enum_types active_types extending_types mappings
          enum_types bitmask_reqs = Ok R)
  ∧ (¬ (active_types ∪ extending_types ⊆ dom mappings) →
     find_active_enum_types active_types extending_types mappings
       enum_types bitmask_reqs = Raise KeyError).
Proof.
  split.
  - intros Hknown. apply find_active_enum_types_ok; set_solver.
  - intros Hunknown. unfold find_active_enum_types.
    destruct (decide (active_types ⊆ dom mappings)) as [HA|HA].
    + destruct (activate_structs_ok mappings enum_types bitmask_reqs
                  (elements active_types)) with (acc := (∅ : gset string))
        as [R1 ->].
      { intros t Ht%elem_of_elements. by apply HA. }
      simpl.
      assert (¬ set_Forall (λ t, t ∈ dom mappings) extending_types) as HE.
      { intros HE. apply Hunknown. intros t [Ht|Ht]%elem_of_union;
          [by apply HA|by apply HE]. }
      apply not_set_Forall_Exists in HE as (t & Ht & Hmissing); [|apply _].
      eapply activate_structs_missing; [|exact Hmissing].
      by apply elem_of_elements.
    + assert (¬ set_Forall (λ t, t ∈ dom mappings) active_types) as HA'.
      { intros HA'. apply HA. intros t Ht. by apply HA'. }
      apply not_set_Forall_Exists in HA' as (t & Ht & Hmissing); [|apply _].
      rewrite (activate_structs_missing mappings enum_types bitmask_reqs
                 (elements active_types) t); [done| |exact Hmissing].
      by apply elem_of_elements.
Qed.

(** ** Alias table *)

Lemma collect_aliases_from (ts : list TypeElem) :
  ∀ (acc al : gmap string string),
    for_each
      (λ (type_aliases : gmap string string) (t : TypeElem),
         match type_alias t with
         | None => Ok type_aliases
         | Some a => name ← attrib (type_name t); Ok (<[name := a]> type_aliases)
         end)
      acc ts = Ok al →
    ∀ n, al !! n = match last (omap (alias_for n) ts) with
                   | Some a => Some a
                   | None => acc !! n
                   end.
Proof.
  induction ts as [|t ts IH]; intros acc al.
  - by intros [= <-] n.
  - rewrite for_each_cons.
    destruct (type_alias t) as [a|] eqn:Ha.
    + destruct (type_name t) as [name|] eqn:Hname; [|done]. simpl.
      intros Hrest n. rewrite (IH _ _ Hrest n).
      change (omap (alias_for n) (t :: ts))
        with (match alias_for n t with
              | Some b => b :: omap (alias_for n) ts
              | None => omap (alias_for n) ts
              end).
      unfold alias_for at 2. rewrite Hname, Ha.
      destruct (decide (Some name = Some n)) as [[= ->]|Hne].
      * rewrite last_cons. rewrite lookup_insert_eq.
        change (list_omap _ _ (alias_for n) ts) with (omap (alias_for n) ts).
        by destruct (last (omap (alias_for n) ts)).
      * rewrite lookup_insert_ne by congruence. done.
    + simpl. intros Hrest n. rewrite (IH _ _ Hrest n).
      change (omap (alias_for n) (t :: ts))
        with (match alias_for n t with
              | Some b => b :: omap (alias_for n) ts
              | None => omap (alias_for n) ts
              end).
      unfold alias_for at 2. rewrite Ha. by case_decide.
Qed.

(** X11: the alias table maps a name to the alias of its last declaration
    that carries one; names never declared with an alias are absent, so
    [resolve] leaves them unchanged. *)
Theorem X11_alias_table_last_declaration ts al :
  collect_aliases ts = Ok al →
  ∀ n, al !! n = last (omap (alias_for n) ts)
       ∧ (omap (alias_for n) ts = [] → resolve al n = n).
Proof.
  intros Hal n.
  pose proof (collect_aliases_from ts ∅ al Hal n) as Hn.
  rewrite lookup_empty in Hn.
  assert (al !! n = last (omap (alias_for n) ts)) as Hlast.
  { rewrite Hn. by destruct (last (omap (alias_for n) ts)). }
  split; [done|]. intros Hnone. unfold resolve. by rewrite Hlast, Hnone.
Qed.

Lemma X11_alias_table_last_declaration_witness :
  let ts := [alias_elem "VkFooKHR" "VkFooEXT"; enum_elem "VkFilter";
             alias_elem "VkFooKHR" "VkFoo"] in
  let al : gmap string string := {["VkFooKHR" := "VkFoo"]} in
  collect_aliases ts = Ok al
  ∧ ∀ n, al !! n = last (omap (alias_for n) ts)
         ∧ (omap (alias_for n) ts = [] → resolve al n = n).
Proof.
  intros ts al.
  assert (collect_aliases ts = Ok al) as Hal by evaluates.
  split; [exact Hal|].
  exact (X11_alias_table_last_declaration ts al Hal).
Defined.

(** X12: an element that carries an alias but no name makes the alias
    pass raise [KeyError]; when every aliased element is named the pass
    returns. *)
Theorem X12_alias_table_key_error ts :
  (Forall (λ t, is_Some (type_alias t) → is_Some (type_name t)) ts →
   ∃ al, collect_aliases ts = Ok al)
  ∧ (Exists (λ t, is_Some (type_alias t) ∧ type_name t = None) ts →
     collect_aliases ts = Raise KeyError).
Proof.
  unfold collect_aliases. generalize (∅ : gmap string string) as acc. split.
  - intros Hall. revert acc.
    induction Hall as [|t ts Ht _ IH]; intros acc; [by eexists|].
    rewrite for_each_cons. destruct (type_alias t) as [a|]; [|apply IH].
    destruct Ht as [name ->]; [done|]. simpl. apply IH.
  - intros Hex. revert acc.
    induction Hex as [t ts [[a Ha] Hname]|t ts _ IH]; intros acc;
      rewrite for_each_cons.
    + by rewrite Ha, Hname.
    + destruct (type_alias t) as [a|]; [|apply IH].
      destruct (type_name t) as [name|]; [apply IH|done].
Qed.

Lemma X10_active_enums_key_error_witness :
  ¬ (({["VkGone"]} : gset string) ∪ ∅ ⊆ dom (∅ : gmap string StructType))
  ∧ find_active_enum_types {["VkGone"]} ∅ ∅ ∅ ∅ = Raise KeyError.
Proof.
  assert (¬ (({["VkGone"]} : gset string) ∪ ∅
             ⊆ dom (∅ : gmap string StructType))) as Hmissing.
  { intros Hsub. specialize (Hsub "VkGone"). set_solver. }
  split; [exact Hmissing|].
  exact (proj2 (X10_active_enums_key_error {["VkGone"]} ∅ ∅ ∅ ∅) Hmissing).
Defined.

Lemma X12_alias_table_key_error_witness :
  let nameless := mkTypeElem None (Some "VkFoo") None None None None None [] in
  Exists (λ t, is_Some (type_alias t) ∧ type_name t = None)
    [enum_elem "VkFilter"; nameless]
  ∧ collect_aliases [enum_elem "VkFilter"; nameless] = Raise KeyError.
Proof.
  intros nameless.
  assert (Exists (λ t, is_Some (type_alias t) ∧ type_name t = None)
            [enum_elem "VkFilter"; nameless]) as Hex.
  { apply Exists_cons_tl, Exists_cons_hd. split; [by eexists|done]. }
  split; [exact Hex|].
  exact (proj2 (X12_alias_table_key_error _) Hex).
Defined.

(** ** Model builder *)

Lemma struct_members_from type_aliases (ms : list MemberElem) :
  ∀ acc : list string,
    for_each
      (λ (member_types : list string) (elem : MemberElem),
         member_type ← child_text (member_type elem);
         Ok (member_types ++ [resolve type_aliases member_type]))
      acc ms
    = match mapM member_type ms with
      | Some raw => Ok (acc ++ (resolve type_aliases <$> raw))
      | None => Raise AttributeError
      end.
Proof.
  induction ms as [|m ms IH]; intros acc.
  - simpl. by rewrite app_nil_r.
  - rewrite for_each_cons. cbn [mapM].
    destruct (member_type m) as [ty|]; simpl; [|done].
    rewrite IH. destruct (mapM member_type ms) as [raw|]; simpl; [|done].
    by rewrite <-app_assoc.
Qed.

Lemma struct_members_unfold type_aliases t :
  struct_members type_aliases t
  = match mapM member_type (type_members t) with
    | Some raw => Ok (resolve type_aliases <$> raw)
    | None => Raise AttributeError
    end.
Proof. unfold struct_members. by rewrite struct_members_from. Qed.

(** X13: the member types of a structure declaration are stored in
    declaration order, each alias-resolved once; a member without a type
    child makes the builder raise [AttributeError]. *)
Theorem X13_struct_members_resolved type_aliases t :
  struct_members type_aliases t
  = match mapM member_type (type_members t) with
    | Some raw => Ok (resolve type_aliases <$> raw)
    | None => Raise AttributeError
    end.
Proof. apply struct_members_unfold. Qed.

Lemma pnext_size_rows_hit targets t name :
  (∃ e, e ∈ targets ∧ e ∈ top_level_types_pipeline) →
  pnext_size_rows targets t name
  = (first ← child_text (head (type_members t));
     stype ← attrib (member_values first);
     Ok (size_row stype name)).
Proof.
  induction targets as [|e es IH]; simpl.
  - intros (e & Hin & _). by apply elem_of_nil in Hin.
  - intros (e' & Hin & Hroot). case_decide as Hdec; [done|].
    apply IH. exists e'. split; [|done].
    apply elem_of_cons in Hin as [->|Hin]; done.
Qed.

Lemma names_pipeline_root (EXTENDS : gset string) :
  EXTENDS ∩ top_level_types_pipeline ≠ ∅
  ↔ ∃ e, e ∈ elements EXTENDS ∧ e ∈ top_level_types_pipeline.
Proof.
  split.
  - intros (e & [He Hroot]%elem_of_intersection)%set_choose_L.
    exists e. split; [by apply elem_of_elements|done].
  - intros (e & He%elem_of_elements & Hroot). set_solver.
Qed.

Lemma struct_extends_rows type_aliases t name :
  struct_extends type_aliases t name
  = (rows ← (if decide (declared_extends type_aliases t
                         ∩ top_level_types_pipeline ≠ ∅)
             then first ← child_text (head (type_members t));
                  stype ← attrib (member_values first);
                  Ok (size_row stype name)
             else Ok "");
     Ok (declared_extends type_aliases t, rows)).
Proof.
  unfold struct_extends, declared_extends.
  destruct (type_structextends t) as [raw|].
  - case_decide as Hroot.
    + rewrite pnext_size_rows_hit; [done|]. by apply names_pipeline_root.
    + rewrite pnext_size_rows_none; [done|].
      intros e He%elem_of_elements Hr. set_solver.
  - rewrite decide_False; [done|]. set_solver.
Qed.

(** X14: a structure declaration that names a pipeline root and has no
    member makes the builder raise [AttributeError]; one whose first
    member carries no [values] attribute makes it raise [KeyError]; a
    structure that names no pipeline root is entered in the table without
    its first member being looked at. *)
Theorem X14_size_row_errors type_aliases md t name :
  type_category t = Some "struct" → type_name t = Some name →
  let EXTENDS := declared_extends type_aliases t in
  (EXTENDS ∩ top_level_types_pipeline ≠ ∅ → type_members t = [] →
   build_type type_aliases md t = Raise AttributeError)
  ∧ (∀ first,
       EXTENDS ∩ top_level_types_pipeline ≠ ∅ →
       head (type_members t) = Some first → member_values first = None →
       build_type type_aliases md t = Raise KeyError)
  ∧ (∀ ms,
       EXTENDS ∩ top_level_types_pipeline = ∅ →
       struct_members type_aliases t = Ok ms →
       build_type type_aliases md t
       = Ok (mkModel (shallow_copy_pnext_size_lut md)
               (<[name := mkStructType EXTENDS ms]> (struct_types md))
               (enum_types md) (bitmask_requirements md))).
Proof.
  intros Hcat Hname EXTENDS. subst EXTENDS.
  unfold build_type. rewrite Hcat, Hname. simpl.
  rewrite struct_extends_rows. split_and!.
  - intros Hroot Hnil. rewrite decide_True by done. by rewrite Hnil.
  - intros first Hroot Hfirst Hvalues. rewrite decide_True by done.
    rewrite Hfirst. simpl. by rewrite Hvalues.
  - intros ms Hnone Hms. rewrite decide_False by (intros Hne; by apply Hne).
    simpl. rewrite Hms. simpl. by rewrite append_empty_r.
Qed.

Lemma X14_size_row_errors_witness :
  let untagged :=
    struct_elem "VkPipelineExtEXT" (Some ["VkComputePipelineCreateInfo"])
      [member "uint32_t"] in
  declared_extends ∅ untagged ∩ top_level_types_pipeline ≠ ∅
  ∧ build_type ∅ (mkModel "" ∅ ∅ ∅) untagged = Raise KeyError.
Proof.
  intros untagged.
  assert (declared_extends ∅ untagged ∩ top_level_types_pipeline ≠ ∅) as Hroot.
  { apply (bool_decide_unpack _). vm_compute. exact I. }
  split; [exact Hroot|].
  exact (proj1 (proj2 (X14_size_row_errors ∅ (mkModel "" ∅ ∅ ∅) untagged
                         "VkPipelineExtEXT" eq_refl eq_refl))
           (member "uint32_t") Hroot eq_refl eq_refl).
Defined.

(** The four ways [build_type] returns. *)
Lemma build_type_cases type_aliases md t md' :
  build_type type_aliases md t = Ok md' →
  (∃ n ms, struct_decl t n ∧ struct_members type_aliases t = Ok ms
           ∧ md' = mkModel
                     (shallow_copy_pnext_size_lut md
                      +:+ size_table_rows type_aliases t)
                     (<[n := mkStructType (declared_extends type_aliases t) ms]>
                        (struct_types md))
                     (enum_types md) (bitmask_requirements md))
  ∨ (∃ e, enum_decl type_aliases t e ∧ ¬ excluded_enum e
          ∧ size_table_rows type_aliases t = ""
          ∧ md' = mkModel (shallow_copy_pnext_size_lut md) (struct_types md)
                    (<[e := mkEnumType ∅]> (enum_types md))
                    (bitmask_requirements md))
  ∨ (∃ b req, bitmask_decl t b req
              ∧ size_table_rows type_aliases t = ""
              ∧ md' = mkModel (shallow_copy_pnext_size_lut md) (struct_types md)
                        (enum_types md) (<[b := req]> (bitmask_requirements md)))
  ∨ (md' = md ∧ size_table_rows type_aliases t = ""
     ∧ (∀ n, ¬ struct_decl t n)
     ∧ (∀ e, enum_decl type_aliases t e → excluded_enum e)
     ∧ (∀ b req, ¬ bitmask_decl t b req)).
Proof.
  unfold build_type, size_table_rows.
  destruct (type_category t) as [category|] eqn:Hcat.
  2:{ intros [= <-]. right; right; right.
      rewrite decide_False by done. split_and!; [done..| | |].
      - intros n [? _]. congruence.
      - intros e [? _]. congruence.
      - intros b req [? _]. congruence. }
  destruct (decide (category = "struct")) as [->|Hns].
  { rewrite decide_True by done.
    destruct (type_name t) as [n|] eqn:Hname; [|done]. simpl.
    rewrite struct_extends_rows.
    destruct (decide (declared_extends type_aliases t
                      ∩ top_level_types_pipeline ≠ ∅)) as [Hroot|Hroot].
    - destruct (head (type_members t)) as [first|]; [|done]. simpl.
      destruct (member_values first) as [stype|]; [|done]. simpl.
      destruct (struct_members type_aliases t) as [ms|] eqn:Hms; [|done].
      simpl. intros [= <-]. left. exists n, ms. by split_and!.
    - simpl. destruct (struct_members type_aliases t) as [ms|] eqn:Hms; [|done].
      simpl. intros [= <-]. left. exists n, ms. split_and!; [done..|].
      by destruct (head (type_members t)). }
  rewrite (decide_False (P := Some category = Some "struct")) by congruence.
  destruct (decide (category = "enum")) as [->|Hne].
  { destruct (type_name t) as [n|] eqn:Hname; [|done]. simpl.
    case_decide as Hex.
    - intros [= <-]. right; left. exists (resolve type_aliases n).
      split_and!; [by split; [|exists n]| |done..].
      unfold excluded_enum. naive_solver.
    - intros [= <-]. right; right; right. split_and!; [done..| | |].
      + intros n' [? _]. congruence.
      + intros e (_ & n' & Hn' & ->). simplify_eq.
        unfold excluded_enum.
        destruct (decide (resolve type_aliases n = "VkStructureType"));
          [by left|].
        destruct (decide (resolve type_aliases n = "VkFormat"));
          [by right; left|].
        destruct (decide (resolve type_aliases n = "VkObjectType"));
          [by right; right|].
        by destruct Hex.
      + intros b req [? _]. congruence. }
  destruct (decide (category = "bitmask")) as [->|Hnb].
  { destruct (type_requires t) as [req|] eqn:Hreq.
    - destruct (type_child_name t) as [b|] eqn:Hb; [|done]. simpl.
      intros [= <-]. right; right; left. exists b, req.
      split_and!; [by split_and!; [..|left]|done..].
    - destruct (type_bitvalues t) as [req|] eqn:Hbv.
      + destruct (type_child_name t) as [b|] eqn:Hb; [|done]. simpl.
        intros [= <-]. right; right; left. exists b, req.
        split_and!; [by split_and!; [..|right]|done..].
      + intros [= <-]. right; right; right. split_and!; [done..| | |].
        * intros n [? _]. congruence.
        * intros e [? _]. congruence.
        * intros b req (_ & _ & [?|[_ ?]]); congruence. }
  intros [= <-]. right; right; right. split_and!; [done..| | |].
  - intros n [? _]. congruence.
  - intros e [? _]. congruence.
  - intros b req [? _]. congruence.
Qed.

Lemma join_empty_cons (x : string) (l : list string) :
  join "" (x :: l) = x +:+ join "" l.
Proof.
  unfold join. destruct l as [|y l]; [by rewrite append_empty_r|done].
Qed.

Lemma append_assoc_string (a b c : string) : (a +:+ b) +:+ c = a +:+ b +:+ c.
Proof.
  induction a as [|x a IH]; [done|].
  change (String x ((a +:+ b) +:+ c) = String x (a +:+ b +:+ c)).
  by rewrite IH.
Qed.

(** What the builder loop leaves in the four tables, from any start. *)
Lemma build_model_from type_aliases ts :
  ∀ md0 md,
    for_each (build_type type_aliases) md0 ts = Ok md →
    shallow_copy_pnext_size_lut md
    = shallow_copy_pnext_size_lut md0
      +:+ join "" (size_table_rows type_aliases <$> ts)
    ∧ (∀ n, n ∈ dom (struct_types md)
            ↔ n ∈ dom (struct_types md0) ∨ ∃ t, t ∈ ts ∧ struct_decl t n)
    ∧ (∀ n st, struct_types md !! n = Some st →
               struct_types md0 !! n = Some st
               ∨ ∃ t ms, t ∈ ts ∧ struct_decl t n
                         ∧ struct_members type_aliases t = Ok ms
                         ∧ st = mkStructType
                                  (declared_extends type_aliases t) ms)
    ∧ (∀ e, e ∈ dom (enum_types md)
            ↔ e ∈ dom (enum_types md0)
              ∨ (¬ excluded_enum e
                 ∧ ∃ t, t ∈ ts ∧ enum_decl type_aliases t e))
    ∧ (∀ b req, bitmask_requirements md !! b = Some req →
                bitmask_requirements md0 !! b = Some req
                ∨ ∃ t, t ∈ ts ∧ bitmask_decl t b req)
    ∧ (∀ b, b ∈ dom (bitmask_requirements md)
            ↔ b ∈ dom (bitmask_requirements md0)
              ∨ ∃ t req, t ∈ ts ∧ bitmask_decl t b req).
Proof.
  induction ts as [|t ts IH]; intros md0 md.
  - intros [= <-]. split_and!.
    + by rewrite append_empty_r.
    + intros n. split; [by left|]. intros [?|(t & Ht & _)]; [done|].
      by apply elem_of_nil in Ht.
    + intros n st Hn. by left.
    + intros e. split; [by left|]. intros [?|(_ & t & Ht & _)]; [done|].
      by apply elem_of_nil in Ht.
    + intros b req Hb. by left.
    + intros b. split; [by left|]. intros [?|(t & req & Ht & _)]; [done|].
      by apply elem_of_nil in Ht.
  - rewrite for_each_cons.
    destruct (build_type type_aliases md0 t) as [md1|] eqn:Hstep; [|done].
    intros Hrest.
    change (for_each (build_type type_aliases) md1 ts = Ok md) in Hrest.
    apply IH in Hrest as (Hlut & Hsd & Hsl & Hed & Hbl & Hbd).
    rewrite fmap_cons, join_empty_cons.
    apply build_type_cases in Hstep
      as [(n & ms & Hdecl & Hms & ->)
         |[(e & Hdecl & Hnex & Hrows & ->)
          |[(b & req & Hdecl & Hrows & ->)
           |(-> & Hrows & Hns & Hne & Hnb)]]]; simpl in *.
    + assert (∀ e, ¬ enum_decl type_aliases t e) as Hne.
      { intros e [Hcat _]. destruct Hdecl as [Hcat' _]. congruence. }
      assert (∀ b req, ¬ bitmask_decl t b req) as Hnb.
      { intros b req [Hcat _]. destruct Hdecl as [Hcat' _]. congruence. }
      assert (∀ n', struct_decl t n' → n' = n) as Hsame.
      { intros n' [_ Hn']. destruct Hdecl as [_ Hn]. congruence. }
      split_and!.
      * by rewrite Hlut, append_assoc_string.
      * intros n'. rewrite Hsd, dom_insert, elem_of_union, elem_of_singleton.
        split.
        -- intros [[->|?]|(t' & Ht' & Hd')]; [right; exists t|by left|].
           ++ split; [left|done].
           ++ right. exists t'. split; [by right|done].
        -- intros [?|(t' & [->|Ht']%elem_of_cons & Hd')]; [by left; right| |].
           ++ left; left. by apply Hsame.
           ++ right. by exists t'.
      * intros n' st [Hn'|(t' & ms' & Ht' & Hrest)]%Hsl.
        -- destruct (decide (n = n')) as [->|Hneq].
           ++ rewrite lookup_insert_eq in Hn'. injection Hn' as <-.
              right. exists t, ms. split_and!; [left|done..].
           ++ rewrite lookup_insert_ne in Hn' by done. by left.
        -- right. exists t', ms'. split; [by right|done].
      * intros e. rewrite Hed. split.
        -- intros [?|(Hx & t' & Ht' & Hd')]; [by left|].
           right. split; [done|]. exists t'. split; [by right|done].
        -- intros [?|(Hx & t' & [->|Ht']%elem_of_cons & Hd')]; [by left| |].
           ++ by destruct (Hne e).
           ++ right. split; [done|]. by exists t'.
      * intros b req [?|(t' & Ht' & Hd')]%Hbl; [by left|].
        right. exists t'. split; [by right|done].
      * intros b. rewrite Hbd. split.
        -- intros [?|(t' & req & Ht' & Hd')]; [by left|].
           right. exists t', req. split; [by right|done].
        -- intros [?|(t' & req & [->|Ht']%elem_of_cons & Hd')]; [by left| |].
           ++ by destruct (Hnb b req).
           ++ right. by exists t', req.
    + assert (∀ n, ¬ struct_decl t n) as Hns.
      { intros n [Hcat _]. destruct Hdecl as [Hcat' _]. congruence. }
      assert (∀ b req, ¬ bitmask_decl t b req) as Hnb.
      { intros b req [Hcat _]. destruct Hdecl as [Hcat' _]. congruence. }
      assert (∀ e', enum_decl type_aliases t e' → e' = e) as Hsame.
      { intros e' (_ & n' & Hn' & ->). destruct Hdecl as (_ & n & Hn & ->).
        congruence. }
      split_and!.
      * by rewrite Hlut, Hrows.
      * intros n. rewrite Hsd. split.
        -- intros [?|(t' & Ht' & Hd')]; [by left|].
           right. exists t'. split; [by right|done].
        -- intros [?|(t' & [->|Ht']%elem_of_cons & Hd')]; [by left| |].
           ++ by destruct (Hns n).
           ++ right. by exists t'.
      * intros n st [?|(t' & ms' & Ht' & Hrest)]%Hsl; [by left|].
        right. exists t', ms'. split; [by right|done].
      * intros e'. rewrite Hed, dom_insert, elem_of_union, elem_of_singleton.
        split.
        -- intros [[->|?]|(Hx & t' & Ht' & Hd')]; [|by left|].
           ++ right. split; [done|]. exists t. split; [left|done].
           ++ right. split; [done|]. exists t'. split; [by right|done].
        -- intros [?|(Hx & t' & [->|Ht']%elem_of_cons & Hd')];
             [by left; right| |].
           ++ left; left. by apply Hsame.
           ++ right. split; [done|]. by exists t'.
      * intros b req [?|(t' & Ht' & Hd')]%Hbl; [by left|].
        right. exists t'. split; [by right|done].
      * intros b. rewrite Hbd. split.
        -- intros [?|(t' & req & Ht' & Hd')]; [by left|].
           right. exists t', req. split; [by right|done].
        -- intros [?|(t' & req & [->|Ht']%elem_of_cons & Hd')]; [by left| |].
           ++ by destruct (Hnb b req).
           ++ right. by exists t', req.
    + assert (∀ n, ¬ struct_decl t n) as Hns.
      { intros n [Hcat _]. destruct Hdecl as [Hcat' _]. congruence. }
      assert (∀ e, ¬ enum_decl type_aliases t e) as Hne.
      { intros e [Hcat _]. destruct Hdecl as [Hcat' _]. congruence. }
      assert (∀ b' req', bitmask_decl t b' req' → b' = b ∧ req' = req) as Hsame.
      { intros b' req' (_ & Hb' & Hr'). destruct Hdecl as (_ & Hb & Hr).
        split; [congruence|]. destruct Hr' as [?|[? ?]], Hr as [?|[? ?]];
          congruence. }
      split_and!.
      * by rewrite Hlut, Hrows.
      * intros n. rewrite Hsd. split.
        -- intros [?|(t' & Ht' & Hd')]; [by left|].
           right. exists t'. split; [by right|done].
        -- intros [?|(t' & [->|Ht']%elem_of_cons & Hd')]; [by left| |].
           ++ by destruct (Hns n).
           ++ right. by exists t'.
      * intros n st [?|(t' & ms' & Ht' & Hrest)]%Hsl; [by left|].
        right. exists t', ms'. split; [by right|done].
      * intros e. rewrite Hed. split.
        -- intros [?|(Hx & t' & Ht' & Hd')]; [by left|].
           right. split; [done|]. exists t'. split; [by right|done].
        -- intros [?|(Hx & t' & [->|Ht']%elem_of_cons & Hd')]; [by left| |].
           ++ by destruct (Hne e).
           ++ right. split; [done|]. by exists t'.
      * intros b' req' [Hb'|(t' & Ht' & Hd')]%Hbl.
        -- destruct (decide (b = b')) as [->|Hneq].
           ++ rewrite lookup_insert_eq in Hb'. injection Hb' as <-.
              right. exists t. split; [left|done].
           ++ rewrite lookup_insert_ne in Hb' by done. by left.
        -- right. exists t'. split; [by right|done].
      * intros b'. rewrite Hbd, dom_insert, elem_of_union, elem_of_singleton.
        split.
        -- intros [[->|?]|(t' & req' & Ht' & Hd')]; [|by left|].
           ++ right. exists t, req. split; [left|done].
           ++ right. exists t', req'. split; [by right|done].
        -- intros [?|(t' & req' & [->|Ht']%elem_of_cons & Hd')];
             [by left; right| |].
           ++ left; left. by destruct (Hsame b' req' Hd').
           ++ right. by exists t', req'.
    + split_and!.
      * by rewrite Hlut, Hrows.
      * intros n. rewrite Hsd. split.
        -- intros [?|(t' & Ht' & Hd')]; [by left|].
           right. exists t'. split; [by right|done].
        -- intros [?|(t' & [->|Ht']%elem_of_cons & Hd')]; [by left| |].
           ++ by destruct (Hns n).
           ++ right. by exists t'.
      * intros n st [?|(t' & ms' & Ht' & Hrest)]%Hsl; [by left|].
        right. exists t', ms'. split; [by right|done].
      * intros e. rewrite Hed. split.
        -- intros [?|(Hx & t' & Ht' & Hd')]; [by left|].
           right. split; [done|]. exists t'. split; [by right|done].
        -- intros [?|(Hx & t' & [->|Ht']%elem_of_cons & Hd')]; [by left| |].
           ++ destruct Hx. by apply Hne.
           ++ right. split; [done|]. by exists t'.
      * intros b req [?|(t' & Ht' & Hd')]%Hbl; [by left|].
        right. exists t'. split; [by right|done].
      * intros b. rewrite Hbd. split.
        -- intros [?|(t' & req & Ht' & Hd')]; [by left|].
           right. exists t', req. split; [by right|done].
        -- intros [?|(t' & req & [->|Ht']%elem_of_cons & Hd')]; [by left| |].
           ++ by destruct (Hnb b req).
           ++ right. by exists t', req.
Qed.

(** X15: the keys of the structure table are exactly the names, not
    alias-resolved, of the structure declarations, and every entry records
    the alias-resolved chain targets and member types of one of the
    declarations of that name. *)
Theorem X15_struct_table_provenance type_aliases ts md :
  build_model type_aliases ts = Ok md →
  (∀ n, n ∈ dom (struct_types md) ↔ ∃ t, t ∈ ts ∧ struct_decl t n)
  ∧ (∀ n st, struct_types md !! n = Some st →
             ∃ t raw, t ∈ ts ∧ struct_decl t n
                      ∧ mapM member_type (type_members t) = Some raw
                      ∧ extends st = declared_extends type_aliases t
                      ∧ member_types st = resolve type_aliases <$> raw).
Proof.
  intros (_ & Hsd & Hsl & _)%build_model_from. simpl in *. split.
  - intros n. rewrite Hsd. split; [|by right].
    intros [Hn|?]; [|done]. by rewrite dom_empty_L in Hn.
  - intros n st [Hn|(t & ms & Ht & Hdecl & Hms & ->)]%Hsl; [done|].
    rewrite struct_members_unfold in Hms.
    destruct (mapM member_type (type_members t)) as [raw|] eqn:Hraw; [|done].
    injection Hms as <-. by exists t, raw.
Qed.

Lemma X15_struct_table_provenance_witness :
  let ts := [struct_elem "VkFooKHR" (Some ["VkBarKHR"]) [member "VkBazKHR"]] in
  let al : gmap string string := {["VkBarKHR" := "VkBar"; "VkBazKHR" := "VkBaz"]} in
  let md := mkModel "" {["VkFooKHR" := mkStructType {["VkBar"]} ["VkBaz"]]} ∅ ∅ in
  build_model al ts = Ok md
  ∧ (∀ n, n ∈ dom (struct_types md) ↔ ∃ t, t ∈ ts ∧ struct_decl t n)
  ∧ (∀ n st, struct_types md !! n = Some st →
             ∃ t raw, t ∈ ts ∧ struct_decl t n
                      ∧ mapM member_type (type_members t) = Some raw
                      ∧ extends st = declared_extends al t
                      ∧ member_types st = resolve al <$> raw).
Proof.
  intros ts al md.
  assert (build_model al ts = Ok md) as Hmd by evaluates.
  split; [exact Hmd|].
  exact (X15_struct_table_provenance al ts md Hmd).
Defined.

(** X16: the enum table holds exactly the alias-resolved names of the enum
    declarations other than [VkStructureType], [VkFormat] and
    [VkObjectType]; these three are never entered, whether declared under
    their own name or reached through an alias. *)
Theorem X16_enum_table_provenance type_aliases ts md :
  build_model type_aliases ts = Ok md →
  (∀ e, e ∈ dom (enum_types md)
        ↔ ¬ excluded_enum e ∧ ∃ t, t ∈ ts ∧ enum_decl type_aliases t e)
  ∧ ("VkStructureType" ∉ dom (enum_types md))
  ∧ ("VkFormat" ∉ dom (enum_types md))
  ∧ ("VkObjectType" ∉ dom (enum_types md)).
Proof.
  intros (_ & _ & _ & Hed & _)%build_model_from. simpl in *.
  assert (∀ e, e ∈ dom (enum_types md)
               ↔ ¬ excluded_enum e ∧ ∃ t, t ∈ ts ∧ enum_decl type_aliases t e)
    as Hchar.
  { intros e. rewrite Hed. split; [|by right].
    intros [He|?]; [|done]. by rewrite dom_empty_L in He. }
  split; [done|]. unfold excluded_enum in Hchar.
  split_and!; intros [Hx _]%Hchar; apply Hx; auto.
Qed.

Lemma X16_enum_table_provenance_witness :
  let ts := [alias_elem "VkFormatKHR" "VkFormat"; enum_elem "VkFormatKHR";
             enum_elem "VkFilter"; enum_elem "VkObjectType"] in
  let al : gmap string string := {["VkFormatKHR" := "VkFormat"]} in
  let md := mkModel "" ∅ {["VkFilter" := mkEnumType ∅]} ∅ in
  build_model al ts = Ok md
  ∧ (∀ e, e ∈ dom (enum_types md)
          ↔ ¬ excluded_enum e ∧ ∃ t, t ∈ ts ∧ enum_decl al t e)
  ∧ ("VkStructureType" ∉ dom (enum_types md))
  ∧ ("VkFormat" ∉ dom (enum_types md))
  ∧ ("VkObjectType" ∉ dom (enum_types md)).
Proof.
  intros ts al md.
  assert (build_model al ts = Ok md) as Hmd by evaluates.
  split; [exact Hmd|].
  exact (X16_enum_table_provenance al ts md Hmd).
Defined.

(** X17: every bitmask requirement recorded stems from a bitmask
    declaration with that name child, and is its [requires] attribute or,
    only when that is absent, its [bitvalues] attribute; the bitmasks
    recorded are exactly those declared with one of the two. *)
Theorem X17_bitmask_table_provenance type_aliases ts md :
  build_model type_aliases ts = Ok md →
  (∀ b req, bitmask_requirements md !! b = Some req →
            ∃ t, t ∈ ts ∧ bitmask_decl t b req)
  ∧ (∀ b, b ∈ dom (bitmask_requirements md)
          ↔ ∃ t req, t ∈ ts ∧ bitmask_decl t b req).
Proof.
  intros (_ & _ & _ & _ & Hbl & Hbd)%build_model_from. simpl in *. split.
  - intros b req [Hb|?]%Hbl; done.
  - intros b. rewrite Hbd. split; [|by right].
    intros [Hb|?]; [|done]. by rewrite dom_empty_L in Hb.
Qed.

Lemma X17_bitmask_table_provenance_witness :
  let both :=
    mkTypeElem None None (Some "bitmask") None (Some "VkFooFlagBits")
      (Some "VkFooFlagBits2") (Some "VkFooFlags") [] in
  let md := mkModel "" ∅ ∅ {["VkFooFlags" := "VkFooFlagBits"]} in
  build_model ∅ [both] = Ok md
  ∧ (∀ b req, bitmask_requirements md !! b = Some req →
              ∃ t, t ∈ [both] ∧ bitmask_decl t b req)
  ∧ (∀ b, b ∈ dom (bitmask_requirements md)
          ↔ ∃ t req, t ∈ [both] ∧ bitmask_decl t b req).
Proof.
  intros both md.
  assert (build_model ∅ [both] = Ok md) as Hmd by evaluates.
  split; [exact Hmd|].
  exact (X17_bitmask_table_provenance ∅ [both] md Hmd).
Defined.

(** X18: the size table is the concatenation, in declaration order, of
    one row for each structure declaration that names a pipeline root and
    of nothing for every other declaration. *)
Theorem X18_size_table_rows_in_order type_aliases ts md :
  build_model type_aliases ts = Ok md →
  shallow_copy_pnext_size_lut md
  = join "" (size_table_rows type_aliases <$> ts).
Proof. by intros (Hlut & _)%build_model_from. Qed.

Lemma X18_size_table_rows_in_order_witness :
  let ts := [struct_elem "VkB" (Some ["VkDeviceCreateInfo"]) [stype_member "TAG_B"];
             enum_elem "VkFilter";
             struct_elem "VkPlain" (Some ["VkSamplerCreateInfo"]) [];
             two_roots_elem] in
  let md :=
    mkModel (size_row "TAG_B" "VkB"
             +:+ size_row "VK_STRUCTURE_TYPE_PIPELINE_EXT" "VkPipelineExtEXT")
      (list_to_map [
         ("VkB", mkStructType {["VkDeviceCreateInfo"]} ["VkStructureType"]);
         ("VkPlain", mkStructType {["VkSamplerCreateInfo"]} []);
         ("VkPipelineExtEXT",
          mkStructType
            {["VkGraphicsPipelineCreateInfo"; "VkComputePipelineCreateInfo";
              "VkSamplerCreateInfo"]}
            ["VkStructureType"; "uint32_t"])])
      {["VkFilter" := mkEnumType ∅]} ∅ in
  build_model sample_aliases ts = Ok md
  ∧ shallow_copy_pnext_size_lut md
    = join "" (size_table_rows sample_aliases <$> ts).
Proof.
  intros ts md.
  assert (build_model sample_aliases ts = Ok md) as Hmd by evaluates.
  split; [exact Hmd|].
  exact (X18_size_table_rows_in_order sample_aliases ts md Hmd).
Defined.

(** ** Extension delta reporter: further properties *)

(** X19: the new structs, new enums and enum-value pairs of an extension
    are its references filtered by the report's tests, in encounter order
    and with repetitions kept; and no type reference is classified both as
    a new struct and as a new enum. *)
Theorem X19_additions_in_encounter_order env ext :
  let a := scan_extension env ext in
  new_structs a = filter (is_new_struct env) (type_refs env ext)
  ∧ new_enums a = filter (is_new_enum env) (type_refs env ext)
  ∧ extended_enums a = omap (enum_extension env) (enum_refs ext)
  ∧ (∀ n, n ∈ new_structs a → n ∉ new_enums a).
Proof.
  intros a. subst a. rewrite scan_extension_spec. simpl.
  split_and!; [done..|].
  intros n [[Hn _] _]%list_elem_of_filter [(Hnot & _) _]%list_elem_of_filter.
  done.
Qed.

(** X20: an extension that does not support the target API, or is
    completed or ignored, has no section in the Additions report; a
    completed extension is reported as completed even when it is also
    ignored; and whenever a status line is printed for an extension, no
    section is. *)
Theorem X20_completed_extensions_not_expanded env lg ext :
  let name := extension_name ext in
  ("vulkan" ∉ extension_supported ext ∨ name ∈ completed_extensions lg
   ∨ name ∈ ignored_extensions lg →
   additions_section env lg ext = run [] (Ok tt))
  ∧ ("vulkan" ∈ extension_supported ext → name ∈ completed_extensions lg →
     completed_line lg ext = run [name +:+ " || Completed"] (Ok tt))
  ∧ ("vulkan" ∈ extension_supported ext → name ∉ completed_extensions lg →
     name ∈ ignored_extensions lg →
     completed_line lg ext = run [name +:+ " || Ignored"] (Ok tt))
  ∧ (output (completed_line lg ext) ≠ [] →
     additions_section env lg ext = run [] (Ok tt)).
Proof.
  intros name. subst name. unfold additions_section, completed_line.
  split_and!.
  - intros Hcase. case_decide as Hsup; [|done].
    case_decide as Hor; [done|]. exfalso. naive_solver.
  - intros Hsup Hc. by rewrite !decide_True.
  - intros Hsup Hnc Hi. rewrite decide_True by done.
    rewrite decide_False by done. by rewrite decide_True.
  - case_decide as Hsup; [|done].
    case_decide as Hc.
    + intros _. rewrite decide_True; [done|by left].
    + case_decide as Hi; [|done].
      intros _. rewrite decide_True; [done|by right].
Qed.

Lemma X20_completed_extensions_not_expanded_witness :
  let lg := mkLedger {["VK_EXT_feature"]} {["VK_EXT_feature"]} ∅ ∅ in
  completed_line lg feature_extension
  = run ["VK_EXT_feature" +:+ " || Completed"] (Ok tt)
  ∧ additions_section feature_env lg feature_extension = run [] (Ok tt).
Proof.
  intros lg.
  assert ("vulkan" ∈ extension_supported feature_extension) as Hsup.
  { apply (bool_decide_unpack _). vm_compute. exact I. }
  assert (extension_name feature_extension ∈ completed_extensions lg) as Hc.
  { apply (bool_decide_unpack _). vm_compute. exact I. }
  split.
  - exact (proj1 (proj2 (X20_completed_extensions_not_expanded feature_env lg
                           feature_extension)) Hsup Hc).
  - apply (proj1 (X20_completed_extensions_not_expanded feature_env lg
                    feature_extension)).
    right; left. exact Hc.
Defined.

(** X21: when an extension contributes and its new structs are known
    structures, its section is the title line, one line per new struct
    with its chain targets, one per new enum, one per enum-value pair,
    then the Feature line, the Property line and an empty line, and
    printing it raises nothing. *)
Theorem X21_section_layout env ext_name a :
  (∀ n, n ∈ new_structs a → is_Some (env_struct_types env !! n)) →
  ¬ (new_structs a = [] ∧ new_enums a = [] ∧ extended_enums a = []) →
  ∃ struct_lines,
    Forall2
      (λ n line, ∃ st, env_struct_types env !! n = Some st
                       ∧ line = tab +:+ n +:+ " extends "
                                +:+ join ", " (elements (extends st)))
      (new_structs a) struct_lines
    ∧ print_additions env ext_name a
      = run (("=== " +:+ ext_name +:+ " ===")
             :: struct_lines
             ++ ((λ n, tab +:+ n) <$> new_enums a)
             ++ ((λ p : string * string, tab +:+ p.1 +:+ " adds " +:+ p.2)
                   <$> extended_enums a)
             ++ ["   Feature: " +:+ join ", " (feature_structs a);
                 "  Property: " +:+ join ", " (property_structs a); ""])
          (Ok tt).
Proof.
  intros Hknown Hne.
  destruct (for_print_new_structs env (new_structs a) Hknown)
    as (struct_lines & Hlines & Hrun).
  exists struct_lines. split; [done|].
  unfold print_additions. rewrite decide_True.
  2:{ destruct (new_structs a), (new_enums a), (extended_enums a);
        simpl; try lia. by destruct Hne. }
  rewrite Hrun.
  rewrite (for_print_lines _ (λ n, tab +:+ n) (new_enums a)) by done.
  rewrite (for_print_lines _
             (λ p : string * string, tab +:+ p.1 +:+ " adds " +:+ p.2)
             (extended_enums a)) by done.
  simpl. by rewrite <-?app_assoc.
Qed.

Lemma X21_section_layout_witness :
  let env := mkEnv ∅ sample_table {["VkSamplerCreateInfo"]} {["VkChained"]}
               {["VkFilter"]} ∅ in
  let a := mkAdditions ["VkChained"] ["VkFilter"] [("VkFilter", "VK_FILTER_X")]
             [] [] in
  ∃ struct_lines,
    Forall2
      (λ n line, ∃ st, env_struct_types env !! n = Some st
                       ∧ line = tab +:+ n +:+ " extends "
                                +:+ join ", " (elements (extends st)))
      (new_structs a) struct_lines
    ∧ print_additions env "VK_EXT_x" a
      = run (("=== " +:+ "VK_EXT_x" +:+ " ===")
             :: struct_lines
             ++ ((λ n, tab +:+ n) <$> new_enums a)
             ++ ((λ p : string * string, tab +:+ p.1 +:+ " adds " +:+ p.2)
                   <$> extended_enums a)
             ++ ["   Feature: " +:+ join ", " (feature_structs a);
                 "  Property: " +:+ join ", " (property_structs a); ""])
          (Ok tt).
Proof.
  intros env a.
  refine (X21_section_layout env "VK_EXT_x" a _ _).
  - intros n ->%list_elem_of_singleton. eexists. by vm_compute.
  - intros (Hnil & _). discriminate Hnil.
Defined.

(** ** SPIR-V reporter: further properties *)

Lemma spirv_enables_state ens :
  ∀ st st',
    for_each spirv_enable st ens = Ok st' →
    st'.1 = match last (omap enable_version ens) with
            | Some v => Some v
            | None => st.1
            end
    ∧ st'.2 = match st.2 with
              | Some x => Some x
              | None => head (omap enable_extension ens)
              end.
Proof.
  induction ens as [|en ens IH]; intros [cv vk] st'.
  - intros [= <-]. simpl. by destruct vk.
  - rewrite for_each_cons.
    change (omap enable_version (en :: ens))
      with (match enable_version en with
            | Some v => v :: omap enable_version ens
            | None => omap enable_version ens
            end).
    change (omap enable_extension (en :: ens))
      with (match enable_extension en with
            | Some x => x :: omap enable_extension ens
            | None => omap enable_extension ens
            end).
    destruct (enable_extension en) as [x|] eqn:Hx.
    + destruct vk as [v|].
      { by rewrite (spirv_enable_second cv v en x Hx). }
      assert (spirv_enable (cv, None) en
              = Ok (match enable_version en with
                    | Some v => Some v
                    | None => cv
                    end, Some x)) as ->.
      { unfold spirv_enable. simpl. by rewrite Hx. }
      intros Hrest.
      change (for_each spirv_enable
                (match enable_version en with
                 | Some v => Some v
                 | None => cv
                 end, Some x) ens = Ok st') in Hrest.
      apply IH in Hrest as [H1 H2]. simpl in *. split; [|done].
      rewrite H1. destruct (enable_version en) as [v|]; [|done].
      rewrite last_cons. by destruct (last (omap enable_version ens)).
    + assert (spirv_enable (cv, vk) en
              = Ok (match enable_version en with
                    | Some v => Some v
                    | None => cv
                    end, vk)) as ->.
      { unfold spirv_enable. simpl. by rewrite Hx. }
      intros Hrest.
      change (for_each spirv_enable
                (match enable_version en with
                 | Some v => Some v
                 | None => cv
                 end, vk) ens = Ok st') in Hrest.
      apply IH in Hrest as [H1 H2]. simpl in *. split; [|done].
      rewrite H1. destruct (enable_version en) as [v|]; [|done].
      rewrite last_cons. by destruct (last (omap enable_version ens)).
Qed.

(** X22: a SPIR-V extension with at most one Vulkan-extension condition
    gets exactly one row: its name, the extension of that condition or the
    word [None], and the version token of the last core-version condition
    (of none: [0]). *)
Theorem X22_spirv_row ext :
  (extension_conditions ext ≤ 1)%nat →
  spirv_extension_row ext
  = run [spirv_row (spirv_name ext)
           (head (omap enable_extension (spirv_enables ext)))
           (last (omap enable_version (spirv_enables ext)))]
      (Ok tt).
Proof.
  intros Hcount. unfold spirv_extension_row.
  destruct (spirv_enables_ok (spirv_enables ext) (None, None))
    as [st Hst]; [simpl; done|].
  rewrite Hst, bind_quiet_ok.
  apply spirv_enables_state in Hst as [H1 H2]. simpl in H1, H2.
  unfold spirv_row. rewrite H1, H2.
  by destruct (last (omap enable_version (spirv_enables ext))).
Qed.

Lemma X22_spirv_row_witness :
  let ext :=
    mkSpirvElem "SPV_KHR_multiview"
      [enable_version_elem "VK_VERSION_1_0";
       enable_extension_elem "VK_KHR_multiview";
       enable_version_elem "VK_VERSION_1_1"] in
  (extension_conditions ext ≤ 1)%nat
  ∧ spirv_extension_row ext
    = run [spirv_row "SPV_KHR_multiview" (Some "VK_KHR_multiview")
             (Some "VK_VERSION_1_1")] (Ok tt).
Proof.
  intros ext.
  assert (extension_conditions ext ≤ 1)%nat as Hcount by (vm_compute; lia).
  split; [exact Hcount|].
  exact (X22_spirv_row ext Hcount).
Defined.

Lemma for_print_concat {A} (body : A → Run unit) l :
  (∀ x, x ∈ l → outcome (body x) = Ok tt) →
  for_print body l = run (concat ((λ x, output (body x)) <$> l)) (Ok tt).
Proof.
  induction l as [|x l IH]; intros Hbody; [done|].
  change (for_print body (x :: l)) with (_ ← body x; for_print body l).
  rewrite IH by (intros y Hy; apply Hbody; by right).
  rewrite (run_eta (body x)) at 1. rewrite (Hbody x) by left. done.
Qed.

Lemma missing_capability_enable_outcome en :
  (enable_well_formed en → outcome (missing_capability_enable en) = Ok tt)
  ∧ (¬ enable_well_formed en →
     outcome (missing_capability_enable en) = Raise KeyError).
Proof.
  unfold enable_well_formed, missing_capability_enable, print_requires.
  destruct (enable_version en) as [ver|], (enable_feature en) as [f|],
    (enable_struct en) as [sn|], (enable_requires en) as [rq|],
    (enable_property en) as [p|], (enable_member en) as [m|],
    (enable_value en) as [vl|], (enable_extension en) as [x|];
    simpl; (split; [intros [Hf Hp]|intros Hwf]); try done;
    try (exfalso; apply Hwf; split; intros [? ?]; eauto; done);
    try (by destruct Hf as [? ?]; eauto);
    try (by destruct Hp as [[? ?] [? ?]]; eauto).
Qed.

Lemma missing_capability_enable_lines en :
  (∀ v, enable_version en = Some v →
        (tab +:+ "Core version: " +:+ v) ∈ output (missing_capability_enable en))
  ∧ (∀ f s, enable_feature en = Some f → enable_struct en = Some s →
            (tab +:+ "Vulkan feature: " +:+ s +:+ "::" +:+ f)
            ∈ output (missing_capability_enable en))
  ∧ (∀ p m v, enable_feature en = None ∨ is_Some (enable_struct en) →
              enable_property en = Some p → enable_member en = Some m →
              enable_value en = Some v →
              (tab +:+ "Vulkan property: " +:+ p +:+ "::" +:+ m
               +:+ " sets " +:+ v)
              ∈ output (missing_capability_enable en))
  ∧ (∀ x, enable_well_formed en → enable_extension en = Some x →
          (tab +:+ "Vulkan extension: " +:+ x)
          ∈ output (missing_capability_enable en)).
Proof.
  unfold enable_well_formed, missing_capability_enable, print_requires.
  destruct (enable_version en) as [ver|], (enable_feature en) as [f|],
    (enable_struct en) as [sn|], (enable_requires en) as [rq|],
    (enable_property en) as [p|], (enable_member en) as [m|],
    (enable_value en) as [vl|], (enable_extension en) as [x|];
    simpl; split_and!; intros; simplify_eq;
    try (apply list_elem_of_In; simpl; tauto);
    try (exfalso; naive_solver).
Qed.

(** X23: for a capability that is not completed and whose conditions are
    well formed, the Missing section prints its name followed by the lines
    of every one of its enable-conditions, in order: each core version,
    feature, property and extension condition has its line, not only the
    first. *)
Theorem X23_missing_capability_lists_all lg cap :
  spirv_name cap ∉ completed_spirv_capabilities lg →
  Forall enable_well_formed (spirv_enables cap) →
  missing_capability lg cap
  = run (spirv_name cap
         :: concat ((λ en, output (missing_capability_enable en))
                      <$> spirv_enables cap))
      (Ok tt)
  ∧ ∀ en, en ∈ spirv_enables cap →
      (∀ v, enable_version en = Some v →
            (tab +:+ "Core version: " +:+ v)
            ∈ output (missing_capability_enable en))
      ∧ (∀ f s, enable_feature en = Some f → enable_struct en = Some s →
                (tab +:+ "Vulkan feature: " +:+ s +:+ "::" +:+ f)
                ∈ output (missing_capability_enable en))
      ∧ (∀ p m v, enable_property en = Some p → enable_member en = Some m →
                  enable_value en = Some v →
                  (tab +:+ "Vulkan property: " +:+ p +:+ "::" +:+ m
                   +:+ " sets " +:+ v)
                  ∈ output (missing_capability_enable en))
      ∧ (∀ x, enable_extension en = Some x →
              (tab +:+ "Vulkan extension: " +:+ x)
              ∈ output (missing_capability_enable en)).
Proof.
  intros Hmissing Hwf. split.
  - unfold missing_capability. rewrite decide_False by done.
    rewrite bind_print, for_print_concat; [done|].
    intros en Hen. apply missing_capability_enable_outcome.
    by eapply Forall_forall in Hwf.
  - intros en Hen.
    assert (enable_well_formed en) as Hen_wf
      by (by eapply Forall_forall in Hwf).
    destruct (missing_capability_enable_lines en) as (Hv & Hf & Hp & Hx).
    split_and!; [done..| |].
    + intros p m v. apply Hp. destruct Hen_wf as [Hfeat _].
      destruct (enable_feature en); [right; by apply Hfeat|by left].
    + intros x. by apply Hx.
Qed.

Lemma X23_missing_capability_lists_all_witness :
  let cap :=
    mkSpirvElem "StorageBuffer16BitAccess"
      [enable_version_elem "VK_VERSION_1_1";
       mkEnableElem None None None None (Some ["VK_VERSION_1_2"])
         (Some "VkPhysicalDeviceVulkan11Properties") (Some "subgroupSize")
         (Some "VK_TRUE")] in
  missing_capability empty_ledger cap
  = run ["StorageBuffer16BitAccess";
         tab +:+ "Core version: " +:+ "VK_VERSION_1_1";
         tab +:+ "Vulkan property: " +:+ "VkPhysicalDeviceVulkan11Properties"
         +:+ "::" +:+ "subgroupSize" +:+ " sets " +:+ "VK_TRUE";
         tab +:+ "          from: " +:+ "['VK_VERSION_1_2']"]
      (Ok tt).
Proof.
  intros cap.
  assert (spirv_name cap ∉ completed_spirv_capabilities empty_ledger)
    as Hmissing by set_solver.
  assert (Forall enable_well_formed (spirv_enables cap)) as Hwf.
  { constructor; [|constructor; [|constructor]].
    - split; simpl; intros [? ?]; done.
    - split; simpl; [intros [? ?]; done|]. intros _. split; by eexists. }
  exact (proj1 (X23_missing_capability_lists_all empty_ledger cap
                  Hmissing Hwf)).
Defined.

(** X24: a feature condition without [struct], or a property condition
    without [member] or [value], makes the Missing section raise
    [KeyError] at the first such condition of a capability that is not
    completed; a completed capability prints nothing there and its
    conditions are never read. *)
Theorem X24_missing_capability_key_error lg cap :
  (spirv_name cap ∈ completed_spirv_capabilities lg →
   missing_capability lg cap = run [] (Ok tt))
  ∧ (∀ pre en post,
       spirv_name cap ∉ completed_spirv_capabilities lg →
       spirv_enables cap = pre ++ en :: post →
       Forall enable_well_formed pre → ¬ enable_well_formed en →
       missing_capability lg cap
       = run (spirv_name cap
              :: concat ((λ en, output (missing_capability_enable en)) <$> pre)
              ++ output (missing_capability_enable en))
           (Raise KeyError)).
Proof.
  unfold missing_capability. split.
  - intros Hc. by rewrite decide_True.
  - intros pre en post Hmissing Hsplit Hpre Hen.
    rewrite decide_False by done.
    rewrite bind_print, Hsplit, for_print_app.
    rewrite (for_print_concat _ pre).
    2:{ intros en' Hen'. apply missing_capability_enable_outcome.
        by eapply Forall_forall in Hpre. }
    change (for_print missing_capability_enable (en :: post))
      with (_ ← missing_capability_enable en;
            for_print missing_capability_enable post).
    pose proof (proj2 (missing_capability_enable_outcome en) Hen) as Hout.
    destruct (missing_capability_enable en) as [out res].
    simpl in Hout. subst res. done.
Qed.

Lemma X24_missing_capability_key_error_witness :
  let broken :=
    mkEnableElem None None (Some "shaderInt8") None None None None None in
  let cap := mkSpirvElem "Int8" [enable_version_elem "VK_VERSION_1_2"; broken] in
  missing_capability empty_ledger cap
  = run ["Int8"; tab +:+ "Core version: " +:+ "VK_VERSION_1_2"]
      (Raise KeyError).
Proof.
  intros broken cap.
  assert (spirv_name cap ∉ completed_spirv_capabilities empty_ledger)
    as Hmissing by set_solver.
  assert (Forall enable_well_formed [enable_version_elem "VK_VERSION_1_2"])
    as Hpre.
  { constructor; [|constructor]. split; simpl; intros [? ?]; done. }
  assert (¬ enable_well_formed broken) as Hbroken.
  { intros [Hf _]. destruct Hf as [? ?]; [by eexists|done]. }
  exact (proj2 (X24_missing_capability_key_error empty_ledger cap)
           [enable_version_elem "VK_VERSION_1_2"] broken [] Hmissing eq_refl
           Hpre Hbroken).
Defined.

(** ** The run as a whole *)

Lemma bind_inv {A B} (m : Run A) (k : A → Run B) out b :
  m ≫= k = run out (Ok b) →
  ∃ out1 a out2, m = run out1 (Ok a) ∧ k a = run out2 (Ok b)
                 ∧ out = out1 ++ out2.
Proof.
  destruct m as [out1 [a|e]]; simpl; [|done].
  destruct (k a) as [out2 res] eqn:Hk. intros [= <- ->].
  by exists out1, a, out2.
Qed.

Lemma run_inv {A} (out out' : list string) (res res' : result A) :
  run out res = run out' res' → out = out' ∧ res = res'.
Proof. by intros [= -> ->]. Qed.

Lemma quiet_inv {A} (r : result A) out a :
  quiet r = run out (Ok a) → out = [] ∧ r = Ok a.
Proof. by intros [= <- ->]. Qed.

Lemma print_inv s out (a : unit) : print s = run out (Ok a) → out = [s].
Proof. by intros [= <-]. Qed.

Lemma for_print_print l : for_print print l = run l (Ok tt).
Proof.
  induction l as [|x l IH]; [done|].
  change (for_print print (x :: l)) with (_ ← print x; for_print print l).
  by rewrite IH.
Qed.

(** X25: a failure while the tables are built or the two type sets are
    computed aborts the run before anything is printed: the exception of
    the alias pass, of the model builder, of the closure or of the
    classifier is the outcome of [main], with empty output. *)
Theorem X25_build_failures_print_nothing limit root lg e :
  collect_aliases (types root) = Raise e
  ∨ (∃ al, collect_aliases (types root) = Ok al
       ∧ (build_model al (types root) = Raise e
          ∨ ∃ md, build_model al (types root) = Ok md
              ∧ (traverse_active_struct_types limit (elements top_level_types)
                   (struct_types md) = Raise e
                 ∨ ∃ A, traverse_active_struct_types limit
                          (elements top_level_types) (struct_types md) = Ok A
                      ∧ find_extending_structs limit A (struct_types md)
                        = Raise e))) →
  main limit root lg = run [] (Raise e).
Proof.
  unfold main, report_closure.
  intros [Hal|(al & Hal & [Hmd|(md & Hmd & [HA|(A & HA & HE)])])];
    rewrite Hal; [done|rewrite bind_quiet_ok..];
    rewrite Hmd; [done|rewrite bind_quiet_ok..];
    rewrite HA; [done|rewrite bind_quiet_ok].
  by rewrite HE.
Qed.

Lemma X25_build_failures_print_nothing_witness :
  let root :=
    mkRegistry [struct_elem "VkLoop" (Some ["VkLoop"]) [member "uint32_t"]]
      [] [] [] in
  main 50 root empty_ledger = run [] (Raise RecursionError).
Proof.
  intros root.
  apply (X25_build_failures_print_nothing 50 root empty_ledger RecursionError).
  right. exists ∅. split; [evaluates|].
  right.
  exists (mkModel "" {["VkLoop" := mkStructType {["VkLoop"]} ["uint32_t"]]} ∅ ∅).
  split; [evaluates|].
  right. exists ∅. split; evaluates.
Defined.

(** X26: when the first part of the report is produced, the sets it
    prints are the computed ones: the environment handed to the later
    sections holds the alias table, the structure table, ActiveTypes from
    the fixed roots, ExtendingTypes over it, ActiveEnums over both and the
    ledger's cherry-picks, and the output is the size table, then the
    elements of the three sets, each under its header. *)
Theorem X26_closure_sections limit root lg out env :
  report_closure limit root lg = run out (Ok env) →
  ∃ md,
    collect_aliases (types root) = Ok (env_type_aliases env)
    ∧ build_model (env_type_aliases env) (types root) = Ok md
    ∧ env_struct_types env = struct_types md
    ∧ traverse_active_struct_types limit (elements top_level_types)
        (struct_types md) = Ok (env_active_types env)
    ∧ find_extending_structs limit (env_active_types env) (struct_types md)
      = Ok (env_extending_types env)
    ∧ find_active_enum_types (env_active_types env) (env_extending_types env)
        (struct_types md) (enum_types md) (bitmask_requirements md)
      = Ok (env_active_enums env)
    ∧ env_cherry_picked env = cherry_picked lg
    ∧ out = [header "pNext LUT"; shallow_copy_pnext_size_lut md;
             header "Base Types"]
            ++ elements (env_active_types env)
            ++ [header "Extending Types"]
            ++ elements (env_extending_types env)
            ++ [header "Active Enums"]
            ++ elements (env_active_enums env).
Proof.
  unfold report_closure. generalize (elements top_level_types) as roots.
  intros roots H.
  apply bind_inv in H as (o1 & al & r1 & [-> Hal]%quiet_inv & H & ->).
  apply bind_inv in H as (o2 & md & r2 & [-> Hmd]%quiet_inv & H & ->).
  apply bind_inv in H as (o3 & A & r3 & [-> HA]%quiet_inv & H & ->).
  apply bind_inv in H as (o4 & E & r4 & [-> HE]%quiet_inv & H & ->).
  apply bind_inv in H as (o5 & [] & r5 & ->%print_inv & H & ->).
  apply bind_inv in H as (o6 & [] & r6 & ->%print_inv & H & ->).
  apply bind_inv in H as (o7 & [] & r7 & ->%print_inv & H & ->).
  apply bind_inv in H as (o8 & [] & r8 & H8 & H & ->).
  apply bind_inv in H as (o9 & [] & r9 & ->%print_inv & H & ->).
  apply bind_inv in H as (o10 & [] & r10 & H10 & H & ->).
  apply bind_inv in H as (o11 & [] & r11 & ->%print_inv & H & ->).
  apply bind_inv in H as (o12 & enums & r12 & [-> Henums]%quiet_inv & H & ->).
  apply bind_inv in H as (o13 & [] & r13 & H13 & H & ->).
  rewrite for_print_print in H8, H10, H13.
  apply run_inv in H8 as [<- _]. apply run_inv in H10 as [<- _].
  apply run_inv in H13 as [<- _]. apply run_inv in H as [<- Henv].
  injection Henv as <-.
  exists md. split_and!; try done.
  rewrite app_nil_r. cbn [env_active_types env_extending_types env_active_enums].
  by rewrite !app_nil_l, <-?app_assoc.
Qed.

Lemma X26_closure_sections_witness :
  ∃ md,
    collect_aliases (types spirv_registry) = Ok ∅
    ∧ build_model ∅ (types spirv_registry) = Ok md
    ∧ ({["VkSamplerCreateInfo" := mkStructType ∅ ["VkStructureType"]]}
         : gmap string StructType) = struct_types md
    ∧ traverse_active_struct_types 8 (elements top_level_types)
        (struct_types md) = Ok {["VkSamplerCreateInfo"]}
    ∧ find_extending_structs 8 {["VkSamplerCreateInfo"]} (struct_types md)
      = Ok ∅
    ∧ find_active_enum_types {["VkSamplerCreateInfo"]} ∅
        (struct_types md) (enum_types md) (bitmask_requirements md)
      = Ok ∅
    ∧ (∅ : gset string) = cherry_picked empty_ledger
    ∧ [header "pNext LUT"; ""; header "Base Types"; "VkSamplerCreateInfo";
       header "Extending Types"; header "Active Enums"]
      = [header "pNext LUT"; shallow_copy_pnext_size_lut md;
         header "Base Types"]
        ++ elements ({["VkSamplerCreateInfo"]} : gset string)
        ++ [header "Extending Types"]
        ++ elements (∅ : gset string)
        ++ [header "Active Enums"]
        ++ elements (∅ : gset string).
Proof.
  refine (X26_closure_sections 8 spirv_registry empty_ledger
            [header "pNext LUT"; ""; header "Base Types";
             "VkSamplerCreateInfo"; header "Extending Types";
             header "Active Enums"]
            (mkEnv ∅
               {["VkSamplerCreateInfo" := mkStructType ∅ ["VkStructureType"]]}
               {["VkSamplerCreateInfo"]} ∅ ∅ ∅) _).
  evaluates.
Defined.





(** ** Elements with optional attributes *)

Lemma for_each_ok_fold {A S} (f : S → A → S) (l : list A) :
  ∀ s, for_each (λ s x, Ok (f s x)) s l = Ok (fold_left f l s).
Proof. induction l as [|x l IH]; intros s; [done|]. apply IH. Qed.














(** The run on the full registry, every section of the report filled. *)
Example full_registry_run :
  main_raw 8 (with_names full_registry) full_ledger
  = run [header "pNext LUT";
         size_row "VK_STRUCTURE_TYPE_SAMPLER_BORDER_COLOR_EXT"
           "VkSamplerBorderColorEXT";
         header "Base Types"; "VkSamplerCreateInfo";
         header "Extending Types";
         "VkSamplerYcbcrConversionInfo"; "VkSamplerBorderColorEXT";
         header "Active Enums"; "VkFilter";
         header "Completed extensions"; "VK_EXT_done || Completed";
         header "Additions";
         "=== VK_KHR_sampler_ycbcr_conversion ===";
         tab +:+ "VkSamplerYcbcrConversionInfo extends VkSamplerCreateInfo";
         tab +:+ "VkFilter adds VK_FILTER_CUBIC_EXT";
         "   Feature: "; "  Property: "; "";
         header "SPIR-V extensions table";
         spirv_row "SPV_KHR_multiview" (Some "VK_KHR_multiview")
           (Some "VK_VERSION_1_1");
         spirv_row "SPV_KHR_plain" None None;
         header "Completed SPIR-V capabilities"; "Int8 || Complete";
         header "Missing SPIR-V capabilities"; "Int16";
         tab +:+ "Core version: VK_VERSION_1_2";
         tab +:+ "Vulkan feature: VkPhysicalDeviceFeatures::shaderInt16";
         tab +:+ "          from: ['VK_VERSION_1_1']"]
      (Ok tt).
Proof. evaluates. Qed.

Lemma scan_extension_raw_raises env ext e :
  scan_extension_raw env ext = Raise e → e = KeyError.
Proof.
  unfold scan_extension_raw. apply for_each_raises.
  intros acc reqs e' _. unfold scan_require_raw.
  destruct (for_each (scan_type_raw env) acc (raw_require_types reqs))
    as [acc1|e1] eqn:Htypes; simpl.
  - apply for_each_raises. intros acc2 en e2 _. unfold scan_enum_raw.
    destruct (raw_enumref_name en); simpl; [done|by intros [= <-]].
  - intros [= <-]. revert Htypes. apply for_each_raises.
    intros acc2 t e2 _. unfold scan_type_raw.
    destruct t; simpl; [done|by intros [= <-]].
Qed.

Lemma for_each_hits {A S} (body : S → A → result S) (e0 : exn) l x :
  x ∈ l → (∀ s, body s x = Raise e0) →
  (∀ s y e, body s y = Raise e → e = e0) →
  ∀ s, for_each body s l = Raise e0.
Proof.
  intros Hx Hhit Honly. induction l as [|y l IH]; intros s;
    [by apply elem_of_nil in Hx|].
  rewrite for_each_cons. destruct (body s y) as [s1|e] eqn:Hy; simpl.
  - apply elem_of_cons in Hx as [->|Hx]; [|by apply IH].
    by rewrite Hhit in Hy.
  - by rewrite (Honly s y e Hy).
Qed.

Lemma for_each_raise_inv {A S} (body : S → A → result S) l :
  ∀ s e, for_each body s l = Raise e →
         ∃ x s', x ∈ l ∧ body s' x = Raise e.
Proof.
  induction l as [|y l IH]; intros s e; [done|].
  rewrite for_each_cons. destruct (body s y) as [s1|e1] eqn:Hy; simpl.
  - intros (x & s' & Hx & Hraise)%IH. exists x, s'. split; [by right|done].
  - intros [= <-]. exists y, s. split; [left|done].
Qed.

Lemma scan_type_raw_raises env acc t e :
  scan_type_raw env acc t = Raise e → t = None ∧ e = KeyError.
Proof. destruct t; simpl; [done|]. by intros [= <-]. Qed.

Lemma scan_enum_raw_raises env acc en e :
  scan_enum_raw env acc en = Raise e → raw_enumref_name en = None ∧ e = KeyError.
Proof.
  unfold scan_enum_raw. destruct (raw_enumref_name en); simpl; [done|].
  by intros [= <-].
Qed.

(** A requirement block whose scan raises holds a reference without
    name. *)
Lemma scan_require_raw_raise_inv env acc reqs e :
  scan_require_raw env acc reqs = Raise e →
  None ∈ raw_require_types reqs
  ∨ ∃ en, en ∈ raw_require_enums reqs ∧ raw_enumref_name en = None.
Proof.
  unfold scan_require_raw.
  destruct (for_each (scan_type_raw env) acc (raw_require_types reqs))
    as [acc1|e1] eqn:Htypes; simpl.
  - intros (en & s' & Hen & Hen_raise)%for_each_raise_inv.
    apply scan_enum_raw_raises in Hen_raise as [Hname _]. right. by exists en.
  - intros _. apply for_each_raise_inv in Htypes as (t & s' & Ht & Ht_raise).
    apply scan_type_raw_raises in Ht_raise as [-> _]. by left.
Qed.

Lemma scan_require_raw_raises env acc reqs e :
  scan_require_raw env acc reqs = Raise e → e = KeyError.
Proof.
  unfold scan_require_raw.
  destruct (for_each (scan_type_raw env) acc (raw_require_types reqs))
    as [acc1|e1] eqn:Htypes; simpl.
  - intros (en & s' & _ & Hraise)%for_each_raise_inv.
    by apply scan_enum_raw_raises in Hraise as [_ ->].
  - intros [= <-]. apply for_each_raise_inv in Htypes as (t & s' & _ & Hraise).
    by apply scan_type_raw_raises in Hraise as [_ ->].
Qed.

Lemma scan_require_raw_nameless_any env reqs acc :
  (None ∈ raw_require_types reqs
   ∨ ∃ en, en ∈ raw_require_enums reqs ∧ raw_enumref_name en = None) →
  scan_require_raw env acc reqs = Raise KeyError.
Proof.
  intros Hnameless. unfold scan_require_raw.
  destruct (for_each (scan_type_raw env) acc (raw_require_types reqs))
    as [acc1|e] eqn:Htypes; simpl.
  - destruct Hnameless as [Hnone|(en & Hen & Hname)].
    + rewrite (for_each_hits (scan_type_raw env) KeyError _ None) in Htypes;
        [done..|].
      intros s y e He. by apply scan_type_raw_raises in He as [_ ->].
    + apply (for_each_hits (scan_enum_raw env) KeyError _ en); [done| |].
      * intros s. unfold scan_enum_raw. by rewrite Hname.
      * intros s y e He. by apply scan_enum_raw_raises in He as [_ ->].
  - apply for_each_raise_inv in Htypes as (t & s' & _ & Ht).
    by apply scan_type_raw_raises in Ht as [_ ->].
Qed.

(** The scan of an extension raises exactly when one of its references
    has no name. *)
Lemma scan_extension_raw_nameless env ext :
  (∃ reqs, reqs ∈ raw_extension_requires ext
           ∧ (None ∈ raw_require_types reqs
              ∨ ∃ en, en ∈ raw_require_enums reqs
                      ∧ raw_enumref_name en = None))
  ↔ scan_extension_raw env ext = Raise KeyError.
Proof.
  unfold scan_extension_raw. split.
  - intros (reqs & Hreqs & Hnameless).
    apply (for_each_hits (scan_require_raw env) KeyError _ reqs); [done| |].
    + intros acc. by apply scan_require_raw_nameless_any.
    + intros acc y e. apply scan_require_raw_raises.
  - intros (reqs & acc & Hreqs & Hraise)%for_each_raise_inv.
    exists reqs. split; [done|]. by eapply scan_require_raw_raise_inv.
Qed.

(** X28: what a missing [supported] or [name] attribute does to an
    extension.  Without [supported], both extension sections raise
    [KeyError] at it.  When [supported] does not list the target API,
    nothing is printed and neither its name nor its references are read.
    When it does and the name is missing, both sections raise [KeyError].
    The references of a completed or ignored extension are never read.
    For any other extension the scan raises exactly when a type or
    enum-value reference has no name, the exception is [KeyError], and the
    section raises it before the section title is printed; otherwise the
    section is printed from the scanned lists. *)
Theorem X28_missing_extension_attributes env lg ext :
  (raw_extension_supported ext = None →
   completed_line_raw lg ext = run [] (Raise KeyError)
   ∧ additions_section_raw env lg ext = run [] (Raise KeyError))
  ∧ (∀ supported,
       raw_extension_supported ext = Some supported → "vulkan" ∉ supported →
       completed_line_raw lg ext = run [] (Ok tt)
       ∧ additions_section_raw env lg ext = run [] (Ok tt))
  ∧ (∀ supported,
       raw_extension_supported ext = Some supported → "vulkan" ∈ supported →
       raw_extension_name ext = None →
       completed_line_raw lg ext = run [] (Raise KeyError)
       ∧ additions_section_raw env lg ext = run [] (Raise KeyError))
  ∧ (∀ supported name,
       raw_extension_supported ext = Some supported → "vulkan" ∈ supported →
       raw_extension_name ext = Some name →
       name ∈ completed_extensions lg ∨ name ∈ ignored_extensions lg →
       additions_section_raw env lg ext = run [] (Ok tt))
  ∧ (∀ supported name,
       raw_extension_supported ext = Some supported → "vulkan" ∈ supported →
       raw_extension_name ext = Some name →
       name ∉ completed_extensions lg → name ∉ ignored_extensions lg →
       ((∃ reqs, reqs ∈ raw_extension_requires ext
                 ∧ (None ∈ raw_require_types reqs
                    ∨ ∃ en, en ∈ raw_require_enums reqs
                            ∧ raw_enumref_name en = None)) →
        additions_section_raw env lg ext = run [] (Raise KeyError))
       ∧ (∀ e, scan_extension_raw env ext = Raise e → e = KeyError)
       ∧ (∀ a, scan_extension_raw env ext = Ok a →
               additions_section_raw env lg ext
               = print_additions env name a)).
Proof.
  unfold completed_line_raw, additions_section_raw. split_and!.
  - by intros ->.
  - intros supported -> Hnv. cbn [attrib]. rewrite !bind_quiet_ok.
    by rewrite !decide_False.
  - intros supported -> Hv ->. cbn [attrib]. rewrite !bind_quiet_ok.
    by rewrite !decide_True.
  - intros supported name -> Hv -> Hdone. cbn [attrib].
    rewrite bind_quiet_ok, decide_True by done. rewrite bind_quiet_ok.
    by rewrite decide_True.
  - intros supported name -> Hv -> Hnc Hni. cbn [attrib].
    rewrite bind_quiet_ok, decide_True by done. rewrite bind_quiet_ok.
    rewrite decide_False by (by intros []). split_and!.
    + intros Hnameless%(scan_extension_raw_nameless env). by rewrite Hnameless.
    + intros e. apply scan_extension_raw_raises.
    + intros a ->. by rewrite bind_quiet_ok.
Qed.

Lemma X28_missing_extension_attributes_witness :
  let nameless_ref :=
    mkRawExtensionElem (Some "VK_EXT_x") (Some ["vulkan"])
      [mkRawRequireElem [Some "VkFilter"; None] []] in
  additions_section_raw flagged_env empty_ledger nameless_ref
  = run [] (Raise KeyError).
Proof.
  intros nameless_ref.
  refine (proj1 (proj2 (proj2 (proj2 (proj2
            (X28_missing_extension_attributes flagged_env empty_ledger
               nameless_ref))))
            ["vulkan"] "VK_EXT_x" eq_refl _ eq_refl _ _) _).
  - apply (bool_decide_unpack _). vm_compute. exact I.
  - apply (bool_decide_unpack _). vm_compute. exact I.
  - apply (bool_decide_unpack _). vm_compute. exact I.
  - exists (mkRawRequireElem [Some "VkFilter"; None] []).
    split; [left|]. left. right. left.
Defined.

(** X29: what a missing [name] attribute does to a SPIR-V element.  In
    the extension table the name is read only after the enable-conditions,
    so a second Vulkan-extension condition still raises [TypeError] and
    otherwise the row raises [KeyError]; in both capability sections the
    name is read first and raises [KeyError], nothing being printed for
    the element. *)
Theorem X29_missing_spirv_name lg ext :
  raw_spirv_name ext = None →
  (1 < length (filter (λ en, is_Some (enable_extension en))
                 (raw_spirv_enables ext)) →
   spirv_extension_row_raw ext = run [] (Raise TypeError))
  ∧ ((length (filter (λ en, is_Some (enable_extension en))
                (raw_spirv_enables ext)) ≤ 1)%nat →
     spirv_extension_row_raw ext = run [] (Raise KeyError))
  ∧ completed_capability_line_raw lg ext = run [] (Raise KeyError)
  ∧ missing_capability_raw lg ext = run [] (Raise KeyError).
Proof.
  intros Hname.
  unfold spirv_extension_row_raw, completed_capability_line_raw,
    missing_capability_raw.
  rewrite Hname. split_and!; [| |done..].
  - intros Hcount. by rewrite spirv_enables_raise.
  - intros Hcount.
    destruct (spirv_enables_ok (raw_spirv_enables ext) (None, None))
      as [st ->]; [done|].
    by rewrite bind_quiet_ok.
Qed.

Lemma X29_missing_spirv_name_witness :
  let nameless :=
    mkRawSpirvElem None
      [enable_extension_elem "VK_EXT_a"; enable_extension_elem "VK_EXT_b"] in
  spirv_extension_row_raw nameless = run [] (Raise TypeError)
  ∧ missing_capability_raw empty_ledger nameless = run [] (Raise KeyError).
Proof.
  intros nameless.
  destruct (X29_missing_spirv_name empty_ledger nameless eq_refl)
    as (Hrow & _ & _ & Hcap).
  split; [|exact Hcap].
  apply Hrow. simpl. lia.
Defined.
